(** * Feature-track fusion (tracks.hpp): a shallow embedding and its properties

    The development follows [src/tracks.hpp]: the [flat_pair_map] helper,
    and the [TracksBuilder] operations [Build], [Filter],
    [FilterPairWiseMinimumMatches], [NbTracks] and [ExportToSTL].

    Containers are modelled by what the code observes of them:
    - [std::set<T>] is a strictly ascending list ([set_insert]);
    - [std::vector<std::pair<K,V>>] inside [flat_pair_map] is a list of pairs,
      searched with [lower_bound];
    - [std::map<Image::ptr, std::set<size_t>>] is an ascending association list;
    - the exported [STLMAPTracks] is a finite map of finite maps ([gmap]). *)

From Stdlib Require Import ZArith Lia.
From stdpp Require Import base tactics option list relations sorting gmap strings pretty.

#[local] Set Warnings "-clear-no-such-hyp".

(** ** Input types

    [Image::ptr], [ImagePair] and [IndMatch] are declared in headers that
    are not part of [src/] (image.h, image_pairs.h). *)

(** Modelled from the spec: [Image::ptr] is an opaque image handle with
    equality and a total order (the order [std::set] and [std::map] use). *)
Definition ImageId : Type := nat.

(** Modelled from the spec: [IndMatch { queryIdx; trainIdx }], two feature
    indices of type [int]; no arithmetic is ever done on them. *)
Record IndMatch : Type := mkIndMatch { queryIdx : Z; trainIdx : Z }.

(** Modelled from the spec: [ImagePair { first(); second(); get_matches() }]. *)
Record ImagePair : Type := mkImagePair {
  first : ImageId;
  second : ImageId;
  get_matches : list IndMatch
}.

(** [typedef std::pair<Image::ptr, int> indexedFeaturePair] *)
Definition indexedFeaturePair : Type := ImageId * Z.

(** [lemon::ListDigraph::Node]: a node is its integer id. *)
Definition Node : Type := nat.

(** ** Comparators

    The strict weak orders the standard containers are instantiated with.
    All of them are strict total orders here. *)

Class StrictOrderB {T : Type} (ltb : T → T → bool) : Prop := {
  ltb_irrefl : ∀ x, ltb x x = false;
  ltb_trans : ∀ x y z, ltb x y = true → ltb y z = true → ltb x z = true;
  ltb_total : ∀ x y, ltb x y = false → ltb y x = false → x = y
}.

(** [operator<] of [std::pair]: lexicographic. *)
Definition pair_ltb (a b : indexedFeaturePair) : bool :=
  (a.1 <? b.1)%nat || (negb (b.1 <? a.1)%nat && (a.2 <? b.2)%Z).

(** ** Ordered containers *)

Section ordered.
Context {T : Type} (ltb : T → T → bool).

(** [std::set<T>::insert]: the set stays ascending, an equivalent key
    is not inserted twice. *)
Fixpoint set_insert (x : T) (s : list T) : list T :=
  match s with
  | [] => [x]
  | y :: s' =>
      if ltb y x then y :: set_insert x s'
      else if ltb x y then x :: s
      else s
  end.

(** The ascending lists that stand for [std::set] and for sorted vectors. *)
Definition ascending (s : list T) : Prop :=
  StronglySorted (λ x y, ltb x y = true) s.

End ordered.

Section flat_pair_map.
Context {T : Type} (ltb : T → T → bool).

(** [std::lower_bound(m_vec.begin(), m_vec.end(), val, superiorToFirst)]:
    the first position whose key is not less than [val], given as the
    suffix of the vector that starts there (the empty suffix is [end()]).
    On a sorted vector the binary search of the library returns it. *)
Fixpoint lower_bound {V : Type} (m_vec : list (T * V)) (val : T) : list (T * V) :=
  match m_vec with
  | [] => []
  | p :: rest => if ltb p.1 val then lower_bound rest val else m_vec
  end.

(** [flat_pair_map::find]: the iterator returned by [lower_bound];
    [None] stands for [end()]. The key found is not compared with [val]. *)
Definition flat_find {V : Type} (m_vec : list (T * V)) (val : T) : option (T * V) :=
  head (lower_bound m_vec val).

(** [flat_pair_map::operator[]]: [lower_bound(...)->second]. Dereferencing
    [end()] has no defined behaviour: [None]. *)
Definition flat_at {V : Type} (m_vec : list (T * V)) (val : T) : option V :=
  snd <$> flat_find m_vec val.

(** [flat_pair_map::sort]: [std::sort] with [sortPairAscend] (compare the
    first components). Keys are pairwise distinct wherever it is called,
    so the result does not depend on the sorting algorithm; insertion
    sort is used. *)
Fixpoint sort_insert {V : Type} (p : T * V) (l : list (T * V)) : list (T * V) :=
  match l with
  | [] => [p]
  | q :: l' => if ltb p.1 q.1 then p :: l else q :: sort_insert p l'
  end.

Definition flat_sort {V : Type} (m_vec : list (T * V)) : list (T * V) :=
  foldr sort_insert [] m_vec.

End flat_pair_map.

Section ordered_algorithms.
Context {T : Type} (ltb : T → T → bool).

(** [std::set_intersection] on two ascending ranges. *)
Fixpoint set_intersection (a b : list T) : list T :=
  match a with
  | [] => []
  | x :: a' =>
      (fix scan (b : list T) : list T :=
         match b with
         | [] => []
         | y :: b' =>
             if ltb x y then set_intersection a' b
             else if ltb y x then scan b'
             else x :: set_intersection a' b'
         end) b
  end.

(** [std::sort] on a vector of keys (insertion sort, see [flat_sort]). *)
Fixpoint vec_sort_insert (x : T) (l : list T) : list T :=
  match l with
  | [] => [x]
  | y :: l' => if ltb x y then x :: l else y :: vec_sort_insert x l'
  end.

Definition vec_sort (v : list T) : list T := foldr vec_sort_insert [] v.

(** [std::unique] followed by [resize]: one element is left of each run
    of equal consecutive elements ([operator==]). *)
Fixpoint vec_unique `{!EqDecision T} (v : list T) : list T :=
  match v with
  | [] => []
  | x :: v' =>
      match v' with
      | [] => [x]
      | y :: _ => if decide (x = y) then vec_unique v' else x :: vec_unique v'
      end
  end.

End ordered_algorithms.

(** [m[key].insert(t)] on a [std::map<K, std::set<E>>]: the entry of [key]
    is created empty when it is missing, then [t] is inserted in it. *)
Fixpoint map_set_insert {K E : Type} (kltb : K → K → bool) (eltb : E → E → bool)
    (key : K) (t : E) (m : list (K * list E)) : list (K * list E) :=
  match m with
  | [] => [(key, set_insert eltb t [])]
  | p :: m' =>
      if kltb p.1 key then p :: map_set_insert kltb eltb key t m'
      else if kltb key p.1 then (key, set_insert eltb t []) :: m
      else (p.1, set_insert eltb t p.2) :: m'
  end.

(** ** The enumerable union-find *)

(** Modelled from the spec: [lemon::UnionFindEnum] (lemon/unionfind.h is not
    part of [src/]). Section 4.B of the specification lists its operations:
    make/insert, unite ([join]), find, [classes()] ([ClassIt]), [items(repr)]
    ([ItemIt]) and erase ([eraseClass]).  The model keeps exactly what the
    two iterators enumerate: the live classes in [ClassIt] order, each with
    its integer id ([ClassIt::operator int]) and its members in [ItemIt]
    order.  Following the library, a new class is linked in front of the
    class list, [join] is a union by size that keeps the id and the place of
    the larger class (of the second one on a tie) and appends the members of
    the other class to it, and [eraseClass] unlinks one class.  The parent
    forest with its path compression is not observable through these
    operations and is left out. *)
Module UnionFindEnum.

(** Modelled from the spec: the state of the structure, that is the
    class list and the counter of the class ids handed out so far. *)
Record t : Type := mk {
  classes : list (nat * list Node);  (* ClassIt order: (class id, ItemIt order) *)
  nextClass : nat                    (* the id the next new class receives *)
}.

(** Modelled from the spec: the structure right after its construction. *)
Definition empty : t := mk [] 0.

(** Modelled from the spec: [insert(item)] makes a new singleton class,
    first in the class list. *)
Definition insert (uf : t) (item : Node) : t :=
  mk ((nextClass uf, [item]) :: classes uf) (S (nextClass uf)).

(** Modelled from the spec: the live class an item belongs to. *)
Fixpoint find_class (cs : list (nat * list Node)) (item : Node) : option (nat * list Node) :=
  match cs with
  | [] => None
  | c :: cs' => if decide (item ∈ c.2) then Some c else find_class cs' item
  end.

(** Modelled from the spec: [find(item)], the id of the class of [item]. *)
Definition find (uf : t) (item : Node) : option nat :=
  fst <$> find_class (classes uf) item.

(** Modelled from the spec: [eraseClass(cls)] unlinks the class from the
    class list. *)
Definition eraseClass (uf : t) (cls : nat) : t :=
  mk (filter (λ c, c.1 ≠ cls) (classes uf)) (nextClass uf).

(** Modelled from the spec: the class [keep] absorbs the members of [drop],
    which is unlinked. *)
Definition absorb (keep drop : nat * list Node) (cs : list (nat * list Node))
    : list (nat * list Node) :=
  (λ c, if decide (c.1 = keep.1) then (c.1, c.2 ++ drop.2) else c)
    <$> filter (λ c, c.1 ≠ drop.1) cs.

(** Modelled from the spec: [join(a, b)]. Nothing happens when both are in
    one class; otherwise the class of [a] survives when it is strictly
    larger, the class of [b] in the other case. *)
Definition join (uf : t) (a b : Node) : t :=
  match find_class (classes uf) a, find_class (classes uf) b with
  | Some ca, Some cb =>
      if decide (ca.1 = cb.1) then uf
      else if decide (length cb.2 < length ca.2)
           then mk (absorb ca cb (classes uf)) (nextClass uf)
           else mk (absorb cb ca (classes uf)) (nextClass uf)
  | _, _ => uf
  end.

(** The members of all live classes: the node ids present in the
    structure. *)
Definition items (uf : t) : list Node := concat (classes uf).*2.

(** Well-formedness: class ids are pairwise distinct and no item lies
    in two classes. *)
Definition wf (cs : list (nat * list Node)) : Prop :=
  NoDup cs.*1 ∧
  ∀ c1 c2 x, c1 ∈ cs → c2 ∈ cs → x ∈ c1.2 → x ∈ c2.2 → c1 = c2.

(** Two items lie in one live class. *)
Definition same (cs : list (nat * list Node)) (x y : Node) : Prop :=
  ∃ c, c ∈ cs ∧ x ∈ c.2 ∧ y ∈ c.2.

(** The next class id is above all the live ones. *)
Definition fresh_next (uf : t) : Prop := ∀ c, c ∈ classes uf → c.1 < nextClass uf.

End UnionFindEnum.

(** ** TracksBuilder *)

(** Modelled from the spec: [lemon::ListDigraph] (lemon/list_graph.h is not
    part of [src/]) is used only as a source of node ids. [g] is the number
    of nodes added so far: [addNode] returns the ids 0, 1, 2, ... and
    [NodeIt] enumerates the nodes from the newest to the oldest. *)
Definition addNode (g : nat) : Node * nat := (g, S g).

(** Modelled from the spec: [NodeIt], from the newest node to the oldest. *)
Definition NodeIt (g : nat) : list Node := reverse (seq 0 g).

Record TracksBuilder : Type := mkTracksBuilder {
  g : nat;                                              (* lemon::ListDigraph g *)
  reverse_my_Map : list (Node * indexedFeaturePair);    (* MapNodeIndex *)
  myTracksUF : UnionFindEnum.t                          (* *myTracksUF *)
}.

(** The builder [Build] is called on: no node, no entry in
    [reverse_my_Map].  In the code [myTracksUF] is a null pointer until
    [Build] allocates the union-find, and [Build] assigns it without
    reading it; the other operations dereference it and are meant for a
    builder that [Build] has filled.  The record has no null: the field
    holds the structure [Build] is about to allocate, and
    [new_TracksBuilder] is used as the argument of [Build] only. *)
Definition new_TracksBuilder : TracksBuilder :=
  mkTracksBuilder 0 [] UnionFindEnum.empty.

(** First loop of [Build]: both endpoints of every match enter [myset]. *)
Definition Build_collect (image_pairs : list ImagePair) : list indexedFeaturePair :=
  foldl (λ myset image_pair,
    foldl (λ myset match_,
      set_insert pair_ltb (second image_pair, queryIdx match_)
        (set_insert pair_ltb (first image_pair, trainIdx match_) myset))
      myset (get_matches image_pair))
    [] image_pairs.

(** Second loop of [Build]: one graph node per element of [myset], pushed
    on [my_Map] and on [reverse_my_Map]. *)
Definition Build_nodes (g0 : nat) (rev0 : list (Node * indexedFeaturePair))
    (myset : list indexedFeaturePair)
    : nat * list (indexedFeaturePair * Node) * list (Node * indexedFeaturePair) :=
  foldl (λ '(g, my_Map, rev_Map) set_entry,
    let '(node, g') := addNode g in
    (g', my_Map ++ [(set_entry, node)], rev_Map ++ [(node, set_entry)]))
    (g0, [], rev0) myset.

(** Last loop of [Build]: one [join] per match. [my_Map[...]] looks both
    endpoints up; they were registered by the first loop. *)
Definition Build_unions (my_Map : list (indexedFeaturePair * Node))
    (uf : UnionFindEnum.t) (image_pairs : list ImagePair) : UnionFindEnum.t :=
  foldl (λ uf image_pair,
    foldl (λ uf match_,
      let first_pair := (first image_pair, trainIdx match_) in
      let second_pair := (second image_pair, queryIdx match_) in
      match flat_at pair_ltb my_Map first_pair, flat_at pair_ltb my_Map second_pair with
      | Some a, Some b => UnionFindEnum.join uf a b
      | _, _ => uf
      end)
      uf (get_matches image_pair))
    uf image_pairs.

(** [TracksBuilder::Build]. The two [reserve] calls have no effect on the
    content of the maps; the [IndexMap] handed to the union-find is its
    private index of the items and is part of its model. *)
Definition Build (tb : TracksBuilder) (image_pairs : list ImagePair) : bool * TracksBuilder :=
  let myset := Build_collect image_pairs in
  let '(g', my_Map, rev_Map) := Build_nodes (g tb) (reverse_my_Map tb) myset in
  let my_Map := flat_sort pair_ltb my_Map in
  let rev_Map := flat_sort Nat.ltb rev_Map in
  let uf := foldl UnionFindEnum.insert UnionFindEnum.empty (NodeIt g') in
  let uf := Build_unions my_Map uf image_pairs in
  (true, mkTracksBuilder g' rev_Map uf).

(** [reverse_my_Map[iit].first]: the image of a member of a class. *)
Definition image_of (tb : TracksBuilder) (item : Node) : option ImageId :=
  fst <$> flat_at Nat.ltb (reverse_my_Map tb) item.

(** The inner loop of [Filter] over one class: the counter [cpt] and the
    set [myset] of the images of its members. *)
Definition Filter_scan (tb : TracksBuilder) (members : list Node) : nat * list ImageId :=
  foldl (λ '(cpt, myset) iit,
    (S cpt, match image_of tb iit with
            | Some img => set_insert Nat.ltb img myset
            | None => myset
            end))
    (0, []) members.

(** [TracksBuilder::Filter] *)
Definition Filter (nLengthSupTo : nat) (tb : TracksBuilder) : bool * TracksBuilder :=
  let set_classToErase :=
    foldl (λ set_classToErase cit,
      let '(cpt, myset) := Filter_scan tb cit.2 in
      if negb (length myset =? cpt) || (length myset <? nLengthSupTo)
      then set_insert Nat.ltb cit.1 set_classToErase
      else set_classToErase)
      [] (UnionFindEnum.classes (myTracksUF tb)) in
  (true, mkTracksBuilder (g tb) (reverse_my_Map tb)
           (foldl UnionFindEnum.eraseClass (myTracksUF tb) set_classToErase)).

(** First loop of [FilterPairWiseMinimumMatches]: the ids of the tracks
    seen in every image. *)
Definition tracksIdPerImages (tb : TracksBuilder) : list (ImageId * list nat) :=
  foldl (λ map_tracksIdPerImages cit,
    let trackId := cit.1 in
    foldl (λ map_tracksIdPerImages iit,
      match flat_find Nat.ltb (reverse_my_Map tb) iit with
      | Some iterTrackValue =>
          let currentPair := iterTrackValue.2 in
          map_set_insert Nat.ltb Nat.ltb currentPair.1 trackId map_tracksIdPerImages
      | None => map_tracksIdPerImages
      end)
      map_tracksIdPerImages cit.2)
    [] (UnionFindEnum.classes (myTracksUF tb)).

(** Second loop: [iter] walks the map, [iter2] starts at [iter]. *)
Fixpoint crossImages (minMatchesOccurences : nat) (m : list (ImageId * list nat))
    (vec_tracksToRemove : list nat) : list nat :=
  match m with
  | [] => vec_tracksToRemove
  | iter :: rest =>
      let setA := iter.2 in
      crossImages minMatchesOccurences rest
        (foldl (λ vec iter2,
           let setB := iter2.2 in
           let inter := set_intersection Nat.ltb setA setB in
           if length inter <? minMatchesOccurences then vec ++ inter else vec)
           vec_tracksToRemove m)
  end.

(** [TracksBuilder::FilterPairWiseMinimumMatches]; the message written to
    [cout] is left out. *)
Definition FilterPairWiseMinimumMatches (minMatchesOccurences : nat) (tb : TracksBuilder)
    : bool * TracksBuilder :=
  let map_tracksIdPerImages := tracksIdPerImages tb in
  let vec_tracksToRemove := crossImages minMatchesOccurences map_tracksIdPerImages [] in
  let vec_tracksToRemove := vec_unique (vec_sort Nat.ltb vec_tracksToRemove) in
  (true, mkTracksBuilder (g tb) (reverse_my_Map tb)
           (foldl UnionFindEnum.eraseClass (myTracksUF tb) vec_tracksToRemove)).

(** [TracksBuilder::NbTracks] *)
Definition NbTracks (tb : TracksBuilder) : nat :=
  foldl (λ cpt _, S cpt) 0 (UnionFindEnum.classes (myTracksUF tb)).

(** The body of the outer loop of [ExportToSTL] for one class:
    [map_tracks.insert] does not replace an entry that is there, and the
    members are then written through the iterator it returns. *)
Definition Export_class (tb : TracksBuilder) (map_tracks : gmap nat (gmap nat Z))
    (cptClass : nat) (members : list Node) : gmap nat (gmap nat Z) :=
  let map_tracks :=
    match map_tracks !! cptClass with
    | Some _ => map_tracks
    | None => <[cptClass := ∅]> map_tracks
    end in
  foldl (λ map_tracks iit,
    match flat_find Nat.ltb (reverse_my_Map tb) iit with
    | Some iterTrackValue =>
        let currentPair := iterTrackValue.2 in
        alter (λ track, <[currentPair.1 := currentPair.2]> track) cptClass map_tracks
    | None => map_tracks
    end)
    map_tracks members.

(** [TracksBuilder::ExportToSTL]: the argument is the caller's map, the
    result is its content on return. The first [let] is
    [map_tracks.clear()]. *)
Definition ExportToSTL (tb : TracksBuilder) (map_tracks : gmap nat (gmap nat Z))
    : gmap nat (gmap nat Z) :=
  let map_tracks : gmap nat (gmap nat Z) := ∅ in
  (foldl (λ '(map_tracks, cptClass) cit,
     (Export_class tb map_tracks cptClass cit.2, S cptClass))
     (map_tracks, 0) (UnionFindEnum.classes (myTracksUF tb))).1.


(** The local [my_Map] of [Build], as it is after [my_Map.sort()]. *)
Definition Build_my_Map (tb : TracksBuilder) (image_pairs : list ImagePair)
    : list (indexedFeaturePair * Node) :=
  let '(_, my_Map, _) :=
    Build_nodes (g tb) (reverse_my_Map tb) (Build_collect image_pairs) in
  flat_sort pair_ltb my_Map.

(** [reverse_my_Map[node]]: the node key a node id resolves to. *)
Definition key_of (tb : TracksBuilder) (item : Node) : option indexedFeaturePair :=
  flat_at Nat.ltb (reverse_my_Map tb) item.

(** ** Filter calls *)

Inductive FilterCall : Type :=
  | CallFilter (nLengthSupTo : nat)
  | CallFilterPairWiseMinimumMatches (minMatchesOccurences : nat).

Definition run_filter (tb : TracksBuilder) (call : FilterCall) : TracksBuilder :=
  match call with
  | CallFilter n => (Filter n tb).2
  | CallFilterPairWiseMinimumMatches n => (FilterPairWiseMinimumMatches n tb).2
  end.

(** Filters are called one after the other on the same builder. *)
Definition run_filters (tb : TracksBuilder) (calls : list FilterCall) : TracksBuilder :=
  foldl run_filter tb calls.

(** * Notions of the specification *)

(** The matches of the input as pairs of node keys, in the order in which
    the loops of [Build] visit them: the first image goes with [trainIdx],
    the second one with [queryIdx]. *)
Definition edges (image_pairs : list ImagePair)
    : list (indexedFeaturePair * indexedFeaturePair) :=
  image_pairs ≫= λ image_pair,
    (λ match_, ((first image_pair, trainIdx match_),
                (second image_pair, queryIdx match_))) <$> get_matches image_pair.

(** The node keys referenced by the input. *)
Definition endpoints (image_pairs : list ImagePair) : list indexedFeaturePair :=
  edges image_pairs ≫= λ e, [e.1; e.2].

(** A path in the undirected graph whose edges are the matches. *)
Definition connected (E : list (indexedFeaturePair * indexedFeaturePair))
    : relation indexedFeaturePair :=
  rtsc (λ k1 k2, (k1, k2) ∈ E).

(** The [join] issued for one match. *)
Definition join_edge (my_Map : list (indexedFeaturePair * Node))
    (uf : UnionFindEnum.t) (e : indexedFeaturePair * indexedFeaturePair)
    : UnionFindEnum.t :=
  match flat_at pair_ltb my_Map e.1, flat_at pair_ltb my_Map e.2 with
  | Some a, Some b => UnionFindEnum.join uf a b
  | _, _ => uf
  end.

(** The images of the members of a class, in [ItemIt] order. *)
Definition class_images (tb : TracksBuilder) (c : nat * list Node) : list ImageId :=
  omap (image_of tb) c.2.

(** The erasure condition of the conflict filter: [L] is the cardinality
    of the class, [S] the set of the distinct images of its members. *)
Definition Filter_erases (minTrackLength : nat) (tb : TracksBuilder)
    (c : nat * list Node) : Prop :=
  let L := length c.2 in
  let S := remove_dups (class_images tb c) in
  length S ≠ L ∨ length S < minTrackLength.

(** [TracksByImage[I]]: the ids of the classes with a member in image [I]. *)
Definition TracksByImage (tb : TracksBuilder) (I : ImageId) : list nat :=
  (filter (λ c, I ∈ class_images tb c) (UnionFindEnum.classes (myTracksUF tb))).*1.

(** [shared = TracksByImage[I] ∩ TracksByImage[J]] *)
Definition shared (tb : TracksBuilder) (I J : ImageId) : list nat :=
  filter (λ t, t ∈ TracksByImage tb J) (TracksByImage tb I).

(** A track id is marked by the pairwise-support filter. *)
Definition marked (minOccurrences : nat) (tb : TracksBuilder) (t : nat) : Prop :=
  ∃ I J, I ≤ J ∧ t ∈ shared tb I J ∧ length (shared tb I J) < minOccurrences.

(** The sum of the lengths of the exported tracks. *)
Definition total_track_length (map_tracks : gmap nat (gmap nat Z)) : nat :=
  sum_list ((λ p, size p.2) <$> map_to_list map_tracks).

(** The inner mapping a class is exported to: every member in turn is
    resolved to its node key and writes its feature index at its image. *)
Definition track_of (tb : TracksBuilder) (members : list Node) : gmap nat Z :=
  foldl (λ track key, <[key.1 := key.2]> track) ∅ (omap (key_of tb) members).

(** No class has two members in one image, and every member resolves. *)
Definition conflict_free (tb : TracksBuilder) : Prop :=
  ∀ c, c ∈ UnionFindEnum.classes (myTracksUF tb) →
    length (class_images tb c) = length c.2 ∧ NoDup (class_images tb c).

(** ** Inputs of the scenarios of the specification *)

Definition imgA : ImageId := 0.
Definition imgB : ImageId := 1.
Definition imgC : ImageId := 2.
Definition imgD : ImageId := 3.

(** A match given as (train, query), the order the scenarios use. *)
Definition train_query (t q : Z) : IndMatch := mkIndMatch q t.

(** S3, the chain: (A,B):[(1,10)], (B,C):[(10,100)]. *)
Definition scenario_chain : list ImagePair :=
  [ mkImagePair imgA imgB [train_query 1 10];
    mkImagePair imgB imgC [train_query 10 100] ].

(** The chain with its first match asserted once more by a third pair. *)
Definition scenario_chain_repeated : list ImagePair :=
  scenario_chain ++ [ mkImagePair imgA imgB [train_query 1 10] ].

(** Two tracks, a chain over three images and a single match:
    (A,B):[(1,10),(2,20)], (B,C):[(10,100)]. *)
Definition scenario_two_tracks : list ImagePair :=
  [ mkImagePair imgA imgB [train_query 1 10; train_query 2 20];
    mkImagePair imgB imgC [train_query 10 100] ].

(** The same input with its last match asserted once more by a pair put in
    front of the sequence. *)
Definition scenario_two_tracks_repeated_first : list ImagePair :=
  mkImagePair imgB imgC [train_query 10 100] :: scenario_two_tracks.

(** One pair whose matches chain four features of two images:
    (A,B):[(1,10),(1,20),(2,20)]. *)
Definition scenario_zigzag : list ImagePair :=
  [ mkImagePair imgA imgB [train_query 1 10; train_query 1 20; train_query 2 20] ].

(** The same pair with its last match asserted once more at the head of
    its list. *)
Definition scenario_zigzag_repeated_first : list ImagePair :=
  [ mkImagePair imgA imgB
      [train_query 2 20; train_query 1 10; train_query 1 20; train_query 2 20] ].

(** S4, the conflict: (A,B):[(1,10)], (A,B):[(1,20)]. *)
Definition scenario_conflict : list ImagePair :=
  [ mkImagePair imgA imgB [train_query 1 10];
    mkImagePair imgA imgB [train_query 1 20] ].

(** S6, pairwise support: five tracks seen by (A,B), one seen by (C,D). *)
Definition scenario_support : list ImagePair :=
  [ mkImagePair imgA imgB
      [train_query 1 10; train_query 2 20; train_query 3 30;
       train_query 4 40; train_query 5 50];
    mkImagePair imgC imgD [train_query 1 1] ].

(** One match of an image with itself, on one and the same feature. *)
Definition self_match : list ImagePair :=
  [ mkImagePair imgA imgA [train_query 1 1] ].

(** One match of an image with itself, on two features. *)
Definition same_image_match : list ImagePair :=
  [ mkImagePair imgA imgA [train_query 1 2] ].

(** * The remaining operations of the builder *)

(** ** The text exporter *)




Section ExportToStream.
(** [Image::get_name()] is declared in image.h, which is not part of
    [src/]: the names of the images are a parameter. *)
Variable get_name : ImageId → string.









End ExportToStream.

(** ** Decidable notions *)

(** The erasure condition of [Filter] is a comparison of numbers. *)
Global Instance Filter_erases_decision k tb c : Decision (Filter_erases k tb c).
Proof. unfold Filter_erases. simpl. apply _. Defined.

(** ** One more input *)


(** ** Class lists up to order *)

(** Two class lists hold the same classes, whatever the order of the
    classes, their ids and the order of the members inside a class. *)
Definition same_classes (cs1 cs2 : list (nat * list Node)) : Prop :=
  ∃ cs, cs2 ≡ₚ cs ∧ Forall2 (λ c1 c2, c1.2 ≡ₚ c2.2) cs1 cs.
(** * Properties of the containers *)

Global Instance nat_ltb_order : StrictOrderB Nat.ltb.
Proof.
  split.
  - intros x. apply Nat.ltb_irrefl.
  - intros x y z ?%Nat.ltb_lt ?%Nat.ltb_lt. apply Nat.ltb_lt. lia.
  - intros x y ?%Nat.ltb_ge ?%Nat.ltb_ge. lia.
Qed.

Global Instance pair_ltb_order : StrictOrderB pair_ltb.
Proof.
  split.
  - intros [i f]. unfold pair_ltb; simpl.
    rewrite Nat.ltb_irrefl, Z.ltb_irrefl. reflexivity.
  - intros [i1 f1] [i2 f2] [i3 f3]. unfold pair_ltb; simpl. intros H1 H2.
    destruct (Nat.ltb_spec i1 i2), (Nat.ltb_spec i2 i1), (Nat.ltb_spec i2 i3),
      (Nat.ltb_spec i3 i2), (Nat.ltb_spec i1 i3), (Nat.ltb_spec i3 i1);
      simpl in *; try done; try lia;
      apply Z.ltb_lt in H1, H2; apply Z.ltb_lt; lia.
  - intros [i1 f1] [i2 f2]. unfold pair_ltb; simpl. intros H1 H2.
    destruct (Nat.ltb_spec i1 i2), (Nat.ltb_spec i2 i1);
      simpl in *; try done; try lia;
      apply Z.ltb_ge in H1, H2; f_equal; lia.
Qed.

Section ordered_facts.
Context {T : Type} (ltb : T → T → bool) `{!StrictOrderB ltb}.

Lemma ascending_NoDup s : ascending ltb s → NoDup s.
Proof.
  induction 1 as [|x s Hs IH Hx]; constructor; [|done].
  intros Hin. rewrite Forall_forall in Hx.
  specialize (Hx _ Hin). rewrite ltb_irrefl in Hx. done.
Qed.

Lemma elem_of_set_insert x y s : x ∈ set_insert ltb y s ↔ x = y ∨ x ∈ s.
Proof.
  induction s as [|z s IH]; simpl.
  - set_solver.
  - destruct (ltb z y) eqn:Hzy; [|destruct (ltb y z) eqn:Hyz].
    + rewrite !elem_of_cons, IH. naive_solver.
    + rewrite !elem_of_cons. naive_solver.
    + assert (z = y) as -> by (by apply ltb_total).
      rewrite !elem_of_cons. naive_solver.
Qed.

Lemma set_insert_ascending x s : ascending ltb s → ascending ltb (set_insert ltb x s).
Proof.
  induction 1 as [|z s Hs IH Hz]; simpl.
  - repeat constructor.
  - destruct (ltb z x) eqn:Hzx; [|destruct (ltb x z) eqn:Hxz].
    + constructor; [done|]. apply Forall_forall. intros w Hw.
      apply elem_of_set_insert in Hw as [->|Hw]; [done|].
      rewrite Forall_forall in Hz. by apply Hz.
    + constructor; [by constructor|]. constructor; [done|].
      eapply Forall_impl; [exact Hz|]. intros w Hw. simpl in Hw.
      eapply ltb_trans; eassumption.
    + by constructor.
Qed.

(** A whole loop of insertions builds the set of the inserted values. *)
Lemma set_of_list_spec (l s : list T) :
  ascending ltb s →
  ascending ltb (foldl (λ s x, set_insert ltb x s) s l) ∧
  ∀ x, x ∈ foldl (λ s x, set_insert ltb x s) s l ↔ x ∈ l ∨ x ∈ s.
Proof.
  revert s. induction l as [|y l IH]; intros s Hs; simpl.
  - split; [done|]. set_solver.
  - destruct (IH (set_insert ltb y s)) as [H1 H2].
    { by apply set_insert_ascending. }
    split; [done|]. intros x. rewrite H2, elem_of_set_insert, elem_of_cons.
    naive_solver.
Qed.

Lemma set_of_list_length `{!EqDecision T} (l : list T) :
  length (foldl (λ s x, set_insert ltb x s) [] l) = length (remove_dups l).
Proof.
  destruct (set_of_list_spec l []) as [H1 H2]; [constructor|].
  apply Permutation_length, NoDup_Permutation.
  - by apply ascending_NoDup.
  - apply NoDup_remove_dups.
  - intros x. rewrite H2, elem_of_remove_dups. set_solver.
Qed.

(** ** [lower_bound] on a vector sorted by key *)

Lemma flat_find_elem_of {V} (m : list (T * V)) k p :
  flat_find ltb m k = Some p → p ∈ m.
Proof.
  unfold flat_find. induction m as [|q m IH]; simpl; [done|].
  destruct (ltb q.1 k).
  - intros ?. right. by apply IH.
  - simpl. intros [= ->]. left.
Qed.

Lemma flat_find_sorted {V} (m : list (T * V)) k v :
  ascending ltb m.*1 → (k, v) ∈ m → flat_find ltb m k = Some (k, v).
Proof.
  unfold flat_find. induction m as [|q m IH]; simpl.
  - intros _ ?%elem_of_nil. done.
  - intros Hs Hin. inversion Hs as [|? ? Hs' Hq]; subst.
    apply elem_of_cons in Hin as [<-|Hin].
    + simpl. by rewrite ltb_irrefl.
    + assert (ltb q.1 k = true) as ->.
      { rewrite Forall_forall in Hq. apply Hq.
        apply list_elem_of_fmap. by exists (k, v). }
      by apply IH.
Qed.

Lemma flat_at_sorted {V} (m : list (T * V)) k v :
  ascending ltb m.*1 → (k, v) ∈ m → flat_at ltb m k = Some v.
Proof.
  intros Hs Hin. unfold flat_at. by rewrite (flat_find_sorted m k v).
Qed.

Lemma flat_sort_sorted {V} (m : list (T * V)) :
  ascending ltb m.*1 → flat_sort ltb m = m.
Proof.
  unfold flat_sort. induction m as [|q m IH]; simpl; [done|].
  intros Hs. inversion Hs as [|? ? Hs' Hq]; subst.
  rewrite IH by done. destruct m as [|r m]; simpl; [done|].
  apply Forall_cons in Hq as [-> _]. done.
Qed.

(** ** [set_intersection] *)

Lemma set_intersection_nil_r a : set_intersection ltb a [] = [].
Proof. by destruct a. Qed.

Lemma set_intersection_cons x a y b :
  set_intersection ltb (x :: a) (y :: b) =
    if ltb x y then set_intersection ltb a (y :: b)
    else if ltb y x then set_intersection ltb (x :: a) b
    else x :: set_intersection ltb a b.
Proof. reflexivity. Qed.

Lemma elem_of_set_intersection a b x :
  ascending ltb a → ascending ltb b →
  x ∈ set_intersection ltb a b ↔ x ∈ a ∧ x ∈ b.
Proof.
  intros Ha. revert b. induction Ha as [|y a Ha IHa Hy]; intros b Hb.
  { simpl. set_solver. }
  induction Hb as [|z b Hb IHb Hz].
  { rewrite set_intersection_nil_r. set_solver. }
  rewrite Forall_forall in Hy, Hz.
  rewrite set_intersection_cons.
  assert (Hirr : ∀ u v, ltb u v = true → ltb v u = true → False).
  { intros u v Huv Hvu. pose proof (ltb_trans _ _ _ Huv Hvu) as Hu.
    by rewrite ltb_irrefl in Hu. }
  destruct (ltb y z) eqn:Hyz; [|destruct (ltb z y) eqn:Hzy].
  - rewrite IHa by (by constructor; [|apply Forall_forall]).
    rewrite !elem_of_cons. split; [naive_solver|].
    intros [[Hx|Hx] [Hx'|Hx']]; auto; subst.
    + by rewrite ltb_irrefl in Hyz.
    + exfalso. apply (Hirr y z); auto.
  - rewrite IHb. rewrite !elem_of_cons. split; [naive_solver|].
    intros [[Hx|Hx] [Hx'|Hx']]; auto; subst.
    + by rewrite ltb_irrefl in Hzy.
    + exfalso. apply (Hirr y z); auto.
  - assert (y = z) as <- by (by apply ltb_total).
    rewrite !elem_of_cons, IHa by done. split; [naive_solver|].
    intros [[Hx|Hx] [Hx'|Hx']]; auto.
Qed.

Lemma set_intersection_ascending a b :
  ascending ltb a → ascending ltb b → ascending ltb (set_intersection ltb a b).
Proof.
  intros Ha. revert b. induction Ha as [|y a Ha IHa Hy]; intros b Hb.
  { constructor. }
  induction Hb as [|z b Hb IHb Hz].
  { rewrite set_intersection_nil_r. constructor. }
  rewrite set_intersection_cons.
  destruct (ltb y z) eqn:Hyz; [|destruct (ltb z y) eqn:Hzy].
  - apply IHa. by constructor.
  - apply IHb.
  - constructor; [by apply IHa|].
    apply Forall_forall. intros x Hx.
    apply elem_of_set_intersection in Hx as [Hx _]; [|done..].
    rewrite Forall_forall in Hy. by apply Hy.
Qed.

(** ** [std::sort] and [std::unique] keep the elements *)

Lemma elem_of_vec_sort_insert x y l : x ∈ vec_sort_insert ltb y l ↔ x = y ∨ x ∈ l.
Proof.
  induction l as [|z l IH]; simpl; [set_solver|].
  destruct (ltb y z); rewrite !elem_of_cons; [|rewrite IH]; naive_solver.
Qed.

Lemma elem_of_vec_sort x v : x ∈ vec_sort ltb v ↔ x ∈ v.
Proof.
  unfold vec_sort. induction v as [|y v IH]; simpl; [done|].
  rewrite elem_of_vec_sort_insert, IH, elem_of_cons. done.
Qed.

Lemma elem_of_vec_unique `{!EqDecision T} x (v : list T) : x ∈ vec_unique v ↔ x ∈ v.
Proof.
  induction v as [|y v IH]; [done|].
  destruct v as [|z v]; [done|].
  change (vec_unique (y :: z :: v))
    with (if decide (y = z) then vec_unique (z :: v) else y :: vec_unique (z :: v)).
  destruct (decide (y = z)) as [->|].
  - rewrite IH, !elem_of_cons. naive_solver.
  - rewrite elem_of_cons, IH, !elem_of_cons. naive_solver.
Qed.
End ordered_facts.

(** * Properties of the union-find model *)

Module UnionFindFacts.
Import UnionFindEnum.

Lemma same_sym cs x y : same cs x y → same cs y x.
Proof. intros (c & ? & ? & ?). by exists c. Qed.

Lemma NoDup_ids_eq (cs : list (nat * list Node)) c1 c2 :
  NoDup cs.*1 → c1 ∈ cs → c2 ∈ cs → c1.1 = c2.1 → c1 = c2.
Proof.
  induction cs as [|c cs IH]; csimpl; [by intros _ ?%elem_of_nil|].
  intros [Hc Hcs]%NoDup_cons [->|H1]%elem_of_cons [->|H2]%elem_of_cons Heq; auto.
  - destruct Hc. rewrite Heq. apply list_elem_of_fmap. by exists c2.
  - destruct Hc. rewrite <-Heq. apply list_elem_of_fmap. by exists c1.
Qed.

Lemma NoDup_ids_filter (P : nat * list Node → Prop) `{!∀ c, Decision (P c)} cs :
  NoDup cs.*1 → NoDup (filter P cs).*1.
Proof.
  induction cs as [|c cs IH]; csimpl; [done|].
  intros [Hc Hcs]%NoDup_cons. rewrite filter_cons.
  destruct (decide (P c)); csimpl; [|by apply IH].
  constructor; [|by apply IH].
  intros (c' & Heq & [_ ?]%list_elem_of_filter)%list_elem_of_fmap.
  apply Hc, list_elem_of_fmap. by exists c'.
Qed.

Lemma find_class_Some cs x c : find_class cs x = Some c → c ∈ cs ∧ x ∈ c.2.
Proof.
  induction cs as [|c' cs IH]; simpl; [done|].
  destruct (decide (x ∈ c'.2)).
  - intros [= ->]. split; [left|done].
  - intros [??]%IH. split; [by right|done].
Qed.

Lemma find_class_None cs x c : find_class cs x = None → c ∈ cs → x ∉ c.2.
Proof.
  induction cs as [|c' cs IH]; simpl; [by intros _ ?%elem_of_nil|].
  destruct (decide (x ∈ c'.2)); [done|].
  intros Hn [->|?]%elem_of_cons; auto.
Qed.

Lemma find_class_wf cs x c : wf cs → c ∈ cs → x ∈ c.2 → find_class cs x = Some c.
Proof.
  intros [_ Hdis] Hc Hx. destruct (find_class cs x) as [c'|] eqn:Hf.
  - apply find_class_Some in Hf as [??]. f_equal. by apply (Hdis c' c x).
  - by destruct (find_class_None _ _ _ Hf Hc).
Qed.

Lemma same_class_l cs c a x : wf cs → c ∈ cs → a ∈ c.2 → same cs x a ↔ x ∈ c.2.
Proof.
  intros [_ Hdis] Hc Ha. split.
  - intros (c' & Hc' & Hx & Ha'). by rewrite <-(Hdis c' c a).
  - intros Hx. by exists c.
Qed.

Lemma same_class_r cs c a y : wf cs → c ∈ cs → a ∈ c.2 → same cs a y ↔ y ∈ c.2.
Proof.
  intros Hwf Hc Ha. rewrite <-(same_class_l cs c a y) by done.
  split; apply same_sym.
Qed.

(** ** [absorb] *)

Lemma elem_of_absorb keep drop cs c :
  NoDup cs.*1 → keep ∈ cs → keep.1 ≠ drop.1 →
  c ∈ absorb keep drop cs ↔
    c = (keep.1, keep.2 ++ drop.2) ∨ (c ∈ cs ∧ c.1 ≠ keep.1 ∧ c.1 ≠ drop.1).
Proof.
  intros Hnd Hkeep Hne. unfold absorb. rewrite list_elem_of_fmap. split.
  - intros (c0 & -> & [Hd Hc0]%list_elem_of_filter).
    destruct (decide (c0.1 = keep.1)) as [Heq|Hneq].
    + left. by rewrite (NoDup_ids_eq cs c0 keep).
    + right. done.
  - intros [->|(Hc & Hk & Hd)].
    + exists keep. rewrite decide_True by done.
      split; [done|]. by apply list_elem_of_filter.
    + exists c. rewrite decide_False by done.
      split; [done|]. by apply list_elem_of_filter.
Qed.

Lemma absorb_ids keep drop cs :
  (absorb keep drop cs).*1 = (filter (λ c, c.1 ≠ drop.1) cs).*1.
Proof.
  unfold absorb. rewrite <-list_fmap_compose. apply list_fmap_ext.
  intros i c _. simpl. by destruct (decide _).
Qed.

Lemma wf_absorb keep drop cs :
  wf cs → keep ∈ cs → drop ∈ cs → keep.1 ≠ drop.1 → wf (absorb keep drop cs).
Proof.
  intros [Hnd Hdis] Hkeep Hdrop Hne. split.
  - rewrite absorb_ids. by apply NoDup_ids_filter.
  - intros c1 c2 x.
    rewrite !elem_of_absorb by done.
    intros [->|(H1 & H1k & H1d)] [->|(H2 & H2k & H2d)]; simpl; try done.
    + intros [Hx|Hx]%elem_of_app Hx2.
      * destruct H2k. by rewrite (Hdis c2 keep x).
      * destruct H2d. by rewrite (Hdis c2 drop x).
    + intros Hx1 [Hx|Hx]%elem_of_app.
      * destruct H1k. by rewrite (Hdis c1 keep x).
      * destruct H1d. by rewrite (Hdis c1 drop x).
    + by apply Hdis.
Qed.

Lemma same_absorb keep drop cs x y :
  wf cs → keep ∈ cs → drop ∈ cs → keep.1 ≠ drop.1 →
  same (absorb keep drop cs) x y ↔
    same cs x y ∨ (x ∈ keep.2 ∧ y ∈ drop.2) ∨ (x ∈ drop.2 ∧ y ∈ keep.2).
Proof.
  intros [Hnd Hdis] Hkeep Hdrop Hne. unfold same at 1.
  setoid_rewrite elem_of_absorb; [|done..]. split.
  - intros (c & [->|(Hc & _)] & Hx & Hy); simpl in *.
    + apply elem_of_app in Hx as [Hx|Hx], Hy as [Hy|Hy]; auto.
      * left. by exists keep.
      * left. by exists drop.
    + left. by exists c.
  - intros [(c & Hc & Hx & Hy)|[[Hx Hy]|[Hx Hy]]].
    + destruct (decide (c.1 = keep.1)) as [Hk|Hk];
        [|destruct (decide (c.1 = drop.1)) as [Hd|Hd]].
      * apply (NoDup_ids_eq cs) in Hk as ->; [|done..].
        exists (keep.1, keep.2 ++ drop.2). simpl. rewrite !elem_of_app. auto.
      * apply (NoDup_ids_eq cs) in Hd as ->; [|done..].
        exists (keep.1, keep.2 ++ drop.2). simpl. rewrite !elem_of_app. auto.
      * exists c. auto.
    + exists (keep.1, keep.2 ++ drop.2). simpl. rewrite !elem_of_app. auto.
    + exists (keep.1, keep.2 ++ drop.2). simpl. rewrite !elem_of_app. auto.
Qed.

(** ** [join] *)

Lemma wf_join uf a b : wf (classes uf) → wf (classes (join uf a b)).
Proof.
  intros Hwf. unfold join.
  destruct (find_class (classes uf) a) as [ca|] eqn:Ha; [|done].
  destruct (find_class (classes uf) b) as [cb|] eqn:Hb; [|done].
  apply find_class_Some in Ha as [Hca Ha], Hb as [Hcb Hb].
  destruct (decide (ca.1 = cb.1)); [done|].
  destruct (decide (length cb.2 < length ca.2)); simpl;
    apply wf_absorb; auto.
Qed.

Lemma same_join uf a b x y :
  wf (classes uf) →
  same (classes (join uf a b)) x y ↔
    same (classes uf) x y
    ∨ (same (classes uf) x a ∧ same (classes uf) b y)
    ∨ (same (classes uf) x b ∧ same (classes uf) a y).
Proof.
  intros Hwf. unfold join.
  destruct (find_class (classes uf) a) as [ca|] eqn:Ha.
  2:{ split; [auto|]. intros [?|[[(c & Hc & _ & Ha') _]|[_ (c & Hc & Ha' & _)]]];
        [done|by destruct (find_class_None _ _ _ Ha Hc)..]. }
  destruct (find_class (classes uf) b) as [cb|] eqn:Hb.
  2:{ split; [auto|]. intros [?|[[_ (c & Hc & Hb' & _)]|[(c & Hc & _ & Hb') _]]];
        [done|by destruct (find_class_None _ _ _ Hb Hc)..]. }
  apply find_class_Some in Ha as [Hca Ha], Hb as [Hcb Hb].
  rewrite (same_class_l _ ca a x), (same_class_r _ ca a y) by done.
  rewrite (same_class_l _ cb b x), (same_class_r _ cb b y) by done.
  destruct (decide (ca.1 = cb.1)) as [Heq|Hne].
  - apply (NoDup_ids_eq (classes uf)) in Heq as ->; [|apply Hwf|done..].
    split; [auto|]. intros [?|[[??]|[??]]]; [done|by exists cb..].
  - destruct (decide (length cb.2 < length ca.2)); simpl.
    + rewrite same_absorb by done. tauto.
    + rewrite same_absorb by auto. tauto.
Qed.

(** ** [insert] *)

Lemma insert_fold_spec (l : list Node) (uf : t) :
  NoDup l → (∀ x, x ∈ l → ¬ same (classes uf) x x) →
  wf (classes uf) → fresh_next uf →
  wf (classes (foldl insert uf l)) ∧ fresh_next (foldl insert uf l) ∧
  ∀ x y, same (classes (foldl insert uf l)) x y ↔
           same (classes uf) x y ∨ (x = y ∧ x ∈ l).
Proof.
  revert uf. induction l as [|z l IH]; intros uf Hl Hfr Hwf Hnext; simpl.
  { split; [done|]. split; [done|]. intros x y. set_solver. }
  apply NoDup_cons in Hl as [Hz Hl].
  assert (Hsame : ∀ x y, same (classes (insert uf z)) x y ↔
                           same (classes uf) x y ∨ (x = z ∧ y = z)).
  { intros x y. unfold same, insert; simpl. setoid_rewrite elem_of_cons. split.
    - intros (c & [->|Hc] & Hx & Hy); simpl in *.
      + right. set_solver.
      + left. by exists c.
    - intros [(c & ? & ? & ?)|[-> ->]].
      + exists c. auto.
      + exists (nextClass uf, [z]). simpl. set_solver. }
  destruct (IH (insert uf z)) as (IH1 & IH2 & IH3); [done| | | |].
  - intros x Hx. rewrite Hsame. intros [?|[-> _]]; [|done].
    apply (Hfr x); [by right|done].
  - destruct Hwf as [Hnd Hdis]. split.
    + unfold insert; csimpl. constructor; [|done].
      intros (c & Hc1 & Hc)%list_elem_of_fmap. apply Hnext in Hc. lia.
    + intros c1 c2 x. unfold insert; simpl.
      intros [->|H1]%elem_of_cons [->|H2]%elem_of_cons; simpl; try done.
      * intros ->%list_elem_of_singleton Hx. destruct (Hfr z); [left|by exists c2].
      * intros Hx ->%list_elem_of_singleton. destruct (Hfr z); [left|by exists c1].
      * by apply Hdis.
  - intros c. unfold insert; simpl. intros [->|Hc]%elem_of_cons; simpl; [lia|].
    apply Hnext in Hc. lia.
  - split; [done|]. split; [done|].
    intros x y. rewrite IH3, Hsame, elem_of_cons. naive_solver.
Qed.

(** ** [eraseClass] *)

Lemma eraseClass_fold (ids : list nat) (uf : t) :
  classes (foldl eraseClass uf ids) = filter (λ c, c.1 ∉ ids) (classes uf) ∧
  nextClass (foldl eraseClass uf ids) = nextClass uf.
Proof.
  revert uf. induction ids as [|i ids IH]; intros uf; simpl.
  - split; [|done]. induction (classes uf) as [|c cs IHc]; [done|].
    rewrite filter_cons, decide_True by set_solver. by f_equal.
  - destruct (IH (eraseClass uf i)) as [-> ->]. split; [|done]. simpl.
    rewrite list_filter_filter. apply list_filter_iff. set_solver.
Qed.
End UnionFindFacts.

(** * Properties of [Build] *)

Section connected_facts.
Implicit Types (E : list (indexedFeaturePair * indexedFeaturePair)).

Lemma connected_edge E a b : (a, b) ∈ E → connected E a b.
Proof. intros H. by apply rtsc_lr. Qed.

Lemma connected_mono E E' x y :
  (∀ e, e ∈ E → e ∈ E') → connected E x y → connected E' x y.
Proof.
  intros Hsub. unfold connected, rtsc.
  apply rtc_subrel. intros a b [?|?]; [left|right]; auto.
Qed.

Lemma connected_nil x y : connected [] x y ↔ x = y.
Proof.
  split; [|by intros ->].
  intros H. destruct H as [|x z y [Hxz|Hxz] _]; [done|..];
    by apply elem_of_nil in Hxz.
Qed.

(** One more edge merges the components of its two ends. *)
Lemma connected_snoc E a b x y :
  connected (E ++ [(a, b)]) x y ↔
    connected E x y
    ∨ (connected E x a ∧ connected E b y)
    ∨ (connected E x b ∧ connected E a y).
Proof.
  assert (Hmono : ∀ u v, connected E u v → connected (E ++ [(a, b)]) u v).
  { intros u v. apply connected_mono. intros e ?. apply elem_of_app. auto. }
  assert (Hab : connected (E ++ [(a, b)]) a b).
  { apply connected_edge, elem_of_app. right. left. }
  split.
  - intros H. induction H as [x|x z y Hxz Hzy IH]; [by left|].
    assert (Hstep : connected E x z ∨ (x = a ∧ z = b) ∨ (x = b ∧ z = a)).
    { destruct Hxz as [Hxz|Hxz];
        apply elem_of_app in Hxz as [Hxz|Hxz%list_elem_of_singleton].
      - left. by apply rtsc_lr.
      - right. left. by inversion Hxz.
      - left. by apply rtsc_rl.
      - right. right. by inversion Hxz. }
    destruct Hstep as [Hxz'|[[-> ->]|[-> ->]]].
    + destruct IH as [IH|[[IH1 IH2]|[IH1 IH2]]].
      * left. by etrans.
      * right. left. split; [by etrans|done].
      * right. right. split; [by etrans|done].
    + destruct IH as [IH|[[IH1 IH2]|[IH1 IH2]]].
      * right. left. done.
      * right. left. done.
      * left. done.
    + destruct IH as [IH|[[IH1 IH2]|[IH1 IH2]]].
      * right. right. done.
      * left. done.
      * right. right. done.
  - intros [H|[[H1 H2]|[H1 H2]]].
    + by apply Hmono.
    + etrans; [by apply Hmono|]. etrans; [exact Hab|]. by apply Hmono.
    + etrans; [by apply Hmono|]. etrans; [symmetry; exact Hab|]. by apply Hmono.
Qed.
End connected_facts.

Lemma elem_of_endpoints image_pairs k :
  k ∈ endpoints image_pairs ↔ ∃ e, e ∈ edges image_pairs ∧ (k = e.1 ∨ k = e.2).
Proof.
  unfold endpoints. rewrite list_elem_of_bind.
  split; intros (e & H1 & H2); exists e; set_solver.
Qed.

Lemma elem_of_edges image_pairs e :
  e ∈ edges image_pairs ↔
    ∃ image_pair match_, image_pair ∈ image_pairs ∧ match_ ∈ get_matches image_pair ∧
      e = ((first image_pair, trainIdx match_), (second image_pair, queryIdx match_)).
Proof.
  unfold edges. rewrite list_elem_of_bind. setoid_rewrite list_elem_of_fmap.
  naive_solver.
Qed.

(** The three loops of [Build] only depend on the sequence of matches. *)
Lemma Build_collect_from image_pairs (s : list indexedFeaturePair) :
  foldl (λ myset image_pair,
    foldl (λ myset match_,
      set_insert pair_ltb (second image_pair, queryIdx match_)
        (set_insert pair_ltb (first image_pair, trainIdx match_) myset))
      myset (get_matches image_pair))
    s image_pairs =
  foldl (λ s x, set_insert pair_ltb x s) s (endpoints image_pairs).
Proof.
  unfold endpoints, edges. revert s.
  induction image_pairs as [|ip ips IH]; intros s; simpl; [done|].
  rewrite IH, !bind_app, foldl_app. f_equal.
  clear IH. revert s. induction (get_matches ip) as [|m ms IHm]; intros s; csimpl; [done|].
  by rewrite IHm.
Qed.

Lemma Build_collect_eq image_pairs :
  Build_collect image_pairs =
    foldl (λ s x, set_insert pair_ltb x s) [] (endpoints image_pairs).
Proof. apply Build_collect_from. Qed.

Lemma Build_unions_eq my_Map uf image_pairs :
  Build_unions my_Map uf image_pairs = foldl (join_edge my_Map) uf (edges image_pairs).
Proof.
  unfold Build_unions, edges. revert uf.
  induction image_pairs as [|ip ips IH]; intros uf; simpl; [done|].
  rewrite IH, foldl_app, foldl_fmap. done.
Qed.

Lemma Build_nodes_from (myset : list indexedFeaturePair) g0 mm rev0 :
  foldl (λ '(g, my_Map, rev_Map) set_entry,
    let '(node, g') := addNode g in
    (g', my_Map ++ [(set_entry, node)], rev_Map ++ [(node, set_entry)]))
    (g0, mm, rev0) myset =
  (g0 + length myset, mm ++ zip myset (seq g0 (length myset)),
   rev0 ++ zip (seq g0 (length myset)) myset).
Proof.
  revert g0 mm rev0. induction myset as [|k ks IH]; intros g0 mm rev0; simpl.
  - by rewrite Nat.add_0_r, !app_nil_r.
  - rewrite IH, <-!app_assoc. simpl. do 2 f_equal. lia.
Qed.

Lemma Build_nodes_eq g0 rev0 myset :
  Build_nodes g0 rev0 myset =
    (g0 + length myset, zip myset (seq g0 (length myset)),
     rev0 ++ zip (seq g0 (length myset)) myset).
Proof. apply Build_nodes_from. Qed.

Lemma Build_collect_ascending image_pairs : ascending pair_ltb (Build_collect image_pairs).
Proof.
  rewrite Build_collect_eq.
  apply (set_of_list_spec pair_ltb). constructor.
Qed.

Lemma elem_of_Build_collect image_pairs k :
  k ∈ Build_collect image_pairs ↔ k ∈ endpoints image_pairs.
Proof.
  rewrite Build_collect_eq.
  destruct (set_of_list_spec pair_ltb (endpoints image_pairs) []) as [_ ->];
    [constructor|]. set_solver.
Qed.

Lemma seq_ascending j n : ascending Nat.ltb (seq j n).
Proof.
  revert j. induction n as [|n IH]; intros j; simpl; constructor; [apply IH|].
  apply Forall_forall. intros x [??]%elem_of_seq. apply Nat.ltb_lt. lia.
Qed.

Lemma Build_my_Map_new image_pairs :
  Build_my_Map new_TracksBuilder image_pairs =
    zip (Build_collect image_pairs) (seq 0 (length (Build_collect image_pairs))).
Proof.
  unfold Build_my_Map. rewrite Build_nodes_eq. simpl.
  apply (flat_sort_sorted pair_ltb).
  rewrite fst_zip by (by rewrite length_seq).
  apply Build_collect_ascending.
Qed.

Lemma Build_new image_pairs :
  Build new_TracksBuilder image_pairs =
    (true,
     mkTracksBuilder (length (Build_collect image_pairs))
       (zip (seq 0 (length (Build_collect image_pairs))) (Build_collect image_pairs))
       (foldl (join_edge (Build_my_Map new_TracksBuilder image_pairs))
          (foldl UnionFindEnum.insert UnionFindEnum.empty
             (NodeIt (length (Build_collect image_pairs))))
          (edges image_pairs))).
Proof.
  rewrite Build_my_Map_new.
  unfold Build. rewrite Build_nodes_eq. simpl.
  rewrite Build_unions_eq.
  rewrite (flat_sort_sorted pair_ltb), (flat_sort_sorted Nat.ltb); [done|..].
  - rewrite fst_zip by (by rewrite length_seq). apply seq_ascending.
  - rewrite fst_zip by (by rewrite length_seq). apply Build_collect_ascending.
Qed.

(** Node ids and node keys are in bijection: the node of the [i]-th key
    of the ordered set is [i]. *)
Lemma Build_lookup image_pairs i k :
  Build_collect image_pairs !! i = Some k →
  flat_at pair_ltb (Build_my_Map new_TracksBuilder image_pairs) k = Some i ∧
  key_of (Build new_TracksBuilder image_pairs).2 i = Some k.
Proof.
  intros Hi. rewrite Build_new, Build_my_Map_new. unfold key_of. simpl.
  pose proof (lookup_lt_Some _ _ _ Hi) as Hlt.
  split.
  - apply (flat_at_sorted pair_ltb).
    + rewrite fst_zip by (by rewrite length_seq). apply Build_collect_ascending.
    + apply list_elem_of_lookup. exists i. apply lookup_zip_with_Some.
      exists k, i. split; [done|]. split; [done|]. by apply lookup_seq.
  - apply (flat_at_sorted Nat.ltb).
    + rewrite fst_zip by (by rewrite length_seq). apply seq_ascending.
    + apply list_elem_of_lookup. exists i. apply lookup_zip_with_Some.
      exists i, k. split; [done|]. split; [|done]. by apply lookup_seq.
Qed.

Lemma NodeIt_classes n :
  UnionFindEnum.wf (UnionFindEnum.classes
    (foldl UnionFindEnum.insert UnionFindEnum.empty (NodeIt n))) ∧
  ∀ x y, UnionFindEnum.same (UnionFindEnum.classes
           (foldl UnionFindEnum.insert UnionFindEnum.empty (NodeIt n))) x y ↔
         x = y ∧ x < n.
Proof.
  destruct (UnionFindFacts.insert_fold_spec (NodeIt n) UnionFindEnum.empty)
    as (Hwf & _ & Hsame).
  - unfold NodeIt. rewrite reverse_Permutation. apply NoDup_seq.
  - intros x _ (c & Hc & _). by apply elem_of_nil in Hc.
  - split; [constructor|]. intros c1 c2 x Hc. by apply elem_of_nil in Hc.
  - intros c Hc. by apply elem_of_nil in Hc.
  - split; [done|]. intros x y. rewrite Hsame. unfold NodeIt.
    rewrite elem_of_reverse, elem_of_seq. split.
    + intros [(c & Hc & _)|[-> ?]]; [by apply elem_of_nil in Hc|]. split; [done|lia].
    + intros [-> ?]. right. split; [done|lia].
Qed.

(** The invariant of the union loop: after the matches [l], two nodes lie
    in one class iff [l] connects their keys. *)
Lemma Build_unions_spec image_pairs l :
  (∀ e, e ∈ l → e ∈ edges image_pairs) →
  UnionFindEnum.wf (UnionFindEnum.classes
    (foldl (join_edge (Build_my_Map new_TracksBuilder image_pairs))
       (foldl UnionFindEnum.insert UnionFindEnum.empty
          (NodeIt (length (Build_collect image_pairs)))) l)) ∧
  ∀ i1 i2 k1 k2,
    Build_collect image_pairs !! i1 = Some k1 →
    Build_collect image_pairs !! i2 = Some k2 →
    UnionFindEnum.same (UnionFindEnum.classes
      (foldl (join_edge (Build_my_Map new_TracksBuilder image_pairs))
         (foldl UnionFindEnum.insert UnionFindEnum.empty
            (NodeIt (length (Build_collect image_pairs)))) l)) i1 i2
    ↔ connected l k1 k2.
Proof.
  induction l as [|e l IH] using rev_ind; intros Hl.
  - simpl. destruct (NodeIt_classes (length (Build_collect image_pairs))) as [Hwf Hsame].
    split; [done|]. intros i1 i2 k1 k2 H1 H2.
    rewrite Hsame, connected_nil. split.
    + intros [-> _]. congruence.
    + intros ->. split; [|by eapply lookup_lt_Some].
      eapply NoDup_lookup; [|done..].
      apply (ascending_NoDup pair_ltb), Build_collect_ascending.
  - rewrite foldl_snoc.
    destruct IH as [Hwf IH]; [intros e' ?; apply Hl, elem_of_app; auto|].
    destruct e as [ka kb].
    assert (Hka : ka ∈ Build_collect image_pairs).
    { apply elem_of_Build_collect, elem_of_endpoints. exists (ka, kb).
      split; [|by left]. apply Hl, elem_of_app. right. left. }
    assert (Hkb : kb ∈ Build_collect image_pairs).
    { apply elem_of_Build_collect, elem_of_endpoints. exists (ka, kb).
      split; [|by right]. apply Hl, elem_of_app. right. left. }
    apply list_elem_of_lookup in Hka as [ia Hia], Hkb as [ib Hib].
    destruct (Build_lookup _ _ _ Hia) as [Ha _], (Build_lookup _ _ _ Hib) as [Hb _].
    unfold join_edge at 1 3. simpl. rewrite Ha, Hb.
    split; [by apply UnionFindFacts.wf_join|].
    intros i1 i2 k1 k2 H1 H2.
    rewrite UnionFindFacts.same_join by done.
    rewrite (IH i1 i2 k1 k2), (IH i1 ia k1 ka), (IH ib i2 kb k2),
      (IH i1 ib k1 kb), (IH ia i2 ka k2) by done.
    by rewrite connected_snoc.
Qed.

Lemma Build_classes_spec image_pairs :
  UnionFindEnum.wf
    (UnionFindEnum.classes (myTracksUF (Build new_TracksBuilder image_pairs).2)) ∧
  ∀ i1 i2 k1 k2,
    Build_collect image_pairs !! i1 = Some k1 →
    Build_collect image_pairs !! i2 = Some k2 →
    UnionFindEnum.same
      (UnionFindEnum.classes (myTracksUF (Build new_TracksBuilder image_pairs).2)) i1 i2
    ↔ connected (edges image_pairs) k1 k2.
Proof. rewrite Build_new. simpl. by apply Build_unions_spec. Qed.

Lemma find_same uf x y :
  UnionFindEnum.wf (UnionFindEnum.classes uf) →
  UnionFindEnum.same (UnionFindEnum.classes uf) x x →
  UnionFindEnum.same (UnionFindEnum.classes uf) y y →
  ∃ c1 c2,
    UnionFindEnum.find uf x = Some c1 ∧ UnionFindEnum.find uf y = Some c2 ∧
    (c1 = c2 ↔ UnionFindEnum.same (UnionFindEnum.classes uf) x y).
Proof.
  intros Hwf (cx & Hcx & Hx & _) (cy & Hcy & Hy & _).
  exists cx.1, cy.1. unfold UnionFindEnum.find.
  rewrite (UnionFindFacts.find_class_wf _ x cx), (UnionFindFacts.find_class_wf _ y cy)
    by done.
  split; [done|]. split; [done|]. split.
  - intros Heq. apply (UnionFindFacts.NoDup_ids_eq (UnionFindEnum.classes uf)) in Heq;
      [|apply Hwf|done..]. subst cy. by exists cx.
  - intros (c & Hc & Hx' & Hy'). destruct Hwf as [_ Hdis].
    by rewrite (Hdis cx c x), (Hdis cy c y).
Qed.

(** A registered key: its node, found in both maps and live in the union-find. *)
Lemma Build_registered image_pairs k :
  k ∈ endpoints image_pairs →
  ∃ i, Build_collect image_pairs !! i = Some k ∧
       flat_at pair_ltb (Build_my_Map new_TracksBuilder image_pairs) k = Some i ∧
       key_of (Build new_TracksBuilder image_pairs).2 i = Some k ∧
       UnionFindEnum.same
         (UnionFindEnum.classes (myTracksUF (Build new_TracksBuilder image_pairs).2)) i i.
Proof.
  intros Hk%elem_of_Build_collect. apply list_elem_of_lookup in Hk as [i Hi].
  exists i. destruct (Build_lookup _ _ _ Hi) as [H1 H2].
  split; [done|]. split; [done|]. split; [done|].
  destruct (Build_classes_spec image_pairs) as [_ Hconn].
  by apply (Hconn i i k k).
Qed.

(** C1. After [Build], the node ids of two interned node keys lie in the
    same class of the union-find if and only if the undirected graph of the
    input matches has a path between the two keys. *)
Theorem Build_transitive_closure image_pairs k1 k2 :
  k1 ∈ endpoints image_pairs → k2 ∈ endpoints image_pairs →
  ∃ n1 n2 c1 c2,
    flat_at pair_ltb (Build_my_Map new_TracksBuilder image_pairs) k1 = Some n1 ∧
    flat_at pair_ltb (Build_my_Map new_TracksBuilder image_pairs) k2 = Some n2 ∧
    key_of (Build new_TracksBuilder image_pairs).2 n1 = Some k1 ∧
    key_of (Build new_TracksBuilder image_pairs).2 n2 = Some k2 ∧
    UnionFindEnum.find (myTracksUF (Build new_TracksBuilder image_pairs).2) n1 = Some c1 ∧
    UnionFindEnum.find (myTracksUF (Build new_TracksBuilder image_pairs).2) n2 = Some c2 ∧
    (c1 = c2 ↔ connected (edges image_pairs) k1 k2).
Proof.
  intros (n1 & Hn1 & Hm1 & Hr1 & Hs1)%Build_registered
         (n2 & Hn2 & Hm2 & Hr2 & Hs2)%Build_registered.
  destruct (Build_classes_spec image_pairs) as [Hwf Hconn].
  destruct (find_same _ n1 n2 Hwf Hs1 Hs2) as (c1 & c2 & Hf1 & Hf2 & Hc).
  exists n1, n2, c1, c2. repeat (split; [done|]).
  by rewrite Hc, (Hconn n1 n2 k1 k2).
Qed.

(** C9. For every image pair and every match it carries, [Build] registers
    the node keys (first image, trainIdx) and (second image, queryIdx) and
    unites their nodes: the lookups of the union pass find the nodes the
    interning pass created for these very keys, and both nodes end in one
    class. *)
Theorem Build_unites_match image_pairs image_pair match_ :
  image_pair ∈ image_pairs → match_ ∈ get_matches image_pair →
  ∃ a b c,
    flat_at pair_ltb (Build_my_Map new_TracksBuilder image_pairs)
      (first image_pair, trainIdx match_) = Some a ∧
    flat_at pair_ltb (Build_my_Map new_TracksBuilder image_pairs)
      (second image_pair, queryIdx match_) = Some b ∧
    key_of (Build new_TracksBuilder image_pairs).2 a = Some (first image_pair, trainIdx match_) ∧
    key_of (Build new_TracksBuilder image_pairs).2 b = Some (second image_pair, queryIdx match_) ∧
    UnionFindEnum.find (myTracksUF (Build new_TracksBuilder image_pairs).2) a = Some c ∧
    UnionFindEnum.find (myTracksUF (Build new_TracksBuilder image_pairs).2) b = Some c.
Proof.
  intros Hip Hm.
  assert (He : ((first image_pair, trainIdx match_),
                (second image_pair, queryIdx match_)) ∈ edges image_pairs).
  { apply elem_of_edges. by exists image_pair, match_. }
  destruct (Build_registered image_pairs (first image_pair, trainIdx match_))
    as (a & Ha & Hma & Hra & Hsa).
  { apply elem_of_endpoints. eexists. split; [exact He|by left]. }
  destruct (Build_registered image_pairs (second image_pair, queryIdx match_))
    as (b & Hb & Hmb & Hrb & Hsb).
  { apply elem_of_endpoints. eexists. split; [exact He|by right]. }
  destruct (Build_classes_spec image_pairs) as [Hwf Hconn].
  destruct (find_same _ a b Hwf Hsa Hsb) as (c1 & c2 & Hf1 & Hf2 & Hc).
  assert (c1 = c2) as <-.
  { apply Hc, (Hconn a b _ _ Ha Hb). by apply connected_edge. }
  by exists a, b, c1.
Qed.

(** ** Duplicated matches *)

Section ordered_set_idempotent.
Context {T : Type} (ltb : T → T → bool) `{!StrictOrderB ltb}.

Lemma set_insert_elem_of x s : ascending ltb s → x ∈ s → set_insert ltb x s = s.
Proof.
  induction 1 as [|y s Hs IH Hy]; simpl; [by intros ?%elem_of_nil|].
  intros [->|Hx]%elem_of_cons.
  - by rewrite ltb_irrefl.
  - rewrite Forall_forall in Hy. rewrite (Hy x Hx). f_equal. by apply IH.
Qed.
End ordered_set_idempotent.

Lemma join_same_class uf a b :
  UnionFindEnum.wf (UnionFindEnum.classes uf) →
  UnionFindEnum.same (UnionFindEnum.classes uf) a b →
  UnionFindEnum.join uf a b = uf.
Proof.
  intros Hwf (c & Hc & Ha & Hb). unfold UnionFindEnum.join.
  rewrite (UnionFindFacts.find_class_wf _ a c), (UnionFindFacts.find_class_wf _ b c)
    by done.
  by rewrite decide_True.
Qed.

Lemma endpoints_from_edges (E : list (indexedFeaturePair * indexedFeaturePair))
    (s : list indexedFeaturePair) :
  foldl (λ s x, set_insert pair_ltb x s) s (E ≫= λ e, [e.1; e.2]) =
  foldl (λ s e, set_insert pair_ltb e.2 (set_insert pair_ltb e.1 s)) s E.
Proof.
  revert s. induction E as [|e E IH]; intros s; csimpl; [done|]. by rewrite IH.
Qed.

Lemma Build_collect_edges image_pairs :
  Build_collect image_pairs =
    foldl (λ s e, set_insert pair_ltb e.2 (set_insert pair_ltb e.1 s)) [] (edges image_pairs).
Proof. rewrite Build_collect_eq. apply endpoints_from_edges. Qed.

Lemma collect_edges_spec (E : list (indexedFeaturePair * indexedFeaturePair)) s :
  ascending pair_ltb s →
  ascending pair_ltb
    (foldl (λ s e, set_insert pair_ltb e.2 (set_insert pair_ltb e.1 s)) s E) ∧
  ∀ e, e ∈ E →
    e.1 ∈ foldl (λ s e, set_insert pair_ltb e.2 (set_insert pair_ltb e.1 s)) s E ∧
    e.2 ∈ foldl (λ s e, set_insert pair_ltb e.2 (set_insert pair_ltb e.1 s)) s E.
Proof.
  rewrite <-endpoints_from_edges. intros Hs.
  destruct (set_of_list_spec pair_ltb (E ≫= λ e, [e.1; e.2]) s Hs) as [H1 H2].
  split; [done|]. intros e He. rewrite !H2, !list_elem_of_bind.
  split; left; exists e; set_solver.
Qed.

(** A match that is asserted once more, later in the sequence, changes
    nothing in the state [Build] leaves. *)
Lemma Build_duplicate_edge image_pairs image_pairs' E e E' :
  e ∈ E →
  edges image_pairs = E ++ E' →
  edges image_pairs' = E ++ e :: E' →
  Build new_TracksBuilder image_pairs' = Build new_TracksBuilder image_pairs.
Proof.
  intros HeE HE HE'.
  assert (HK : Build_collect image_pairs' = Build_collect image_pairs).
  { rewrite !Build_collect_edges, HE, HE', !foldl_app. simpl. f_equal.
    destruct (collect_edges_spec E []) as [Hasc Hin]; [constructor|].
    destruct (Hin e) as [He1 He2]; [done|].
    rewrite (set_insert_elem_of pair_ltb e.1) by done.
    by rewrite (set_insert_elem_of pair_ltb e.2) by done. }
  assert (HM : Build_my_Map new_TracksBuilder image_pairs' =
               Build_my_Map new_TracksBuilder image_pairs).
  { by rewrite !Build_my_Map_new, HK. }
  rewrite !Build_new, HM, HK. do 2 f_equal. rewrite HE, HE', !foldl_app. simpl. f_equal.
  destruct (Build_unions_spec image_pairs E) as [Hwf Hconn].
  { intros e' He'. rewrite HE. set_solver. }
  assert (He : e ∈ edges image_pairs) by (rewrite HE; set_solver).
  destruct e as [ka kb].
  destruct (Build_registered image_pairs ka) as (ia & Hia & Ha & _).
  { apply elem_of_endpoints. exists (ka, kb). auto. }
  destruct (Build_registered image_pairs kb) as (ib & Hib & Hb & _).
  { apply elem_of_endpoints. exists (ka, kb). auto. }
  unfold join_edge at 1. simpl. rewrite Ha, Hb.
  apply join_same_class; [done|].
  by apply (Hconn ia ib ka kb Hia Hib), connected_edge.
Qed.

Lemma edges_app P1 P2 : edges (P1 ++ P2) = edges P1 ++ edges P2.
Proof. unfold edges. apply bind_app. Qed.

Lemma edges_cons ip P :
  edges (ip :: P) =
    ((λ match_, ((first ip, trainIdx match_), (second ip, queryIdx match_)))
       <$> get_matches ip) ++ edges P.
Proof. reflexivity. Qed.

(** The duplicate sits further down the match list of its image pair. *)
Lemma duplicate_match_in_pair P1 img1 img2 M1 m M2 M3 P2 :
  Build new_TracksBuilder
    (P1 ++ mkImagePair img1 img2 (M1 ++ m :: M2 ++ m :: M3) :: P2) =
  Build new_TracksBuilder
    (P1 ++ mkImagePair img1 img2 (M1 ++ m :: M2 ++ M3) :: P2).
Proof.
  set (f := λ match_, ((img1, trainIdx match_), (img2, queryIdx match_))).
  apply (Build_duplicate_edge _ _ (edges P1 ++ (f <$> M1) ++ f m :: (f <$> M2)) (f m)
           ((f <$> M3) ++ edges P2)).
  - set_solver.
  - rewrite edges_app, edges_cons. simpl. fold f.
    rewrite !fmap_app, !fmap_cons, !fmap_app, <-!app_assoc. simpl.
    by rewrite <-!app_assoc.
  - rewrite edges_app, edges_cons. simpl. fold f.
    rewrite !fmap_app, !fmap_cons, !fmap_app, !fmap_cons, <-!app_assoc. simpl.
    by rewrite <-!app_assoc.
Qed.

(** The duplicate is carried by one more image pair, further down the input. *)
Lemma duplicate_match_in_later_pair P1 img1 img2 M1 m M2 P2 P3 :
  Build new_TracksBuilder
    (P1 ++ mkImagePair img1 img2 (M1 ++ m :: M2) :: P2 ++ mkImagePair img1 img2 [m] :: P3) =
  Build new_TracksBuilder
    (P1 ++ mkImagePair img1 img2 (M1 ++ m :: M2) :: P2 ++ P3).
Proof.
  set (f := λ match_, ((img1, trainIdx match_), (img2, queryIdx match_))).
  apply (Build_duplicate_edge _ _
           (edges P1 ++ (f <$> M1) ++ f m :: (f <$> M2) ++ edges P2) (f m) (edges P3)).
  - set_solver.
  - rewrite edges_app, edges_cons, edges_app. simpl. fold f.
    rewrite !fmap_app, !fmap_cons, <-!app_assoc. simpl.
    by rewrite <-!app_assoc.
  - rewrite edges_app, edges_cons, edges_app, edges_cons. simpl. fold f.
    rewrite !fmap_app, !fmap_cons, <-!app_assoc. simpl.
    by rewrite <-!app_assoc.
Qed.

(** C7, as the code has it. A match that is asserted once more at or after
    a place where it already stands leaves the final [TrackMap] unchanged:
    when the sequence of matches of [duplicated] is the one of
    [image_pairs] with one of its matches [e] put in once more behind an
    occurrence of [e] (further down the list of its pair, or in a pair
    further down the input), [Build] leaves the same builder state, and so
    any sequence of filter calls followed by [ExportToSTL] produces the
    same map.  A copy put in before the first occurrence is not covered:
    it changes the order of the unions. *)
Theorem duplicate_match_idempotent image_pairs duplicated E e E' calls out :
  e ∈ E →
  edges image_pairs = E ++ E' →
  edges duplicated = E ++ e :: E' →
  Build new_TracksBuilder duplicated = Build new_TracksBuilder image_pairs ∧
  ExportToSTL (run_filters (Build new_TracksBuilder duplicated).2 calls) out =
  ExportToSTL (run_filters (Build new_TracksBuilder image_pairs).2 calls) out.
Proof.
  intros He HE HE'.
  assert (Build new_TracksBuilder duplicated = Build new_TracksBuilder image_pairs) as ->;
    [|done].
  by apply (Build_duplicate_edge _ _ E e E').
Qed.

(** * Properties of [Filter] *)

Lemma remove_dups_length_le `{EqDecision A} (l : list A) :
  length (remove_dups l) ≤ length l.
Proof.
  induction l as [|x l IH]; simpl; [done|].
  destruct (decide_rel _ x l); simpl; lia.
Qed.

Lemma remove_dups_length_NoDup `{EqDecision A} (l : list A) :
  length (remove_dups l) = length l ↔ NoDup l.
Proof.
  induction l as [|x l IH]; simpl.
  - split; [constructor|done].
  - rewrite NoDup_cons. pose proof (remove_dups_length_le l).
    destruct (decide_rel _ x l); simpl.
    + split; [lia|]. by intros [? _].
    + rewrite <-IH. split; [intros [= ?]; done|intros [_ ->]; done].
Qed.

Lemma omap_length_le {A B} (f : A → option B) (l : list A) :
  length (omap f l) ≤ length l.
Proof. induction l as [|x l IH]; csimpl; [done|]. destruct (f x); simpl; lia. Qed.

Lemma Filter_scan_from tb members cpt (myset : list ImageId) :
  foldl (λ '(cpt, myset) iit,
    (S cpt, match image_of tb iit with
            | Some img => set_insert Nat.ltb img myset
            | None => myset
            end))
    (cpt, myset) members =
  (cpt + length members,
   foldl (λ s x, set_insert Nat.ltb x s) myset (omap (image_of tb) members)).
Proof.
  revert cpt myset. induction members as [|x members IH]; intros cpt myset; csimpl.
  - by rewrite Nat.add_0_r.
  - rewrite IH. destruct (image_of tb x); simpl; f_equal; lia.
Qed.

(** The inner loop of [Filter] computes [L] and [S]. *)
Lemma Filter_scan_spec tb c :
  (Filter_scan tb c.2).1 = length c.2 ∧
  length (Filter_scan tb c.2).2 = length (remove_dups (class_images tb c)).
Proof.
  unfold Filter_scan. rewrite Filter_scan_from. simpl. split; [done|].
  apply (set_of_list_length Nat.ltb).
Qed.

Lemma Filter_erases_dec k tb c : Filter_erases k tb c ∨ ¬ Filter_erases k tb c.
Proof. unfold Filter_erases. simpl. lia. Qed.

Lemma Filter_set_from k tb (cs : list (nat * list Node)) (s : list nat) x :
  x ∈ foldl (λ set_classToErase cit,
        let '(cpt, myset) := Filter_scan tb cit.2 in
        if negb (length myset =? cpt) || (length myset <? k)
        then set_insert Nat.ltb cit.1 set_classToErase
        else set_classToErase) s cs
  ↔ x ∈ s ∨ ∃ c, c ∈ cs ∧ c.1 = x ∧ Filter_erases k tb c.
Proof.
  revert s. induction cs as [|c cs IH]; intros s; simpl.
  { split; [auto|]. intros [?|(c & Hc & _)]; [done|by apply elem_of_nil in Hc]. }
  rewrite IH. clear IH.
  destruct (Filter_scan_spec tb c) as [HL HS].
  destruct (Filter_scan tb c.2) as [cpt myset]. simpl in HL, HS. subst cpt.
  assert (Hcond : negb (length myset =? length c.2) || (length myset <? k) = true
                  ↔ Filter_erases k tb c).
  { unfold Filter_erases. simpl. rewrite <-HS.
    destruct (Nat.eqb_spec (length myset) (length c.2)),
      (Nat.ltb_spec (length myset) k); simpl; split; try done; try lia; auto. }
  destruct (negb _ || _).
  - rewrite (elem_of_set_insert Nat.ltb). setoid_rewrite elem_of_cons.
    destruct Hcond as [Hcond _]. specialize (Hcond eq_refl). naive_solver.
  - setoid_rewrite elem_of_cons.
    assert (¬ Filter_erases k tb c) by (intros ?%Hcond; done). naive_solver.
Qed.

Lemma Filter_classes k tb c :
  NoDup (UnionFindEnum.classes (myTracksUF tb)).*1 →
  c ∈ UnionFindEnum.classes (myTracksUF (Filter k tb).2) ↔
    c ∈ UnionFindEnum.classes (myTracksUF tb) ∧ ¬ Filter_erases k tb c.
Proof.
  intros Hnd. unfold Filter. simpl.
  destruct (UnionFindFacts.eraseClass_fold
    (foldl (λ set_classToErase cit,
        let '(cpt, myset) := Filter_scan tb cit.2 in
        if negb (length myset =? cpt) || (length myset <? k)
        then set_insert Nat.ltb cit.1 set_classToErase
        else set_classToErase) [] (UnionFindEnum.classes (myTracksUF tb)))
    (myTracksUF tb)) as [-> _].
  rewrite list_elem_of_filter, Filter_set_from. split.
  - intros [Hn Hc]. split; [done|]. intros He. apply Hn. right. by exists c.
  - intros [Hc Hn]. split; [|done].
    intros [?%elem_of_nil|(c' & Hc' & Heq & He)]; [done|].
    apply (UnionFindFacts.NoDup_ids_eq _ c' c Hnd) in Heq; [|done..]. by subst.
Qed.

(** Erasing classes keeps the ids distinct. *)
Lemma Filter_NoDup_ids k tb :
  NoDup (UnionFindEnum.classes (myTracksUF tb)).*1 →
  NoDup (UnionFindEnum.classes (myTracksUF (Filter k tb).2)).*1.
Proof.
  intros Hnd. unfold Filter. simpl.
  match goal with |- context [foldl UnionFindEnum.eraseClass ?uf ?ids] =>
    destruct (UnionFindFacts.eraseClass_fold ids uf) as [-> _] end.
  by apply UnionFindFacts.NoDup_ids_filter.
Qed.

(** What a class that survives [Filter k] looks like. *)
Lemma Filter_survivor k tb c :
  NoDup (UnionFindEnum.classes (myTracksUF tb)).*1 →
  c ∈ UnionFindEnum.classes (myTracksUF (Filter k tb).2) →
  c ∈ UnionFindEnum.classes (myTracksUF tb) ∧
  length (class_images tb c) = length c.2 ∧
  NoDup (class_images tb c) ∧
  k ≤ length c.2.
Proof.
  intros Hnd [Hc Hn]%Filter_classes; [|done]. split; [done|].
  unfold Filter_erases in Hn. simpl in Hn.
  pose proof (remove_dups_length_le (class_images tb c)).
  pose proof (omap_length_le (image_of tb) c.2). fold (class_images tb c) in *.
  assert (Hlen : length (remove_dups (class_images tb c)) = length (class_images tb c))
    by lia.
  split; [lia|]. split; [by apply remove_dups_length_NoDup|lia].
Qed.

(** C2. [Filter k] erases a class iff, for [L] its cardinality and [S] the
    set of the distinct images of its members, [|S| ≠ L] or [|S| < k].
    So every class that survives has members in pairwise distinct images
    and at least [k] of them, and a class without conflict of length
    exactly [k] survives. *)
Theorem Filter_spec k tb :
  NoDup (UnionFindEnum.classes (myTracksUF tb)).*1 →
  (Filter k tb).1 = true ∧
  (∀ c, c ∈ UnionFindEnum.classes (myTracksUF tb) →
     c ∉ UnionFindEnum.classes (myTracksUF (Filter k tb).2) ↔ Filter_erases k tb c) ∧
  (∀ c, c ∈ UnionFindEnum.classes (myTracksUF (Filter k tb).2) →
     c ∈ UnionFindEnum.classes (myTracksUF tb) ∧
     length (class_images (Filter k tb).2 c) = length c.2 ∧
     NoDup (class_images (Filter k tb).2 c) ∧
     k ≤ length c.2) ∧
  (∀ c, c ∈ UnionFindEnum.classes (myTracksUF tb) →
     length (class_images tb c) = length c.2 → NoDup (class_images tb c) →
     length c.2 = k →
     c ∈ UnionFindEnum.classes (myTracksUF (Filter k tb).2)).
Proof.
  intros Hnd. split; [done|]. split; [|split].
  - intros c Hc. rewrite Filter_classes by done.
    destruct (Filter_erases_dec k tb c); tauto.
  - intros c Hc. change (class_images (Filter k tb).2 c) with (class_images tb c).
    by apply Filter_survivor.
  - intros c Hc Hlen Himg Hk. apply Filter_classes; [done|]. split; [done|].
    apply remove_dups_length_NoDup in Himg.
    unfold Filter_erases. simpl. lia.
Qed.

(** * Properties of [ExportToSTL] *)

Section track_writes.
Local Abbreviation write :=
  (foldl (λ (track : gmap nat Z) (key : nat * Z), <[key.1 := key.2]> track)).

Lemma write_lookup_Some (ks : list (nat * Z)) t img f :
  write t ks !! img = Some f → t !! img = Some f ∨ (img, f) ∈ ks.
Proof.
  revert t. induction ks as [|[i v] ks IH]; intros t; simpl; [auto|].
  intros [[[-> ->] | [? ?]]%lookup_insert_Some|?]%IH.
  - right. left.
  - by left.
  - right. by right.
Qed.

Lemma write_lookup_ne (ks : list (nat * Z)) t img :
  img ∉ ks.*1 → write t ks !! img = t !! img.
Proof.
  revert t. induction ks as [|[i v] ks IH]; intros t; csimpl; [done|].
  intros [??]%not_elem_of_cons. rewrite IH by done. by rewrite lookup_insert_ne.
Qed.

Lemma write_is_Some (ks : list (nat * Z)) t img :
  is_Some (write t ks !! img) ↔ is_Some (t !! img) ∨ img ∈ ks.*1.
Proof.
  revert t. induction ks as [|[i v] ks IH]; intros t; csimpl.
  - split; [auto|]. by intros [?|?%elem_of_nil].
  - rewrite IH, elem_of_cons. destruct (decide (i = img)) as [->|Hne].
    + rewrite lookup_insert_eq. split; [auto|]. intros _. left. by eexists.
    + rewrite lookup_insert_ne by done. naive_solver.
Qed.

(** The last member that writes at an image decides its entry. *)
Lemma write_last (l1 l2 : list (nat * Z)) t img f :
  img ∉ l2.*1 → write t (l1 ++ (img, f) :: l2) !! img = Some f.
Proof.
  intros Hl2. rewrite foldl_app. simpl.
  rewrite write_lookup_ne by done. apply lookup_insert_eq.
Qed.

Lemma write_size (ks : list (nat * Z)) t :
  NoDup ks.*1 → (∀ i, i ∈ ks.*1 → t !! i = None) →
  size (write t ks) = size t + length ks.
Proof.
  revert t. induction ks as [|[i v] ks IH]; intros t; csimpl; [lia|].
  intros [Hi Hks]%NoDup_cons Ht. rewrite IH; [|done|].
  - rewrite map_size_insert_None; [lia|]. apply Ht. left.
  - intros j Hj. rewrite lookup_insert_ne by (intros ->; done).
    apply Ht. by right.
Qed.
End track_writes.

Lemma class_images_keys tb c : class_images tb c = (omap (key_of tb) c.2).*1.
Proof. unfold class_images, image_of, key_of. by rewrite list_fmap_omap. Qed.

Lemma Export_class_fresh tb (map_tracks : gmap nat (gmap nat Z)) cptClass members :
  map_tracks !! cptClass = None →
  Export_class tb map_tracks cptClass members =
    <[cptClass := track_of tb members]> map_tracks.
Proof.
  intros Hnone. unfold Export_class, track_of. rewrite Hnone.
  generalize (∅ : gmap nat Z).
  induction members as [|x members IH]; intros t; csimpl; [done|].
  unfold key_of, flat_at. destruct (flat_find Nat.ltb (reverse_my_Map tb) x) as [p|]; simpl.
  - by rewrite alter_insert_eq, IH.
  - apply IH.
Qed.

Lemma sum_list_Permutation (l1 l2 : list nat) : l1 ≡ₚ l2 → sum_list l1 = sum_list l2.
Proof. induction 1; simpl; lia. Qed.

Lemma total_track_length_insert (map_tracks : gmap nat (gmap nat Z)) k track :
  map_tracks !! k = None →
  total_track_length (<[k := track]> map_tracks) =
    size track + total_track_length map_tracks.
Proof.
  intros Hk. unfold total_track_length.
  rewrite (sum_list_Permutation _ ((λ p, size p.2) <$> ((k, track) :: map_to_list map_tracks))).
  - done.
  - apply fmap_Permutation. by apply map_to_list_insert.
Qed.

(** The outer loop of [ExportToSTL]: class number [k] of the iteration
    becomes track [k]. *)
Lemma Export_loop_spec tb (cs : list (nat * list Node)) :
  (foldl (λ '(map_tracks, cptClass) cit,
     (Export_class tb map_tracks cptClass cit.2, S cptClass)) (∅, 0) cs).2 = length cs ∧
  (∀ k, (foldl (λ '(map_tracks, cptClass) cit,
     (Export_class tb map_tracks cptClass cit.2, S cptClass)) (∅, 0) cs).1 !! k
        = (λ c, track_of tb c.2) <$> cs !! k) ∧
  total_track_length (foldl (λ '(map_tracks, cptClass) cit,
     (Export_class tb map_tracks cptClass cit.2, S cptClass)) (∅, 0) cs).1
    = sum_list ((λ c, size (track_of tb c.2)) <$> cs).
Proof.
  induction cs as [|c cs IH] using rev_ind.
  - simpl. split; [done|]. split; [intros k; by rewrite lookup_empty|].
    unfold total_track_length. by rewrite map_to_list_empty.
  - rewrite foldl_snoc.
    destruct (foldl _ _ cs) as [M n]. simpl in IH. destruct IH as (-> & Hlook & Htot).
    assert (Hfresh : M !! length cs = None).
    { rewrite Hlook, lookup_ge_None_2; [done|lia]. }
    simpl. rewrite Export_class_fresh by done.
    split; [rewrite length_app; simpl; lia|]. split.
    + intros k. destruct (decide (k = length cs)) as [->|Hne].
      * rewrite lookup_insert_eq, list_lookup_middle; done.
      * rewrite lookup_insert_ne, Hlook by done.
        destruct (decide (k < length cs)).
        -- by rewrite lookup_app_l.
        -- rewrite !lookup_ge_None_2; [done|rewrite length_app; simpl; lia|lia].
    + rewrite total_track_length_insert, Htot by done.
      rewrite fmap_app, sum_list_with_app. simpl. lia.
Qed.

Lemma ExportToSTL_lookup tb out k :
  ExportToSTL tb out !! k =
    (λ c, track_of tb c.2) <$> UnionFindEnum.classes (myTracksUF tb) !! k.
Proof. apply Export_loop_spec. Qed.

Lemma NbTracks_length tb : NbTracks tb = length (UnionFindEnum.classes (myTracksUF tb)).
Proof.
  unfold NbTracks. generalize (UnionFindEnum.classes (myTracksUF tb)). intros cs.
  induction cs as [|c cs IH] using rev_ind; [done|].
  rewrite foldl_snoc, IH, length_app. simpl. lia.
Qed.

(** C8. After [ExportToSTL] the keys of the track map are exactly
    [0 .. NbTracks-1]; track [k] is made from the [k]-th class of the
    class iteration: it has an entry for every image of the class and each
    entry is the node key of a member; and a track gives one feature index
    per image at most. *)
Theorem ExportToSTL_contiguous tb out :
  dom (ExportToSTL tb out) = set_seq 0 (NbTracks tb) ∧
  (∀ k c, UnionFindEnum.classes (myTracksUF tb) !! k = Some c →
     ∃ track, ExportToSTL tb out !! k = Some track ∧
       (∀ img, is_Some (track !! img) ↔ img ∈ class_images tb c) ∧
       (∀ img f, track !! img = Some f →
          ∃ item, item ∈ c.2 ∧ key_of tb item = Some (img, f))) ∧
  (∀ k track img f1 f2,
     ExportToSTL tb out !! k = Some track →
     track !! img = Some f1 → track !! img = Some f2 → f1 = f2).
Proof.
  split; [|split].
  - apply set_eq. intros k.
    rewrite elem_of_dom, ExportToSTL_lookup, elem_of_set_seq, NbTracks_length.
    rewrite fmap_is_Some, lookup_lt_is_Some. lia.
  - intros k c Hc. exists (track_of tb c.2).
    rewrite ExportToSTL_lookup, Hc. split; [done|]. unfold track_of. split.
    + intros img. rewrite write_is_Some, class_images_keys, lookup_empty.
      split; [intros [[? [=]]|?]; done|auto].
    + intros img f [?|Hin]%write_lookup_Some; [by rewrite lookup_empty in *|].
      apply list_elem_of_omap in Hin as (item & ? & ?). by exists item.
  - intros k track img f1 f2 _ H1 H2. congruence.
Qed.

(** C10. [ExportToSTL] clears the map it is given before it fills it: the
    exported map does not depend on what the map held before the call. *)
Theorem ExportToSTL_clears tb out1 out2 :
  ExportToSTL tb out1 = ExportToSTL tb out2 ∧ ExportToSTL tb out1 = ExportToSTL tb ∅.
Proof. split; reflexivity. Qed.

(** C4, as the code has it. [ExportToSTL] reports nothing: when members of
    one class resolve to the same image, the member that comes last in the
    iteration of the class decides the entry of that image in the track,
    and the entries of the earlier ones are overwritten. *)
Theorem ExportToSTL_last_member_wins tb out k c l1 item l2 img f :
  UnionFindEnum.classes (myTracksUF tb) !! k = Some c →
  c.2 = l1 ++ item :: l2 →
  key_of tb item = Some (img, f) →
  (∀ item', item' ∈ l2 → image_of tb item' ≠ Some img) →
  ∃ track, ExportToSTL tb out !! k = Some track ∧ track !! img = Some f.
Proof.
  intros Hc Hsplit Hkey Hlater. exists (track_of tb c.2).
  rewrite ExportToSTL_lookup, Hc. split; [done|].
  unfold track_of. rewrite Hsplit, omap_app. csimpl. rewrite Hkey.
  apply write_last.
  intros (key & -> & (item' & Hin & Hk)%list_elem_of_omap)%list_elem_of_fmap.
  apply (Hlater item' Hin). unfold image_of. fold (key_of tb item'). by rewrite Hk.
Qed.

(** * Sequences of filter calls *)

(** A filter call only erases classes. *)
Lemma run_filter_erases tb call :
  reverse_my_Map (run_filter tb call) = reverse_my_Map tb ∧
  ∃ ids : list nat, UnionFindEnum.classes (myTracksUF (run_filter tb call)) =
           filter (λ c, c.1 ∉ ids) (UnionFindEnum.classes (myTracksUF tb)).
Proof.
  destruct call as [n|n]; simpl; (split; [done|]); eexists;
    apply UnionFindFacts.eraseClass_fold.
Qed.

Lemma run_filter_NoDup_ids tb call :
  NoDup (UnionFindEnum.classes (myTracksUF tb)).*1 →
  NoDup (UnionFindEnum.classes (myTracksUF (run_filter tb call))).*1.
Proof.
  intros Hnd. destruct (run_filter_erases tb call) as [_ [ids ->]].
  by apply UnionFindFacts.NoDup_ids_filter.
Qed.

Lemma run_filters_NoDup_ids tb calls :
  NoDup (UnionFindEnum.classes (myTracksUF tb)).*1 →
  NoDup (UnionFindEnum.classes (myTracksUF (run_filters tb calls))).*1.
Proof.
  revert tb. induction calls as [|call calls IH]; intros tb Hnd; simpl; [done|].
  by apply IH, run_filter_NoDup_ids.
Qed.

Lemma class_images_frame tb tb' c :
  reverse_my_Map tb' = reverse_my_Map tb → class_images tb' c = class_images tb c.
Proof. intros Heq. unfold class_images, image_of. by rewrite Heq. Qed.

Lemma run_filter_conflict_free tb call :
  conflict_free tb → conflict_free (run_filter tb call).
Proof.
  intros Hcf c. destruct (run_filter_erases tb call) as [Hrev [ids ->]].
  intros [_ Hc]%list_elem_of_filter. rewrite (class_images_frame tb) by done.
  by apply Hcf.
Qed.

Lemma run_filters_conflict_free tb calls :
  conflict_free tb → conflict_free (run_filters tb calls).
Proof.
  revert tb. induction calls as [|call calls IH]; intros tb Hcf; simpl; [done|].
  by apply IH, run_filter_conflict_free.
Qed.

Lemma Filter_conflict_free k tb :
  NoDup (UnionFindEnum.classes (myTracksUF tb)).*1 → conflict_free (Filter k tb).2.
Proof.
  intros Hnd c Hc. change (class_images (Filter k tb).2 c) with (class_images tb c).
  destruct (Filter_survivor k tb c Hnd Hc) as (_ & ? & ? & _). done.
Qed.

Lemma sum_list_lengths (cs : list (nat * list Node)) :
  sum_list ((λ c, length c.2) <$> cs) = length (concat cs.*2).
Proof.
  induction cs as [|c cs IH]; csimpl; [done|]. rewrite length_app. lia.
Qed.

(** Without conflicts every member of a class has its own entry. *)
Lemma ExportToSTL_total tb out :
  conflict_free tb →
  total_track_length (ExportToSTL tb out) =
    length (UnionFindEnum.items (myTracksUF tb)).
Proof.
  intros Hcf. unfold ExportToSTL, UnionFindEnum.items.
  destruct (Export_loop_spec tb (UnionFindEnum.classes (myTracksUF tb))) as (_ & _ & ->).
  rewrite <-sum_list_lengths. f_equal. apply list_fmap_ext.
  intros i c Hc%list_elem_of_lookup_2. destruct (Hcf c Hc) as [Hlen Hnd].
  rewrite class_images_keys in Hlen, Hnd. rewrite length_fmap in Hlen.
  unfold track_of. rewrite write_size; [|done|intros; apply lookup_empty].
  rewrite map_size_empty. exact Hlen.
Qed.

(** C5, as the code has it. When [Filter] is among the filter calls made
    after [Build], the lengths of the tracks [ExportToSTL] produces sum up
    to the number of node ids still present in the union-find. *)
Theorem export_completeness_after_Filter image_pairs calls out :
  (∃ k, CallFilter k ∈ calls) →
  total_track_length
    (ExportToSTL (run_filters (Build new_TracksBuilder image_pairs).2 calls) out) =
  length (UnionFindEnum.items
    (myTracksUF (run_filters (Build new_TracksBuilder image_pairs).2 calls))).
Proof.
  intros [k (calls1 & calls2 & ->)%list_elem_of_split].
  apply ExportToSTL_total. unfold run_filters. rewrite foldl_app. simpl.
  apply run_filters_conflict_free, Filter_conflict_free, run_filters_NoDup_ids.
  apply Build_classes_spec.
Qed.

(** * A match inside one image *)

(** [Build] has no failure mode. *)
Lemma Build_accepts tb image_pairs : (Build tb image_pairs).1 = true.
Proof. unfold Build. by destruct (Build_nodes _ _ _) as [[??]?]. Qed.

Lemma omap_conflict {A B} (f : A → option B) (l : list A) a b i :
  a ≠ b → a ∈ l → b ∈ l → f a = Some i → f b = Some i → ¬ NoDup (omap f l).
Proof.
  intros Hne (l1 & l2 & ->)%list_elem_of_split Hb Hfa Hfb.
  rewrite omap_app. csimpl. rewrite Hfa.
  intros (_ & H2 & [H3 _]%NoDup_cons)%NoDup_app.
  apply elem_of_app in Hb as [Hb|[?|Hb]%elem_of_cons]; [|done|].
  - apply (H2 i); [|left]. apply list_elem_of_omap. by exists b.
  - apply H3, list_elem_of_omap. by exists b.
Qed.

(** C6, as the code has it. A match whose pair has the same image on both
    sides and whose two feature indices differ is accepted by [Build]; its
    two nodes are distinct members of one class, which therefore has a
    same-image conflict, and [Filter] erases that class whatever the
    minimum length is. *)
Theorem same_image_match_conflict image_pairs image_pair match_ k :
  image_pair ∈ image_pairs → match_ ∈ get_matches image_pair →
  first image_pair = second image_pair →
  trainIdx match_ ≠ queryIdx match_ →
  (Build new_TracksBuilder image_pairs).1 = true ∧
  ∃ c a b,
    c ∈ UnionFindEnum.classes (myTracksUF (Build new_TracksBuilder image_pairs).2) ∧
    a ∈ c.2 ∧ b ∈ c.2 ∧ a ≠ b ∧
    key_of (Build new_TracksBuilder image_pairs).2 a
      = Some (first image_pair, trainIdx match_) ∧
    key_of (Build new_TracksBuilder image_pairs).2 b
      = Some (first image_pair, queryIdx match_) ∧
    ¬ NoDup (class_images (Build new_TracksBuilder image_pairs).2 c) ∧
    (c ∉ UnionFindEnum.classes
           (myTracksUF (Filter k (Build new_TracksBuilder image_pairs).2).2)) ∧
    (∀ c', c' ∈ UnionFindEnum.classes
                  (myTracksUF (Filter k (Build new_TracksBuilder image_pairs).2).2) →
           (a ∉ c'.2) ∧ (b ∉ c'.2)).
Proof.
  intros Hip Hm Himg Hidx. split; [apply Build_accepts|].
  assert (He : ((first image_pair, trainIdx match_),
                (second image_pair, queryIdx match_)) ∈ edges image_pairs).
  { apply elem_of_edges. by exists image_pair, match_. }
  destruct (Build_registered image_pairs (first image_pair, trainIdx match_))
    as (a & Ha & _ & Hra & _).
  { apply elem_of_endpoints. eexists. split; [exact He|by left]. }
  destruct (Build_registered image_pairs (second image_pair, queryIdx match_))
    as (b & Hb & _ & Hrb & _).
  { apply elem_of_endpoints. eexists. split; [exact He|by right]. }
  destruct (Build_classes_spec image_pairs) as [Hwf Hconn].
  destruct (proj2 (Hconn a b _ _ Ha Hb)) as (c & Hc & Hac & Hbc).
  { by apply connected_edge. }
  rewrite <-Himg in Hrb.
  assert (Hab : a ≠ b) by (intros ->; congruence).
  assert (Hconf : ¬ NoDup (class_images (Build new_TracksBuilder image_pairs).2 c)).
  { apply (omap_conflict _ _ a b (first image_pair)); [done..| |].
    - unfold image_of. fold (key_of (Build new_TracksBuilder image_pairs).2 a).
      by rewrite Hra.
    - unfold image_of. fold (key_of (Build new_TracksBuilder image_pairs).2 b).
      by rewrite Hrb. }
  assert (Hgone : c ∉ UnionFindEnum.classes
            (myTracksUF (Filter k (Build new_TracksBuilder image_pairs).2).2)).
  { intros Hin. apply Filter_survivor in Hin as (_ & _ & ? & _); [done|apply Hwf]. }
  exists c, a, b. repeat (split; [done|]).
  intros c' Hc'. pose proof Hc' as [Hc'' _]%Filter_classes; [|apply Hwf].
  destruct Hwf as [_ Hdis].
  split; intros Hin; apply Hgone.
  - by rewrite <-(Hdis c' c a).
  - by rewrite <-(Hdis c' c b).
Qed.

(** * Properties of [FilterPairWiseMinimumMatches] *)

Section map_of_sets.
Context {K E : Type} (kltb : K → K → bool) (eltb : E → E → bool).
Context `{!StrictOrderB kltb, !StrictOrderB eltb}.

Lemma map_set_insert_keys key t (m : list (K * list E)) :
  (map_set_insert kltb eltb key t m).*1 = set_insert kltb key m.*1.
Proof.
  induction m as [|p m IH]; csimpl; [done|].
  destruct (kltb p.1 key); csimpl; [by rewrite IH|].
  by destruct (kltb key p.1).
Qed.

Lemma map_set_insert_sets key t (m : list (K * list E)) :
  Forall (λ p, ascending eltb p.2) m →
  Forall (λ p, ascending eltb p.2) (map_set_insert kltb eltb key t m).
Proof.
  induction 1 as [|p m Hp Hm IH]; simpl.
  - repeat constructor.
  - destruct (kltb p.1 key); [by constructor|].
    destruct (kltb key p.1).
    + constructor; [repeat constructor|by constructor].
    + constructor; [|done]. simpl. by apply set_insert_ascending.
Qed.

Lemma elem_of_map_set_insert key t (m : list (K * list E)) k x :
  (∃ s, (k, s) ∈ map_set_insert kltb eltb key t m ∧ x ∈ s) ↔
  (k = key ∧ x = t) ∨ (∃ s, (k, s) ∈ m ∧ x ∈ s).
Proof.
  induction m as [|[k' s'] m IH]; simpl.
  - split.
    + intros (s & [= -> ->]%list_elem_of_singleton & ->%list_elem_of_singleton). auto.
    + intros [[-> ->]|(s & Hs%elem_of_nil & _)]; [|done].
      exists [t]. split; left.
  - destruct (kltb k' key) eqn:H1; [|destruct (kltb key k') eqn:H2].
    + setoid_rewrite elem_of_cons. split.
      * intros (s & [[= -> ->]|Hs] & Hx).
        -- right. exists s'. auto.
        -- destruct (proj1 IH) as [?|(s0 & ? & ?)]; [by exists s|by left|].
           right. exists s0. auto.
      * intros [Hk|(s & [[= -> ->]|Hs] & Hx)].
        -- destruct (proj2 IH (or_introl Hk)) as (s & ? & ?). exists s. auto.
        -- exists s'. auto.
        -- destruct (proj2 IH) as (s0 & ? & ?); [right; by exists s|].
           exists s0. auto.
    + setoid_rewrite elem_of_cons at 1. split.
      * intros (s & [[= -> ->]|Hs] & Hx).
        -- apply list_elem_of_singleton in Hx. auto.
        -- right. by exists s.
      * intros [[-> ->]|(s & Hs & Hx)].
        -- exists [t]. split; [by left|left].
        -- exists s. auto.
    + assert (k' = key) as -> by (by apply ltb_total).
      setoid_rewrite elem_of_cons. split.
      * intros (s & [[= -> ->]|Hs] & Hx).
        -- apply (elem_of_set_insert eltb) in Hx as [->|Hx]; [auto|].
           right. exists s'. auto.
        -- right. exists s. auto.
      * intros [[-> ->]|(s & [[= -> ->]|Hs] & Hx)].
        -- exists (set_insert eltb t s'). split; [by left|].
           apply (elem_of_set_insert eltb); auto.
        -- exists (set_insert eltb t s'). split; [by left|].
           apply (elem_of_set_insert eltb); auto.
        -- exists s. auto.
Qed.

(** A whole loop of [m[key].insert(t)]. *)
Lemma map_of_sets_spec (L : list (K * E)) (m : list (K * list E)) :
  ascending kltb m.*1 → Forall (λ p, ascending eltb p.2) m →
  ascending kltb (foldl (λ m p, map_set_insert kltb eltb p.1 p.2 m) m L).*1 ∧
  Forall (λ p, ascending eltb p.2)
    (foldl (λ m p, map_set_insert kltb eltb p.1 p.2 m) m L) ∧
  ∀ k x, (∃ s, (k, s) ∈ foldl (λ m p, map_set_insert kltb eltb p.1 p.2 m) m L ∧ x ∈ s)
         ↔ (∃ s, (k, s) ∈ m ∧ x ∈ s) ∨ (k, x) ∈ L.
Proof.
  revert m. induction L as [|[key t] L IH]; intros m Hk Hs; simpl.
  - split; [done|]. split; [done|]. intros k x. split; [auto|].
    by intros [?|?%elem_of_nil].
  - destruct (IH (map_set_insert kltb eltb key t m)) as (IH1 & IH2 & IH3).
    + rewrite map_set_insert_keys. by apply set_insert_ascending.
    + by apply map_set_insert_sets.
    + split; [done|]. split; [done|]. intros k x.
      rewrite IH3, elem_of_map_set_insert, elem_of_cons. split.
      * intros [[[-> ->]|?]|?]; auto.
      * intros [?|[[= -> ->]|?]]; auto.
Qed.
End map_of_sets.

(** The first loop of [FilterPairWiseMinimumMatches], member by member. *)
Lemma tracksIdPerImages_from tb (cs : list (nat * list Node)) (m : list (ImageId * list nat)) :
  foldl (λ map_tracksIdPerImages cit,
    let trackId := cit.1 in
    foldl (λ map_tracksIdPerImages iit,
      match flat_find Nat.ltb (reverse_my_Map tb) iit with
      | Some iterTrackValue =>
          let currentPair := iterTrackValue.2 in
          map_set_insert Nat.ltb Nat.ltb currentPair.1 trackId map_tracksIdPerImages
      | None => map_tracksIdPerImages
      end)
      map_tracksIdPerImages cit.2)
    m cs =
  foldl (λ m p, map_set_insert Nat.ltb Nat.ltb p.1 p.2 m) m
    (cs ≫= λ c, (λ I, (I, c.1)) <$> class_images tb c).
Proof.
  revert m. induction cs as [|c cs IH]; intros m; simpl; [done|].
  rewrite IH, foldl_app. f_equal. clear IH.
  unfold class_images. destruct c as [t0 members]. simpl. revert m.
  induction members as [|x members IHm]; intros m; csimpl; [done|].
  unfold image_of, flat_at.
  destruct (flat_find Nat.ltb (reverse_my_Map tb) x) as [p|]; simpl; apply IHm.
Qed.

Lemma tracksIdPerImages_eq tb :
  tracksIdPerImages tb =
    foldl (λ m p, map_set_insert Nat.ltb Nat.ltb p.1 p.2 m) []
      (UnionFindEnum.classes (myTracksUF tb) ≫= λ c, (λ I, (I, c.1)) <$> class_images tb c).
Proof. apply tracksIdPerImages_from. Qed.

Lemma elem_of_TracksByImage tb I t :
  t ∈ TracksByImage tb I ↔
    ∃ c, c ∈ UnionFindEnum.classes (myTracksUF tb) ∧ c.1 = t ∧ I ∈ class_images tb c.
Proof.
  unfold TracksByImage. rewrite list_elem_of_fmap.
  setoid_rewrite list_elem_of_filter. naive_solver.
Qed.

Lemma tracksIdPerImages_spec tb :
  ascending Nat.ltb (tracksIdPerImages tb).*1 ∧
  Forall (λ p, ascending Nat.ltb p.2) (tracksIdPerImages tb) ∧
  ∀ I t, (∃ s, (I, s) ∈ tracksIdPerImages tb ∧ t ∈ s) ↔ t ∈ TracksByImage tb I.
Proof.
  rewrite tracksIdPerImages_eq.
  destruct (map_of_sets_spec Nat.ltb Nat.ltb
    (UnionFindEnum.classes (myTracksUF tb) ≫= λ c, (λ I, (I, c.1)) <$> class_images tb c)
    []) as (H1 & H2 & H3); [constructor..|].
  split; [done|]. split; [done|]. intros I t.
  rewrite H3, elem_of_TracksByImage, list_elem_of_bind.
  setoid_rewrite list_elem_of_fmap. split.
  - intros [(s & ?%elem_of_nil & _)|(c & (I' & [= -> ->] & ?) & ?)]; [done|].
    by exists c.
  - intros (c & ? & <- & ?). right. exists c. split; [|done]. by exists I.
Qed.

(** The entry of an image in the map is its set of tracks. *)
Lemma tracksIdPerImages_entry tb I s t :
  (I, s) ∈ tracksIdPerImages tb → t ∈ s ↔ t ∈ TracksByImage tb I.
Proof.
  destruct (tracksIdPerImages_spec tb) as (Hk & _ & Hspec).
  intros Hin. rewrite <-Hspec. split; [intros; by exists s|].
  intros (s' & Hin' & Ht).
  assert (s' = s) as <-; [|done].
  apply (ascending_NoDup Nat.ltb) in Hk.
  revert Hk Hin Hin'. generalize (tracksIdPerImages tb). intros m.
  induction m as [|p m IH]; csimpl; [by intros _ ?%elem_of_nil|].
  intros [Hp Hm]%NoDup_cons [H1|H1]%elem_of_cons [H2|H2]%elem_of_cons; subst; auto.
  - congruence.
  - destruct Hp. apply list_elem_of_fmap. by exists (I, s').
  - destruct Hp. apply list_elem_of_fmap. by exists (I, s).
Qed.

Lemma NoDup_TracksByImage tb I :
  NoDup (UnionFindEnum.classes (myTracksUF tb)).*1 → NoDup (TracksByImage tb I).
Proof. intros Hnd. unfold TracksByImage. by apply UnionFindFacts.NoDup_ids_filter. Qed.

(** The intersection the code computes is [shared]. *)
Lemma set_intersection_shared tb I sA J sB :
  NoDup (UnionFindEnum.classes (myTracksUF tb)).*1 →
  (I, sA) ∈ tracksIdPerImages tb → (J, sB) ∈ tracksIdPerImages tb →
  (∀ t, t ∈ set_intersection Nat.ltb sA sB ↔ t ∈ shared tb I J) ∧
  length (set_intersection Nat.ltb sA sB) = length (shared tb I J).
Proof.
  intros Hnd HA HB.
  destruct (tracksIdPerImages_spec tb) as (_ & Hsets & _).
  rewrite Forall_forall in Hsets.
  pose proof (Hsets _ HA) as HsA. pose proof (Hsets _ HB) as HsB. simpl in HsA, HsB.
  assert (Hmem : ∀ t, t ∈ set_intersection Nat.ltb sA sB ↔ t ∈ shared tb I J).
  { intros t. rewrite (elem_of_set_intersection Nat.ltb) by done.
    unfold shared. rewrite list_elem_of_filter.
    rewrite (tracksIdPerImages_entry tb I sA), (tracksIdPerImages_entry tb J sB) by done.
    tauto. }
  split; [done|]. apply Permutation_length, NoDup_Permutation; [| |done].
  - apply (ascending_NoDup Nat.ltb), (set_intersection_ascending Nat.ltb); done.
  - unfold shared. by apply NoDup_filter, NoDup_TracksByImage.
Qed.

(** The second loop: the pairs ([iter], [iter2]) with [iter2] not before [iter]. *)
Lemma crossImages_inner min (setA : list nat) (l : list (ImageId * list nat)) vec x :
  x ∈ foldl (λ vec iter2,
         let setB := iter2.2 in
         let inter := set_intersection Nat.ltb setA setB in
         if length inter <? min then vec ++ inter else vec) vec l
  ↔ x ∈ vec ∨ ∃ pB, pB ∈ l ∧ x ∈ set_intersection Nat.ltb setA pB.2 ∧
                    length (set_intersection Nat.ltb setA pB.2) < min.
Proof.
  revert vec. induction l as [|p l IH]; intros vec; simpl.
  - split; [auto|]. by intros [?|(? & ?%elem_of_nil & _)].
  - rewrite IH. setoid_rewrite elem_of_cons.
    destruct (Nat.ltb_spec (length (set_intersection Nat.ltb setA p.2)) min).
    + rewrite elem_of_app. split.
      * intros [[?|?]|(pB & ? & ? & ?)]; [by left|right; exists p; auto|].
        right. exists pB. auto.
      * intros [?|(pB & [->|?] & ? & ?)]; [by do 2 left|left; by right|].
        right. exists pB. auto.
    + split.
      * intros [?|(pB & ? & ? & ?)]; [by left|]. right. exists pB. auto.
      * intros [?|(pB & [->|?] & ? & ?)]; [by left|lia|].
        right. exists pB. auto.
Qed.

Lemma crossImages_cons min p (m : list (ImageId * list nat)) vec :
  crossImages min (p :: m) vec =
    crossImages min m
      (foldl (λ vec iter2,
         let setB := iter2.2 in
         let inter := set_intersection Nat.ltb p.2 setB in
         if length inter <? min then vec ++ inter else vec) vec (p :: m)).
Proof. reflexivity. Qed.

Lemma crossImages_spec min (m : list (ImageId * list nat)) vec x :
  x ∈ crossImages min m vec ↔
    x ∈ vec ∨ ∃ pre pA suf pB, m = pre ++ pA :: suf ∧ pB ∈ pA :: suf ∧
       x ∈ set_intersection Nat.ltb pA.2 pB.2 ∧
       length (set_intersection Nat.ltb pA.2 pB.2) < min.
Proof.
  revert vec. induction m as [|p m IH]; intros vec.
  - simpl. split; [auto|]. intros [?|(pre & pA & suf & pB & Heq & _)]; [done|].
    by destruct pre.
  - rewrite crossImages_cons, IH, crossImages_inner. split.
    + intros [[?|(pB & ? & ? & ?)]|(pre & pA & suf & pB & -> & ? & ? & ?)].
      * by left.
      * right. by exists [], p, m, pB.
      * right. by exists (p :: pre), pA, suf, pB.
    + intros [?|(pre & pA & suf & pB & Heq & ? & ? & ?)]; [by do 2 left|].
      destruct pre as [|p' pre]; simpl in Heq; injection Heq as -> ->.
      * left. right. by exists pB.
      * right. by exists pre, pA, suf, pB.
Qed.

(** Positions in the ascending map and the order of the images. *)
Lemma ascending_split_order (pre suf : list (ImageId * list nat)) pA :
  ascending Nat.ltb (pre ++ pA :: suf).*1 →
  (∀ pB, pB ∈ (pA :: suf) → pA.1 ≤ pB.1) ∧ (∀ pB, pB ∈ pre → pB.1 < pA.1).
Proof.
  rewrite fmap_app, fmap_cons. unfold ascending.
  rewrite StronglySorted_app, StronglySorted_cons, Forall_forall.
  intros (Hpre & _ & Hsuf & _). split.
  - intros pB [->|HB]%elem_of_cons; [done|].
    assert ((pA.1 <? pB.1) = true) as ?%Nat.ltb_lt; [|lia].
    apply Hsuf, list_elem_of_fmap. by exists pB.
  - intros pB HB. apply Nat.ltb_lt, Hpre; [|left].
    apply list_elem_of_fmap. by exists pB.
Qed.

(** The tracks the second loop collects are the marked ones. *)
Lemma crossImages_marked min tb t :
  NoDup (UnionFindEnum.classes (myTracksUF tb)).*1 →
  t ∈ crossImages min (tracksIdPerImages tb) [] ↔ marked min tb t.
Proof.
  intros Hnd. rewrite crossImages_spec.
  destruct (tracksIdPerImages_spec tb) as (Hasc & _ & Hspec). split.
  - intros [?%elem_of_nil|(pre & [I sA] & suf & [J sB] & Heq & HB & Ht & Hlen)]; [done|].
    rewrite Heq in Hasc. destruct (ascending_split_order _ _ _ Hasc) as [Hle _].
    destruct (set_intersection_shared tb I sA J sB Hnd) as [Hmem Hlen'].
    { rewrite Heq. set_solver. }
    { rewrite Heq. set_solver. }
    simpl in *. exists I, J. split; [by apply (Hle (J, sB))|].
    split; [by apply Hmem|lia].
  - intros (I & J & Hle & Ht & Hlen). right.
    pose proof Ht as [HtJ HtI]%list_elem_of_filter.
    apply Hspec in HtI as (sA & HA & HtA), HtJ as (sB & HB & HtB).
    destruct (set_intersection_shared tb I sA J sB Hnd HA HB) as [Hmem Hlen'].
    pose proof HA as (pre & suf & Heq)%list_elem_of_split.
    rewrite Heq in Hasc. destruct (ascending_split_order _ _ _ Hasc) as [_ Hlt].
    exists pre, (I, sA), suf, (J, sB). simpl. split; [done|].
    split; [|split; [by apply Hmem|lia]].
    rewrite Heq in HB. apply elem_of_app in HB as [HB|HB]; [|done].
    apply Hlt in HB. simpl in HB. lia.
Qed.

(** [sort] followed by [unique] leaves no duplicate. *)
Lemma vec_sort_insert_sorted x (l : list nat) :
  StronglySorted le l → StronglySorted le (vec_sort_insert Nat.ltb x l).
Proof.
  induction 1 as [|y l Hl IH Hy]; simpl; [repeat constructor|].
  destruct (Nat.ltb_spec x y).
  - constructor; [by constructor|]. constructor; [lia|].
    eapply Forall_impl; [exact Hy|]. simpl. lia.
  - constructor; [done|]. apply Forall_forall. intros z Hz.
    apply (elem_of_vec_sort_insert Nat.ltb) in Hz as [->|Hz]; [done|].
    rewrite Forall_forall in Hy. by apply Hy.
Qed.

Lemma vec_sort_sorted (v : list nat) : StronglySorted le (vec_sort Nat.ltb v).
Proof.
  unfold vec_sort. induction v as [|x v IH]; simpl; [constructor|].
  by apply vec_sort_insert_sorted.
Qed.

Lemma vec_unique_NoDup (v : list nat) : StronglySorted le v → NoDup (vec_unique v).
Proof.
  induction 1 as [|x v Hv IH Hx]; [constructor|].
  destruct v as [|y v]; [repeat constructor; by intros ?%elem_of_nil|].
  change (vec_unique (x :: y :: v))
    with (if decide (x = y) then vec_unique (y :: v) else x :: vec_unique (y :: v)).
  destruct (decide (x = y)) as [->|Hne]; [done|].
  constructor; [|done]. rewrite elem_of_vec_unique.
  intros Hin. inversion Hv as [|? ? _ Hy]; subst.
  apply Forall_cons in Hx as [Hxy Hx]. rewrite Forall_forall in Hy.
  apply elem_of_cons in Hin as [->|Hin]; [done|]. specialize (Hy _ Hin). lia.
Qed.

(** C3. [FilterPairWiseMinimumMatches min] computes for every image [I]
    the set [TracksByImage[I]] of the ids of the classes with a member in
    [I]; a track id is marked when it lies in
    [TracksByImage[I] ∩ TracksByImage[J]] for two images [I ≤ J] ([I = J]
    included) whose intersection has less than [min] elements; the list
    of track ids to remove holds the marked ids, each once, and exactly the
    classes with a marked id are erased. *)
Theorem FilterPairWiseMinimumMatches_spec min tb :
  NoDup (UnionFindEnum.classes (myTracksUF tb)).*1 →
  (FilterPairWiseMinimumMatches min tb).1 = true ∧
  (∀ I t, (∃ s, (I, s) ∈ tracksIdPerImages tb ∧ t ∈ s) ↔ t ∈ TracksByImage tb I) ∧
  NoDup (vec_unique (vec_sort Nat.ltb (crossImages min (tracksIdPerImages tb) []))) ∧
  (∀ t, t ∈ vec_unique (vec_sort Nat.ltb (crossImages min (tracksIdPerImages tb) []))
        ↔ marked min tb t) ∧
  (∀ c, c ∈ UnionFindEnum.classes (myTracksUF (FilterPairWiseMinimumMatches min tb).2)
        ↔ c ∈ UnionFindEnum.classes (myTracksUF tb) ∧ ¬ marked min tb c.1).
Proof.
  intros Hnd.
  assert (Hmarked : ∀ t,
    t ∈ vec_unique (vec_sort Nat.ltb (crossImages min (tracksIdPerImages tb) []))
    ↔ marked min tb t).
  { intros t. rewrite elem_of_vec_unique, (elem_of_vec_sort Nat.ltb).
    by apply crossImages_marked. }
  split; [done|]. split; [apply tracksIdPerImages_spec|].
  split; [apply vec_unique_NoDup, vec_sort_sorted|]. split; [done|].
  intros c. unfold FilterPairWiseMinimumMatches. simpl.
  match goal with |- context [foldl UnionFindEnum.eraseClass ?uf ?ids] =>
    destruct (UnionFindFacts.eraseClass_fold ids uf) as [-> _] end.
  rewrite list_elem_of_filter, Hmarked. tauto.
Qed.

(** * The theorems at the scenarios of the specification *)

Lemma Build_transitive_closure_witness :
  (imgA, 1%Z) ∈ endpoints scenario_chain ∧
  (imgC, 100%Z) ∈ endpoints scenario_chain ∧
  ∃ n1 n2 c1 c2,
    flat_at pair_ltb (Build_my_Map new_TracksBuilder scenario_chain) (imgA, 1%Z) = Some n1 ∧
    flat_at pair_ltb (Build_my_Map new_TracksBuilder scenario_chain) (imgC, 100%Z) = Some n2 ∧
    key_of (Build new_TracksBuilder scenario_chain).2 n1 = Some (imgA, 1%Z) ∧
    key_of (Build new_TracksBuilder scenario_chain).2 n2 = Some (imgC, 100%Z) ∧
    UnionFindEnum.find (myTracksUF (Build new_TracksBuilder scenario_chain).2) n1 = Some c1 ∧
    UnionFindEnum.find (myTracksUF (Build new_TracksBuilder scenario_chain).2) n2 = Some c2 ∧
    (c1 = c2 ↔ connected (edges scenario_chain) (imgA, 1%Z) (imgC, 100%Z)).
Proof.
  assert (H1 : (imgA, 1%Z) ∈ endpoints scenario_chain)
    by (vm_compute; repeat constructor).
  assert (H2 : (imgC, 100%Z) ∈ endpoints scenario_chain)
    by (vm_compute; repeat constructor).
  split; [exact H1|]. split; [exact H2|].
  exact (Build_transitive_closure scenario_chain _ _ H1 H2).
Defined.

Lemma Build_unites_match_witness :
  mkImagePair imgB imgC [train_query 10 100] ∈ scenario_chain ∧
  train_query 10 100 ∈ get_matches (mkImagePair imgB imgC [train_query 10 100]) ∧
  ∃ a b c,
    flat_at pair_ltb (Build_my_Map new_TracksBuilder scenario_chain) (imgB, 10%Z) = Some a ∧
    flat_at pair_ltb (Build_my_Map new_TracksBuilder scenario_chain) (imgC, 100%Z) = Some b ∧
    key_of (Build new_TracksBuilder scenario_chain).2 a = Some (imgB, 10%Z) ∧
    key_of (Build new_TracksBuilder scenario_chain).2 b = Some (imgC, 100%Z) ∧
    UnionFindEnum.find (myTracksUF (Build new_TracksBuilder scenario_chain).2) a = Some c ∧
    UnionFindEnum.find (myTracksUF (Build new_TracksBuilder scenario_chain).2) b = Some c.
Proof.
  assert (H1 : mkImagePair imgB imgC [train_query 10 100] ∈ scenario_chain)
    by (unfold scenario_chain; repeat constructor).
  assert (H2 : train_query 10 100
               ∈ get_matches (mkImagePair imgB imgC [train_query 10 100]))
    by (simpl; repeat constructor).
  split; [exact H1|]. split; [exact H2|].
  exact (Build_unites_match scenario_chain _ _ H1 H2).
Defined.

Lemma duplicate_match_idempotent_witness :
  ((imgA, 1%Z), (imgB, 10%Z)) ∈ edges scenario_chain ∧
  edges scenario_chain = edges scenario_chain ++ [] ∧
  edges scenario_chain_repeated = edges scenario_chain ++ ((imgA, 1%Z), (imgB, 10%Z)) :: [] ∧
  Build new_TracksBuilder scenario_chain_repeated = Build new_TracksBuilder scenario_chain ∧
  ExportToSTL (run_filters (Build new_TracksBuilder scenario_chain_repeated).2
                 [CallFilter 2]) ∅ =
  ExportToSTL (run_filters (Build new_TracksBuilder scenario_chain).2 [CallFilter 2]) ∅.
Proof.
  assert (H1 : ((imgA, 1%Z), (imgB, 10%Z)) ∈ edges scenario_chain)
    by (vm_compute; repeat constructor).
  assert (H2 : edges scenario_chain = edges scenario_chain ++ []) by reflexivity.
  assert (H3 : edges scenario_chain_repeated
               = edges scenario_chain ++ ((imgA, 1%Z), (imgB, 10%Z)) :: []) by reflexivity.
  split; [exact H1|]. split; [exact H2|]. split; [exact H3|].
  exact (duplicate_match_idempotent scenario_chain scenario_chain_repeated
           (edges scenario_chain) ((imgA, 1%Z), (imgB, 10%Z)) [] [CallFilter 2] ∅ H1 H2 H3).
Defined.

Lemma Filter_spec_witness :
  NoDup (UnionFindEnum.classes
           (myTracksUF (Build new_TracksBuilder scenario_conflict).2)).*1 ∧
  (Filter 2 (Build new_TracksBuilder scenario_conflict).2).1 = true ∧
  (∀ c, c ∈ UnionFindEnum.classes (myTracksUF (Build new_TracksBuilder scenario_conflict).2) →
     c ∉ UnionFindEnum.classes
           (myTracksUF (Filter 2 (Build new_TracksBuilder scenario_conflict).2).2)
     ↔ Filter_erases 2 (Build new_TracksBuilder scenario_conflict).2 c) ∧
  (∀ c, c ∈ UnionFindEnum.classes
              (myTracksUF (Filter 2 (Build new_TracksBuilder scenario_conflict).2).2) →
     c ∈ UnionFindEnum.classes (myTracksUF (Build new_TracksBuilder scenario_conflict).2) ∧
     length (class_images (Filter 2 (Build new_TracksBuilder scenario_conflict).2).2 c)
       = length c.2 ∧
     NoDup (class_images (Filter 2 (Build new_TracksBuilder scenario_conflict).2).2 c) ∧
     2 ≤ length c.2) ∧
  (∀ c, c ∈ UnionFindEnum.classes (myTracksUF (Build new_TracksBuilder scenario_conflict).2) →
     length (class_images (Build new_TracksBuilder scenario_conflict).2 c) = length c.2 →
     NoDup (class_images (Build new_TracksBuilder scenario_conflict).2 c) →
     length c.2 = 2 →
     c ∈ UnionFindEnum.classes
           (myTracksUF (Filter 2 (Build new_TracksBuilder scenario_conflict).2).2)).
Proof.
  assert (H : NoDup (UnionFindEnum.classes
                (myTracksUF (Build new_TracksBuilder scenario_conflict).2)).*1)
    by (vm_compute; apply (bool_decide_unpack _); vm_compute; exact I).
  split; [exact H|].
  exact (Filter_spec 2 (Build new_TracksBuilder scenario_conflict).2 H).
Defined.

Lemma FilterPairWiseMinimumMatches_spec_witness :
  NoDup (UnionFindEnum.classes
           (myTracksUF (Build new_TracksBuilder scenario_support).2)).*1 ∧
  (FilterPairWiseMinimumMatches 3 (Build new_TracksBuilder scenario_support).2).1 = true ∧
  (∀ I t, (∃ s, (I, s) ∈ tracksIdPerImages (Build new_TracksBuilder scenario_support).2 ∧ t ∈ s)
          ↔ t ∈ TracksByImage (Build new_TracksBuilder scenario_support).2 I) ∧
  NoDup (vec_unique (vec_sort Nat.ltb
           (crossImages 3 (tracksIdPerImages (Build new_TracksBuilder scenario_support).2) []))) ∧
  (∀ t, t ∈ vec_unique (vec_sort Nat.ltb
              (crossImages 3 (tracksIdPerImages (Build new_TracksBuilder scenario_support).2) []))
        ↔ marked 3 (Build new_TracksBuilder scenario_support).2 t) ∧
  (∀ c, c ∈ UnionFindEnum.classes
              (myTracksUF (FilterPairWiseMinimumMatches 3
                             (Build new_TracksBuilder scenario_support).2).2)
        ↔ c ∈ UnionFindEnum.classes (myTracksUF (Build new_TracksBuilder scenario_support).2)
          ∧ ¬ marked 3 (Build new_TracksBuilder scenario_support).2 c.1).
Proof.
  assert (H : NoDup (UnionFindEnum.classes
                (myTracksUF (Build new_TracksBuilder scenario_support).2)).*1)
    by (vm_compute; apply (bool_decide_unpack _); vm_compute; exact I).
  split; [exact H|].
  exact (FilterPairWiseMinimumMatches_spec 3 (Build new_TracksBuilder scenario_support).2 H).
Defined.

Lemma ExportToSTL_last_member_wins_witness :
  UnionFindEnum.classes (myTracksUF (Build new_TracksBuilder scenario_conflict).2) !! 0
    = Some (1, [1; 0; 2]) ∧
  (1, [1; 0; 2]).2 = [1; 0] ++ 2 :: [] ∧
  key_of (Build new_TracksBuilder scenario_conflict).2 2 = Some (imgB, 20%Z) ∧
  (∀ item', item' ∈ [] → image_of (Build new_TracksBuilder scenario_conflict).2 item' ≠ Some imgB) ∧
  ∃ track,
    ExportToSTL (Build new_TracksBuilder scenario_conflict).2 ∅ !! 0 = Some track ∧
    track !! imgB = Some 20%Z.
Proof.
  assert (H1 : UnionFindEnum.classes
                 (myTracksUF (Build new_TracksBuilder scenario_conflict).2) !! 0
               = Some (1, [1; 0; 2])) by (vm_compute; reflexivity).
  assert (H2 : (1, [1; 0; 2]).2 = [1; 0] ++ 2 :: []) by reflexivity.
  assert (H3 : key_of (Build new_TracksBuilder scenario_conflict).2 2 = Some (imgB, 20%Z))
    by (vm_compute; reflexivity).
  assert (H4 : ∀ item', item' ∈ [] →
                 image_of (Build new_TracksBuilder scenario_conflict).2 item' ≠ Some imgB)
    by (intros item' Hin; inversion Hin).
  split; [exact H1|]. split; [exact H2|]. split; [exact H3|]. split; [exact H4|].
  exact (ExportToSTL_last_member_wins (Build new_TracksBuilder scenario_conflict).2 ∅
           0 (1, [1; 0; 2]) [1; 0] 2 [] imgB 20%Z H1 H2 H3 H4).
Defined.

Lemma export_completeness_after_Filter_witness :
  (∃ k, CallFilter k ∈ [CallFilter 2]) ∧
  total_track_length
    (ExportToSTL (run_filters (Build new_TracksBuilder scenario_chain).2 [CallFilter 2]) ∅) =
  length (UnionFindEnum.items
    (myTracksUF (run_filters (Build new_TracksBuilder scenario_chain).2 [CallFilter 2]))).
Proof.
  assert (H : ∃ k, CallFilter k ∈ [CallFilter 2]) by (exists 2; repeat constructor).
  split; [exact H|].
  exact (export_completeness_after_Filter scenario_chain [CallFilter 2] ∅ H).
Defined.

Lemma same_image_match_conflict_witness :
  mkImagePair imgA imgA [train_query 1 2] ∈ same_image_match ∧
  train_query 1 2 ∈ get_matches (mkImagePair imgA imgA [train_query 1 2]) ∧
  first (mkImagePair imgA imgA [train_query 1 2])
    = second (mkImagePair imgA imgA [train_query 1 2]) ∧
  trainIdx (train_query 1 2) ≠ queryIdx (train_query 1 2) ∧
  (Build new_TracksBuilder same_image_match).1 = true ∧
  ∃ c a b,
    c ∈ UnionFindEnum.classes (myTracksUF (Build new_TracksBuilder same_image_match).2) ∧
    a ∈ c.2 ∧ b ∈ c.2 ∧ a ≠ b ∧
    key_of (Build new_TracksBuilder same_image_match).2 a = Some (imgA, 1%Z) ∧
    key_of (Build new_TracksBuilder same_image_match).2 b = Some (imgA, 2%Z) ∧
    ¬ NoDup (class_images (Build new_TracksBuilder same_image_match).2 c) ∧
    (c ∉ UnionFindEnum.classes
           (myTracksUF (Filter 0 (Build new_TracksBuilder same_image_match).2).2)) ∧
    (∀ c', c' ∈ UnionFindEnum.classes
                  (myTracksUF (Filter 0 (Build new_TracksBuilder same_image_match).2).2) →
           (a ∉ c'.2) ∧ (b ∉ c'.2)).
Proof.
  assert (H1 : mkImagePair imgA imgA [train_query 1 2] ∈ same_image_match)
    by (unfold same_image_match; repeat constructor).
  assert (H2 : train_query 1 2 ∈ get_matches (mkImagePair imgA imgA [train_query 1 2]))
    by (simpl; repeat constructor).
  assert (H3 : first (mkImagePair imgA imgA [train_query 1 2])
               = second (mkImagePair imgA imgA [train_query 1 2])) by reflexivity.
  assert (H4 : trainIdx (train_query 1 2) ≠ queryIdx (train_query 1 2))
    by (simpl; lia).
  split; [exact H1|]. split; [exact H2|]. split; [exact H3|]. split; [exact H4|].
  exact (same_image_match_conflict same_image_match _ _ 0 H1 H2 H3 H4).
Defined.

(** * Where the code departs from the specification *)

(** C4 as stated does not hold. In the conflict scenario the class
    [{(A,1), (B,10), (B,20)}] has two members in image [B]; [ExportToSTL]
    reports nothing and returns a track map in which this class is track 0
    with two entries, the entry of [B] being the one of the last member. *)
Lemma ExportToSTL_conflict_absorbed :
  UnionFindEnum.classes (myTracksUF (Build new_TracksBuilder scenario_conflict).2)
    = [(1, [1; 0; 2])] ∧
  key_of (Build new_TracksBuilder scenario_conflict).2 1 = Some (imgB, 10%Z) ∧
  key_of (Build new_TracksBuilder scenario_conflict).2 2 = Some (imgB, 20%Z) ∧
  ExportToSTL (Build new_TracksBuilder scenario_conflict).2 ∅
    = {[ 0 := {[ imgA := 1%Z; imgB := 20%Z ]} ]}.
Proof. repeat split; vm_compute; reflexivity. Qed.

(** C5 as stated does not hold. Without a call of [Filter] the conflict
    scenario exports one track of length 2 while 3 node ids are present
    in the union-find. *)
Lemma export_completeness_without_Filter :
  total_track_length
    (ExportToSTL (run_filters (Build new_TracksBuilder scenario_conflict).2 []) ∅) = 2 ∧
  length (UnionFindEnum.items
    (myTracksUF (run_filters (Build new_TracksBuilder scenario_conflict).2 []))) = 3 ∧
  total_track_length
    (ExportToSTL (run_filters (Build new_TracksBuilder scenario_conflict).2 []) ∅) ≠
  length (UnionFindEnum.items
    (myTracksUF (run_filters (Build new_TracksBuilder scenario_conflict).2 []))).
Proof. repeat split; vm_compute; (reflexivity || lia). Qed.

(** C6 as stated does not hold. A match of feature 1 of image [A] with
    itself is accepted by [Build]; its class is a singleton, without any
    same-image conflict, and it survives [Filter 1]. *)
Lemma self_match_no_conflict :
  (Build new_TracksBuilder self_match).1 = true ∧
  UnionFindEnum.classes (myTracksUF (Build new_TracksBuilder self_match).2) = [(0, [0])] ∧
  class_images (Build new_TracksBuilder self_match).2 (0, [0]) = [imgA] ∧
  ¬ Filter_erases 1 (Build new_TracksBuilder self_match).2 (0, [0]) ∧
  UnionFindEnum.classes (myTracksUF (Filter 1 (Build new_TracksBuilder self_match).2).2)
    = [(0, [0])].
Proof.
  split; [reflexivity|]. split; [reflexivity|]. split; [reflexivity|].
  split; [|reflexivity]. vm_compute. lia.
Qed.

(** C7 as stated does not hold. A copy of a match that is put in before
    the match itself makes its union the first one, and the union by size
    then keeps another class. With the pair (B,C):[(10,100)] repeated in
    front of the two-track input, [Filter 2] followed by [ExportToSTL]
    gives the same two tracks under exchanged track ids. With the match
    (2,20) repeated at the head of the list of the zigzag pair, the one
    exported track changes its content: its members come in another order
    and the last member of each image decides the entry. *)
Lemma duplicate_match_first_changes_export :
  ((imgB, 10%Z), (imgC, 100%Z)) ∈ edges scenario_two_tracks ∧
  edges scenario_two_tracks_repeated_first
    = ((imgB, 10%Z), (imgC, 100%Z)) :: edges scenario_two_tracks ∧
  ExportToSTL (run_filters (Build new_TracksBuilder scenario_two_tracks).2 [CallFilter 2]) ∅
    = {[ 0 := {[ imgA := 1%Z; imgB := 10%Z; imgC := 100%Z ]};
         1 := {[ imgA := 2%Z; imgB := 20%Z ]} ]} ∧
  ExportToSTL
    (run_filters (Build new_TracksBuilder scenario_two_tracks_repeated_first).2 [CallFilter 2]) ∅
    = {[ 0 := {[ imgA := 2%Z; imgB := 20%Z ]};
         1 := {[ imgA := 1%Z; imgB := 10%Z; imgC := 100%Z ]} ]} ∧
  ExportToSTL
    (run_filters (Build new_TracksBuilder scenario_two_tracks_repeated_first).2 [CallFilter 2]) ∅
    ≠ ExportToSTL
        (run_filters (Build new_TracksBuilder scenario_two_tracks).2 [CallFilter 2]) ∅ ∧
  ((imgA, 2%Z), (imgB, 20%Z)) ∈ edges scenario_zigzag ∧
  edges scenario_zigzag_repeated_first
    = ((imgA, 2%Z), (imgB, 20%Z)) :: edges scenario_zigzag ∧
  ExportToSTL (run_filters (Build new_TracksBuilder scenario_zigzag).2 []) ∅
    = {[ 0 := {[ imgA := 2%Z; imgB := 20%Z ]} ]} ∧
  ExportToSTL (run_filters (Build new_TracksBuilder scenario_zigzag_repeated_first).2 []) ∅
    = {[ 0 := {[ imgA := 1%Z; imgB := 10%Z ]} ]} ∧
  ExportToSTL (run_filters (Build new_TracksBuilder scenario_zigzag_repeated_first).2 []) ∅
    ≠ ExportToSTL (run_filters (Build new_TracksBuilder scenario_zigzag).2 []) ∅.
Proof.
  split; [vm_compute; repeat constructor|]. split; [reflexivity|].
  split; [vm_compute; reflexivity|]. split; [vm_compute; reflexivity|].
  split.
  { intros H. apply (f_equal (λ m, m !! 0 ≫= (.!! imgC))) in H.
    vm_compute in H. discriminate H. }
  split; [vm_compute; repeat constructor|]. split; [reflexivity|].
  split; [vm_compute; reflexivity|]. split; [vm_compute; reflexivity|].
  intros H. apply (f_equal (λ m, m !! 0 ≫= (.!! imgA))) in H.
  vm_compute in H. discriminate H.
Qed.

(** * Further properties of the code *)

(** ** [flat_pair_map] *)

Section flat_pair_map_facts.
Context {T : Type} (ltb : T → T → bool) `{!StrictOrderB ltb}.

Lemma sort_insert_Permutation {V} (p : T * V) (l : list (T * V)) :
  sort_insert ltb p l ≡ₚ p :: l.
Proof.
  induction l as [|q l IH]; simpl; [done|].
  destruct (ltb p.1 q.1); [done|]. rewrite IH. apply Permutation_swap.
Qed.

Lemma flat_sort_Permutation {V} (m : list (T * V)) : flat_sort ltb m ≡ₚ m.
Proof.
  unfold flat_sort. induction m as [|p m IH]; simpl; [done|].
  by rewrite sort_insert_Permutation, IH.
Qed.

Lemma ltb_connex x y : x ≠ y → ltb x y = false → ltb y x = true.
Proof.
  intros Hne Hxy. destruct (ltb y x) eqn:Hyx; [done|].
  destruct Hne. by apply (ltb_total (ltb:=ltb)).
Qed.

Lemma sort_insert_ascending {V} (p : T * V) (l : list (T * V)) :
  ascending ltb l.*1 → p.1 ∉ l.*1 → ascending ltb (sort_insert ltb p l).*1.
Proof.
  induction l as [|q l IH]; csimpl.
  - intros _ _. repeat constructor.
  - intros Hs [Hne Hnin]%not_elem_of_cons. inversion Hs as [|? ? Hs' Hq]; subst.
    destruct (ltb p.1 q.1) eqn:Hpq; csimpl.
    + constructor; [done|]. constructor; [done|].
      eapply Forall_impl; [exact Hq|]. simpl. intros k Hk.
      eapply ltb_trans; eassumption.
    + constructor; [by apply IH|].
      apply Forall_forall. intros k Hk.
      assert (Hk' : k ∈ (p :: l).*1) by (by rewrite <-sort_insert_Permutation).
      csimpl in Hk'. apply elem_of_cons in Hk' as [->|Hk'].
      * by apply ltb_connex.
      * rewrite Forall_forall in Hq. by apply Hq.
Qed.

Lemma flat_sort_ascending {V} (m : list (T * V)) :
  NoDup m.*1 → ascending ltb (flat_sort ltb m).*1.
Proof.
  induction m as [|p m IH]; csimpl; [constructor|].
  intros [Hp Hm]%NoDup_cons. apply sort_insert_ascending; [by apply IH|].
  fold (flat_sort ltb m). by rewrite flat_sort_Permutation.
Qed.

(** X1. Round trip of [push_back], [sort] and [operator[]]: when the
    pairs pushed on a [flat_pair_map] have pairwise distinct keys, in any
    order, then after [sort()] the vector is ascending, holds the same
    pairs, and [find] and [operator[]] return for every pushed key the
    value pushed with it. *)
Theorem flat_pair_map_round_trip {V} (m_vec : list (T * V)) k v :
  NoDup m_vec.*1 → (k, v) ∈ m_vec →
  ascending ltb (flat_sort ltb m_vec).*1 ∧
  flat_sort ltb m_vec ≡ₚ m_vec ∧
  flat_find ltb (flat_sort ltb m_vec) k = Some (k, v) ∧
  flat_at ltb (flat_sort ltb m_vec) k = Some v.
Proof.
  intros Hnd Hin.
  pose proof (flat_sort_ascending m_vec Hnd) as Hasc.
  assert (Hin' : (k, v) ∈ flat_sort ltb m_vec) by (by rewrite flat_sort_Permutation).
  split; [done|]. split; [apply flat_sort_Permutation|].
  split; [by apply flat_find_sorted|by apply flat_at_sorted].
Qed.

Lemma flat_find_None {V} (m : list (T * V)) k :
  (∀ p, p ∈ m → ltb p.1 k = true) → flat_find ltb m k = None.
Proof.
  unfold flat_find. induction m as [|q m IH]; simpl; [done|].
  intros Hall. rewrite (Hall q) by left. apply IH. intros p Hp. apply Hall. by right.
Qed.

(** X2. A key that is missing is not reported. On a sorted vector [find]
    returns the entry with the least key above the one asked for, and
    [end()] only when every key is below it; so [operator[]] hands out
    the value of another key, or dereferences [end()]. *)
Theorem flat_find_missing_key {V} (m_vec : list (T * V)) k :
  ascending ltb m_vec.*1 → k ∉ m_vec.*1 →
  match flat_find ltb m_vec k with
  | None => flat_at ltb m_vec k = None ∧ ∀ p, p ∈ m_vec → ltb p.1 k = true
  | Some p =>
      flat_at ltb m_vec k = Some p.2 ∧ p ∈ m_vec ∧ ltb k p.1 = true ∧
      ∀ q, q ∈ m_vec → ltb k q.1 = true → q = p ∨ ltb p.1 q.1 = true
  end.
Proof.
  unfold flat_at, flat_find. induction m_vec as [|q m IH]; csimpl.
  { intros _ _. split; [done|]. by intros p ?%elem_of_nil. }
  intros Hs [Hne Hnin]%not_elem_of_cons. inversion Hs as [|? ? Hs' Hq]; subst.
  rewrite Forall_forall in Hq.
  destruct (ltb q.1 k) eqn:Hqk.
  - specialize (IH Hs' Hnin). destruct (head (lower_bound ltb m k)) as [p|]; simpl in *.
    + destruct IH as (H1 & H2 & H3 & H4). split; [done|]. split; [by right|].
      split; [done|]. intros r [->|Hr]%elem_of_cons Hkr; [|by apply H4].
      pose proof (ltb_trans _ _ _ Hqk Hkr) as Habs. by rewrite ltb_irrefl in Habs.
    + destruct IH as [_ IH]. split; [done|]. intros p [->|Hp]%elem_of_cons; auto.
  - simpl. split; [done|]. split; [left|]. split; [by apply ltb_connex|].
    intros r [->|Hr]%elem_of_cons _; [by left|]. right.
    apply Hq, list_elem_of_fmap. by exists r.
Qed.
End flat_pair_map_facts.

Lemma flat_pair_map_round_trip_witness :
  NoDup [(3, 30); (1, 10); (2, 20)].*1 ∧ (2, 20) ∈ [(3, 30); (1, 10); (2, 20)] ∧
  ascending Nat.ltb (flat_sort Nat.ltb [(3, 30); (1, 10); (2, 20)]).*1 ∧
  flat_sort Nat.ltb [(3, 30); (1, 10); (2, 20)] ≡ₚ [(3, 30); (1, 10); (2, 20)] ∧
  flat_find Nat.ltb (flat_sort Nat.ltb [(3, 30); (1, 10); (2, 20)]) 2 = Some (2, 20) ∧
  flat_at Nat.ltb (flat_sort Nat.ltb [(3, 30); (1, 10); (2, 20)]) 2 = Some 20.
Proof.
  assert (H1 : NoDup [(3, 30); (1, 10); (2, 20)].*1)
    by (apply (bool_decide_unpack _); vm_compute; exact I).
  assert (H2 : (2, 20) ∈ [(3, 30); (1, 10); (2, 20)]) by (repeat constructor).
  split; [exact H1|]. split; [exact H2|].
  exact (flat_pair_map_round_trip Nat.ltb [(3, 30); (1, 10); (2, 20)] 2 20 H1 H2).
Defined.

Lemma flat_find_missing_key_witness :
  ascending Nat.ltb [(1, 10); (3, 30)].*1 ∧ (2 ∉ [(1, 10); (3, 30)].*1) ∧
  match flat_find Nat.ltb [(1, 10); (3, 30)] 2 with
  | None => flat_at Nat.ltb [(1, 10); (3, 30)] 2 = None ∧
            ∀ p, p ∈ [(1, 10); (3, 30)] → (p.1 <? 2) = true
  | Some p =>
      flat_at Nat.ltb [(1, 10); (3, 30)] 2 = Some p.2 ∧ p ∈ [(1, 10); (3, 30)] ∧
      (2 <? p.1) = true ∧
      ∀ q, q ∈ [(1, 10); (3, 30)] → (2 <? q.1) = true → q = p ∨ (p.1 <? q.1) = true
  end.
Proof.
  assert (H1 : ascending Nat.ltb [(1, 10); (3, 30)].*1)
    by (repeat constructor).
  assert (H2 : 2 ∉ [(1, 10); (3, 30)].*1)
    by (apply (bool_decide_unpack _); vm_compute; exact I).
  split; [exact H1|]. split; [exact H2|].
  exact (flat_find_missing_key Nat.ltb [(1, 10); (3, 30)] 2 H1 H2).
Defined.

(** ** [Build] *)

Lemma edges_without_matches image_pairs :
  (∀ image_pair, image_pair ∈ image_pairs → get_matches image_pair = []) →
  edges image_pairs = [].
Proof.
  induction image_pairs as [|ip ips IH]; intros Hall; [done|].
  rewrite edges_cons, (Hall ip) by left. simpl. apply IH.
  intros ip' ?. apply Hall. by right.
Qed.

(** X3. Input without any match (no pair at all, or pairs whose match
    lists are empty): [Build] returns [true] and creates no node; the graph
    and [reverse_my_Map] stay empty and the union-find it allocates has no
    class. [NbTracks] is then 0 and [ExportToSTL] yields the empty map. *)
Theorem Build_without_matches image_pairs out :
  (∀ image_pair, image_pair ∈ image_pairs → get_matches image_pair = []) →
  (Build new_TracksBuilder image_pairs).1 = true ∧
  g (Build new_TracksBuilder image_pairs).2 = 0 ∧
  reverse_my_Map (Build new_TracksBuilder image_pairs).2 = [] ∧
  UnionFindEnum.classes (myTracksUF (Build new_TracksBuilder image_pairs).2) = [] ∧
  NbTracks (Build new_TracksBuilder image_pairs).2 = 0 ∧
  ExportToSTL (Build new_TracksBuilder image_pairs).2 out = ∅.
Proof.
  intros Hall%edges_without_matches.
  rewrite Build_new, Build_collect_edges, Hall. by repeat split.
Qed.

Lemma Build_without_matches_witness :
  (∀ image_pair, image_pair ∈ [mkImagePair imgA imgB []; mkImagePair imgB imgC []] →
     get_matches image_pair = []) ∧
  (Build new_TracksBuilder [mkImagePair imgA imgB []; mkImagePair imgB imgC []]).1 = true ∧
  g (Build new_TracksBuilder [mkImagePair imgA imgB []; mkImagePair imgB imgC []]).2 = 0 ∧
  reverse_my_Map (Build new_TracksBuilder [mkImagePair imgA imgB []; mkImagePair imgB imgC []]).2
    = [] ∧
  UnionFindEnum.classes
    (myTracksUF (Build new_TracksBuilder [mkImagePair imgA imgB []; mkImagePair imgB imgC []]).2)
    = [] ∧
  NbTracks (Build new_TracksBuilder [mkImagePair imgA imgB []; mkImagePair imgB imgC []]).2 = 0 ∧
  ExportToSTL (Build new_TracksBuilder [mkImagePair imgA imgB []; mkImagePair imgB imgC []]).2 ∅
    = ∅.
Proof.
  assert (H : ∀ image_pair,
            image_pair ∈ [mkImagePair imgA imgB []; mkImagePair imgB imgC []] →
            get_matches image_pair = []).
  { intros ip Hip. apply list_elem_of_In in Hip. simpl in Hip.
    destruct Hip as [<-|[<-|[]]]; reflexivity. }
  split; [exact H|].
  exact (Build_without_matches [mkImagePair imgA imgB []; mkImagePair imgB imgC []] ∅ H).
Defined.

Lemma key_of_Build image_pairs i :
  key_of (Build new_TracksBuilder image_pairs).2 i = Build_collect image_pairs !! i.
Proof.
  destruct (Build_collect image_pairs !! i) as [k|] eqn:Hi.
  - by apply Build_lookup.
  - rewrite Build_new. unfold key_of, flat_at. simpl.
    rewrite (flat_find_None Nat.ltb); [done|].
    intros [j k] [n Hn]%list_elem_of_lookup. simpl.
    apply lookup_zip_with_Some in Hn as (j' & k' & [= <- <-] & Hj & Hk).
    apply lookup_seq in Hj as [-> _]. simpl.
    apply lookup_ge_None in Hi. apply lookup_lt_Some in Hk. apply Nat.ltb_lt. lia.
Qed.

Lemma g_Build image_pairs :
  g (Build new_TracksBuilder image_pairs).2 = length (Build_collect image_pairs).
Proof. by rewrite Build_new. Qed.

Lemma ascending_lookup_lt (K : list indexedFeaturePair) i j ki kj :
  ascending pair_ltb K → K !! i = Some ki → K !! j = Some kj → i < j →
  pair_ltb ki kj = true.
Proof.
  intros Hasc. revert i j. induction Hasc as [|k K Hs IH Hk]; intros i j; [done|].
  destruct i as [|i], j as [|j]; simpl; try lia.
  - intros [= <-] Hj _. rewrite Forall_forall in Hk.
    by apply Hk, list_elem_of_lookup_2 with j.
  - intros Hi Hj ?. apply (IH i j); [done..|lia].
Qed.

(** X4. The node registry [Build] leaves. The graph has one node per
    distinct node key of the input; [reverse_my_Map] resolves exactly the
    ids below that number, its values are exactly the node keys of the
    input, and the ids follow the order of the keys (so two ids never
    resolve to one key). *)
Theorem Build_registry image_pairs :
  g (Build new_TracksBuilder image_pairs).2 = length (remove_dups (endpoints image_pairs)) ∧
  (∀ i, i < g (Build new_TracksBuilder image_pairs).2
        ↔ is_Some (key_of (Build new_TracksBuilder image_pairs).2 i)) ∧
  (∀ k, k ∈ endpoints image_pairs
        ↔ ∃ i, key_of (Build new_TracksBuilder image_pairs).2 i = Some k) ∧
  (∀ i j ki kj,
     key_of (Build new_TracksBuilder image_pairs).2 i = Some ki →
     key_of (Build new_TracksBuilder image_pairs).2 j = Some kj →
     i < j ↔ pair_ltb ki kj = true).
Proof.
  pose proof (Build_collect_ascending image_pairs) as Hasc.
  split; [|split; [|split]].
  - rewrite g_Build, Build_collect_eq. apply (set_of_list_length pair_ltb).
  - intros i. rewrite g_Build, key_of_Build. symmetry. apply lookup_lt_is_Some.
  - intros k. rewrite <-elem_of_Build_collect, list_elem_of_lookup.
    by setoid_rewrite key_of_Build.
  - intros i j ki kj. rewrite !key_of_Build. intros Hi Hj. split.
    + by apply (ascending_lookup_lt (Build_collect image_pairs) i j).
    + intros Hlt. destruct (decide (i < j)) as [|Hge]; [done|]. exfalso.
      destruct (decide (i = j)) as [->|Hne].
      * assert (ki = kj) as -> by congruence.
        by rewrite (ltb_irrefl (ltb:=pair_ltb)) in Hlt.
      * assert (pair_ltb kj ki = true) as Hlt'
          by (apply (ascending_lookup_lt (Build_collect image_pairs) j i); [done..|lia]).
        pose proof (ltb_trans (ltb:=pair_ltb) _ _ _ Hlt Hlt') as Habs.
        by rewrite (ltb_irrefl (ltb:=pair_ltb)) in Habs.
Qed.

(** The node ids in the union-find through [insert] and [join]. *)
Lemma filter_all {A} (P : A → Prop) `{!∀ x, Decision (P x)} (l : list A) :
  (∀ x, x ∈ l → P x) → filter P l = l.
Proof.
  induction l as [|x l IH]; intros Hall; [done|].
  rewrite filter_cons, decide_True by (apply Hall; left).
  f_equal. apply IH. intros y ?. apply Hall. by right.
Qed.

Lemma fmap_fixed {A} (f : A → A) (l : list A) :
  (∀ x, x ∈ l → f x = x) → f <$> l = l.
Proof.
  induction l as [|x l IH]; intros Hall; csimpl; [done|].
  rewrite Hall by left. f_equal. apply IH. intros y ?. apply Hall. by right.
Qed.

Lemma unlinked_class_items (cs : list (nat * list Node)) d :
  NoDup cs.*1 → d ∈ cs →
  concat cs.*2 ≡ₚ d.2 ++ concat (filter (λ c, c.1 ≠ d.1) cs).*2.
Proof.
  induction cs as [|c cs IH]; csimpl; [by intros _ ?%elem_of_nil|].
  intros [Hc Hcs]%NoDup_cons [->|Hd]%elem_of_cons.
  - rewrite filter_cons, decide_False by (intros ?; done).
    rewrite filter_all; [done|]. intros c' Hc' Heq. apply Hc.
    rewrite <-Heq. apply list_elem_of_fmap. by exists c'.
  - rewrite filter_cons, decide_True.
    + csimpl. rewrite (IH Hcs Hd) at 1. apply Permutation_app_swap_app.
    + intros Heq. apply Hc. rewrite Heq. apply list_elem_of_fmap. by exists d.
Qed.

Lemma extended_class_items (cs : list (nat * list Node)) keep (x : list Node) :
  NoDup cs.*1 → keep ∈ cs →
  concat ((λ c, if decide (c.1 = keep.1) then (c.1, c.2 ++ x) else c) <$> cs).*2
    ≡ₚ concat cs.*2 ++ x.
Proof.
  induction cs as [|c cs IH]; csimpl; [by intros _ ?%elem_of_nil|].
  intros [Hc Hcs]%NoDup_cons [->|Hk]%elem_of_cons.
  - rewrite decide_True by done. simpl. rewrite fmap_fixed.
    + rewrite <-!app_assoc. apply Permutation_app_head, Permutation_app_comm.
    + intros c' Hc'. rewrite decide_False; [done|]. intros Heq. apply Hc.
      rewrite <-Heq. apply list_elem_of_fmap. by exists c'.
  - rewrite decide_False.
    + rewrite (IH Hcs Hk). by rewrite app_assoc.
    + intros Heq. apply Hc. rewrite Heq. apply list_elem_of_fmap. by exists keep.
Qed.

Lemma absorb_items keep drop (cs : list (nat * list Node)) :
  NoDup cs.*1 → keep ∈ cs → drop ∈ cs → keep.1 ≠ drop.1 →
  concat (UnionFindEnum.absorb keep drop cs).*2 ≡ₚ concat cs.*2.
Proof.
  intros Hnd Hkeep Hdrop Hne. unfold UnionFindEnum.absorb.
  rewrite extended_class_items.
  - rewrite (unlinked_class_items cs drop) by done. apply Permutation_app_comm.
  - by apply UnionFindFacts.NoDup_ids_filter.
  - by apply list_elem_of_filter.
Qed.

Lemma join_items uf a b :
  UnionFindEnum.wf (UnionFindEnum.classes uf) →
  UnionFindEnum.items (UnionFindEnum.join uf a b) ≡ₚ UnionFindEnum.items uf ∧
  ((∀ c, c ∈ UnionFindEnum.classes uf → c.2 ≠ []) →
   ∀ c, c ∈ UnionFindEnum.classes (UnionFindEnum.join uf a b) → c.2 ≠ []).
Proof.
  intros [Hnd Hdis]. unfold UnionFindEnum.join, UnionFindEnum.items.
  destruct (UnionFindEnum.find_class (UnionFindEnum.classes uf) a) as [ca|] eqn:Ha; [|done].
  destruct (UnionFindEnum.find_class (UnionFindEnum.classes uf) b) as [cb|] eqn:Hb; [|done].
  apply UnionFindFacts.find_class_Some in Ha as [Hca Ha], Hb as [Hcb Hb].
  destruct (decide (ca.1 = cb.1)) as [|Hne]; [done|].
  destruct (decide (length cb.2 < length ca.2)); simpl.
  - split; [by apply absorb_items|]. intros Hall c.
    rewrite UnionFindFacts.elem_of_absorb by done.
    intros [->|[Hc _]]; [|by apply Hall]. simpl.
    intros [Hnil _]%app_eq_nil. by apply (Hall ca).
  - split; [apply absorb_items; auto|]. intros Hall c.
    rewrite UnionFindFacts.elem_of_absorb by auto.
    intros [->|[Hc _]]; [|by apply Hall]. simpl.
    intros [Hnil _]%app_eq_nil. by apply (Hall cb).
Qed.

Lemma join_edge_fold_items my_Map l uf :
  UnionFindEnum.wf (UnionFindEnum.classes uf) →
  UnionFindEnum.wf (UnionFindEnum.classes (foldl (join_edge my_Map) uf l)) ∧
  UnionFindEnum.items (foldl (join_edge my_Map) uf l) ≡ₚ UnionFindEnum.items uf ∧
  ((∀ c, c ∈ UnionFindEnum.classes uf → c.2 ≠ []) →
   ∀ c, c ∈ UnionFindEnum.classes (foldl (join_edge my_Map) uf l) → c.2 ≠ []).
Proof.
  revert uf. induction l as [|e l IH]; intros uf Hwf; simpl; [done|].
  assert (Hstep : UnionFindEnum.wf (UnionFindEnum.classes (join_edge my_Map uf e)) ∧
    UnionFindEnum.items (join_edge my_Map uf e) ≡ₚ UnionFindEnum.items uf ∧
    ((∀ c, c ∈ UnionFindEnum.classes uf → c.2 ≠ []) →
     ∀ c, c ∈ UnionFindEnum.classes (join_edge my_Map uf e) → c.2 ≠ [])).
  { unfold join_edge.
    destruct (flat_at pair_ltb my_Map e.1); [|done].
    destruct (flat_at pair_ltb my_Map e.2); [|done].
    split; [by apply UnionFindFacts.wf_join|]. by apply join_items. }
  destruct Hstep as (Hwf' & Hitems & Hne).
  destruct (IH _ Hwf') as (IH1 & IH2 & IH3).
  split; [done|]. split; [by rewrite IH2|]. auto.
Qed.

Lemma insert_fold_items (l : list Node) uf :
  UnionFindEnum.items (foldl UnionFindEnum.insert uf l) ≡ₚ l ++ UnionFindEnum.items uf ∧
  ((∀ c, c ∈ UnionFindEnum.classes uf → c.2 ≠ []) →
   ∀ c, c ∈ UnionFindEnum.classes (foldl UnionFindEnum.insert uf l) → c.2 ≠ []).
Proof.
  revert uf. induction l as [|x l IH]; intros uf; simpl; [done|].
  destruct (IH (UnionFindEnum.insert uf x)) as [IH1 IH2]. split.
  - rewrite IH1. unfold UnionFindEnum.items, UnionFindEnum.insert. simpl.
    by rewrite Permutation_middle.
  - intros Hall. apply IH2. intros c. unfold UnionFindEnum.insert. simpl.
    intros [->|?]%elem_of_cons; [done|by apply Hall].
Qed.

Lemma classes_le_items (cs : list (nat * list Node)) :
  (∀ c, c ∈ cs → c.2 ≠ []) → length cs ≤ length (concat cs.*2).
Proof.
  induction cs as [|c cs IH]; intros Hall; csimpl; [done|].
  rewrite length_app. assert (c.2 ≠ []) by (apply Hall; left).
  assert (length cs ≤ length (concat cs.*2)) by (apply IH; intros c' ?; apply Hall; by right).
  destruct c.2; [done|]. simpl. lia.
Qed.

Lemma Build_items image_pairs :
  UnionFindEnum.items (myTracksUF (Build new_TracksBuilder image_pairs).2)
    ≡ₚ seq 0 (g (Build new_TracksBuilder image_pairs).2) ∧
  (∀ c, c ∈ UnionFindEnum.classes (myTracksUF (Build new_TracksBuilder image_pairs).2) →
        c.2 ≠ []).
Proof.
  rewrite Build_new. simpl.
  destruct (NodeIt_classes (length (Build_collect image_pairs))) as [Hwf _].
  destruct (join_edge_fold_items (Build_my_Map new_TracksBuilder image_pairs)
    (edges image_pairs) _ Hwf) as (_ & Hitems & Hne).
  destruct (insert_fold_items (NodeIt (length (Build_collect image_pairs)))
    UnionFindEnum.empty) as [Hitems0 Hne0].
  split.
  - rewrite Hitems, Hitems0. unfold NodeIt, UnionFindEnum.items. simpl.
    by rewrite app_nil_r, reverse_Permutation.
  - apply Hne, Hne0. intros c Hc. by apply elem_of_nil in Hc.
Qed.

(** X5. [Build] loses no node and duplicates none: the members of the
    classes, taken together, are the node ids [0 .. g-1], each exactly
    once; no class is empty, so there are at most as many tracks as
    nodes. *)
Theorem Build_partition image_pairs :
  UnionFindEnum.items (myTracksUF (Build new_TracksBuilder image_pairs).2)
    ≡ₚ seq 0 (g (Build new_TracksBuilder image_pairs).2) ∧
  NoDup (UnionFindEnum.items (myTracksUF (Build new_TracksBuilder image_pairs).2)) ∧
  (∀ c, c ∈ UnionFindEnum.classes (myTracksUF (Build new_TracksBuilder image_pairs).2) →
        c.2 ≠ []) ∧
  NbTracks (Build new_TracksBuilder image_pairs).2
    ≤ g (Build new_TracksBuilder image_pairs).2.
Proof.
  destruct (Build_items image_pairs) as [Hperm Hne].
  split; [done|]. split; [rewrite Hperm; apply NoDup_seq|]. split; [done|].
  rewrite NbTracks_length.
  etrans; [by apply classes_le_items|].
  unfold UnionFindEnum.items in Hperm. by rewrite Hperm, length_seq.
Qed.

(** ** [Filter] *)

Lemma filter_ext_elem_of {A} (P Q : A → Prop) `{!∀ x, Decision (P x), !∀ x, Decision (Q x)}
    (l : list A) :
  (∀ x, x ∈ l → P x ↔ Q x) → filter P l = filter Q l.
Proof.
  induction l as [|x l IH]; intros Hall; [done|].
  rewrite !filter_cons. assert (P x ↔ Q x) by (apply Hall; left).
  rewrite IH by (intros y ?; apply Hall; by right).
  destruct (decide (P x)), (decide (Q x)); tauto.
Qed.

(** The classes [Filter] leaves, as a list. *)
Lemma Filter_classes_eq k tb :
  NoDup (UnionFindEnum.classes (myTracksUF tb)).*1 →
  UnionFindEnum.classes (myTracksUF (Filter k tb).2) =
    filter (λ c, ¬ Filter_erases k tb c) (UnionFindEnum.classes (myTracksUF tb)).
Proof.
  intros Hnd. unfold Filter. simpl.
  match goal with |- context [foldl UnionFindEnum.eraseClass ?uf ?ids] =>
    destruct (UnionFindFacts.eraseClass_fold ids uf) as [-> _] end.
  apply filter_ext_elem_of. intros c Hc. rewrite Filter_set_from. split.
  - intros Hn He. apply Hn. right. by exists c.
  - intros Hn [?%elem_of_nil|(c' & Hc' & Heq & He)]; [done|].
    apply (UnionFindFacts.NoDup_ids_eq _ c' c Hnd) in Heq; [|done..]. by subst.
Qed.

Lemma TracksBuilder_eq tb1 tb2 :
  g tb1 = g tb2 → reverse_my_Map tb1 = reverse_my_Map tb2 →
  UnionFindEnum.classes (myTracksUF tb1) = UnionFindEnum.classes (myTracksUF tb2) →
  UnionFindEnum.nextClass (myTracksUF tb1) = UnionFindEnum.nextClass (myTracksUF tb2) →
  tb1 = tb2.
Proof.
  destruct tb1 as [g1 r1 [c1 n1]], tb2 as [g2 r2 [c2 n2]]. simpl. by intros -> -> -> ->.
Qed.

Lemma Filter_frame k tb :
  g (Filter k tb).2 = g tb ∧ reverse_my_Map (Filter k tb).2 = reverse_my_Map tb ∧
  UnionFindEnum.nextClass (myTracksUF (Filter k tb).2) = UnionFindEnum.nextClass (myTracksUF tb).
Proof.
  unfold Filter. simpl. split; [done|]. split; [done|].
  apply UnionFindFacts.eraseClass_fold.
Qed.

(** X6. Two calls of [Filter] amount to one call with the larger bound:
    [Filter k'] after [Filter k] leaves the builder [Filter (max k k')]
    leaves. In particular [Filter k] is idempotent. *)
Theorem Filter_Filter k k' tb :
  NoDup (UnionFindEnum.classes (myTracksUF tb)).*1 →
  (Filter k' (Filter k tb).2).2 = (Filter (k `max` k') tb).2 ∧
  (Filter k (Filter k tb).2).2 = (Filter k tb).2.
Proof.
  intros Hnd.
  assert (Hgen : ∀ k1 k2, (Filter k2 (Filter k1 tb).2).2 = (Filter (k1 `max` k2) tb).2).
  { intros k1 k2.
    destruct (Filter_frame k1 tb) as (Hg1 & Hr1 & Hn1).
    destruct (Filter_frame k2 (Filter k1 tb).2) as (Hg2 & Hr2 & Hn2).
    destruct (Filter_frame (k1 `max` k2) tb) as (Hg3 & Hr3 & Hn3).
    apply TracksBuilder_eq; [congruence..| |congruence].
    rewrite (Filter_classes_eq k2) by (by apply Filter_NoDup_ids).
    rewrite !Filter_classes_eq by done.
    rewrite list_filter_filter. apply list_filter_iff. intros c.
    change (Filter_erases k2 (Filter k1 tb).2 c) with (Filter_erases k2 tb c).
    unfold Filter_erases. simpl. lia. }
  split; [apply Hgen|]. rewrite Hgen. by rewrite Nat.max_id.
Qed.

Lemma Filter_Filter_witness :
  NoDup (UnionFindEnum.classes (myTracksUF (Build new_TracksBuilder scenario_chain).2)).*1 ∧
  (Filter 3 (Filter 2 (Build new_TracksBuilder scenario_chain).2).2).2
    = (Filter (2 `max` 3) (Build new_TracksBuilder scenario_chain).2).2 ∧
  (Filter 2 (Filter 2 (Build new_TracksBuilder scenario_chain).2).2).2
    = (Filter 2 (Build new_TracksBuilder scenario_chain).2).2.
Proof.
  assert (H : NoDup (UnionFindEnum.classes
                (myTracksUF (Build new_TracksBuilder scenario_chain).2)).*1)
    by (vm_compute; apply (bool_decide_unpack _); vm_compute; exact I).
  split; [exact H|].
  exact (Filter_Filter 2 3 (Build new_TracksBuilder scenario_chain).2 H).
Defined.

(** X7. [Filter 0] and [Filter 1] leave the same builder when no class
    is empty: below 2 the length bound erases nothing, only conflicts
    do. *)
Theorem Filter_0_1 tb :
  NoDup (UnionFindEnum.classes (myTracksUF tb)).*1 →
  (∀ c, c ∈ UnionFindEnum.classes (myTracksUF tb) → c.2 ≠ []) →
  (Filter 0 tb).2 = (Filter 1 tb).2 ∧
  ∀ c, c ∈ UnionFindEnum.classes (myTracksUF tb) →
    c ∈ UnionFindEnum.classes (myTracksUF (Filter 1 tb).2) ↔
    length (class_images tb c) = length c.2 ∧ NoDup (class_images tb c).
Proof.
  intros Hnd Hne.
  assert (Hlen : ∀ c, c ∈ UnionFindEnum.classes (myTracksUF tb) → 0 < length c.2).
  { intros c Hc. specialize (Hne c Hc). destruct c.2; [done|]. simpl. lia. }
  split.
  - destruct (Filter_frame 0 tb) as (Hg1 & Hr1 & Hn1).
    destruct (Filter_frame 1 tb) as (Hg2 & Hr2 & Hn2).
    apply TracksBuilder_eq; [congruence..| |congruence].
    rewrite !Filter_classes_eq by done. apply filter_ext_elem_of.
    intros c Hc%Hlen. unfold Filter_erases. simpl. lia.
  - intros c Hc. rewrite Filter_classes by done. specialize (Hlen c Hc).
    pose proof (remove_dups_length_le (class_images tb c)).
    pose proof (omap_length_le (image_of tb) c.2). fold (class_images tb c) in *.
    rewrite <-remove_dups_length_NoDup. unfold Filter_erases. simpl. split.
    + intros [_ Hn]. split; lia.
    + intros [H1 H2]. split; [done|]. lia.
Qed.

Lemma Filter_0_1_witness :
  NoDup (UnionFindEnum.classes (myTracksUF (Build new_TracksBuilder self_match).2)).*1 ∧
  (∀ c, c ∈ UnionFindEnum.classes (myTracksUF (Build new_TracksBuilder self_match).2) →
        c.2 ≠ []) ∧
  (Filter 0 (Build new_TracksBuilder self_match).2).2
    = (Filter 1 (Build new_TracksBuilder self_match).2).2 ∧
  ∀ c, c ∈ UnionFindEnum.classes (myTracksUF (Build new_TracksBuilder self_match).2) →
    c ∈ UnionFindEnum.classes (myTracksUF (Filter 1 (Build new_TracksBuilder self_match).2).2) ↔
    length (class_images (Build new_TracksBuilder self_match).2 c) = length c.2 ∧
    NoDup (class_images (Build new_TracksBuilder self_match).2 c).
Proof.
  assert (H1 : NoDup (UnionFindEnum.classes
                 (myTracksUF (Build new_TracksBuilder self_match).2)).*1)
    by (vm_compute; apply (bool_decide_unpack _); vm_compute; exact I).
  assert (H2 : ∀ c, c ∈ UnionFindEnum.classes
                          (myTracksUF (Build new_TracksBuilder self_match).2) → c.2 ≠ []).
  { intros c Hc. apply list_elem_of_In in Hc. vm_compute in Hc.
    destruct Hc as [<-|[]]. simpl. discriminate. }
  split; [exact H1|]. split; [exact H2|].
  exact (Filter_0_1 (Build new_TracksBuilder self_match).2 H1 H2).
Defined.

(** ** Filter calls in sequence *)

Lemma run_filters_only_erase_frame tb calls :
  reverse_my_Map (run_filters tb calls) = reverse_my_Map tb ∧
  ∀ c, c ∈ UnionFindEnum.classes (myTracksUF (run_filters tb calls)) →
       c ∈ UnionFindEnum.classes (myTracksUF tb).
Proof.
  revert tb. induction calls as [|call calls IH]; intros tb; simpl; [done|].
  destruct (IH (run_filter tb call)) as (IH1 & IH2).
  destruct (run_filter_erases tb call) as [Hrev [ids Hids]].
  split; [by rewrite IH1|]. intros c Hc%IH2. rewrite Hids in Hc.
  by apply list_elem_of_filter in Hc as [_ ?].
Qed.

(** X8. Filters only erase. After any sequence of filter calls the graph
    and [reverse_my_Map] are what they were, the classes that are left
    are classes of the builder before, unchanged and in the same order,
    and [NbTracks] has not grown. *)
Theorem run_filters_only_erase tb calls :
  g (run_filters tb calls) = g tb ∧
  reverse_my_Map (run_filters tb calls) = reverse_my_Map tb ∧
  UnionFindEnum.classes (myTracksUF (run_filters tb calls))
    `sublist_of` UnionFindEnum.classes (myTracksUF tb) ∧
  NbTracks (run_filters tb calls) ≤ NbTracks tb.
Proof.
  assert (Hsub : g (run_filters tb calls) = g tb ∧
    reverse_my_Map (run_filters tb calls) = reverse_my_Map tb ∧
    UnionFindEnum.classes (myTracksUF (run_filters tb calls))
      `sublist_of` UnionFindEnum.classes (myTracksUF tb)).
  { revert tb. induction calls as [|call calls IH]; intros tb; simpl; [done|].
    destruct (IH (run_filter tb call)) as (IH1 & IH2 & IH3).
    destruct (run_filter_erases tb call) as [Hrev [ids Hids]].
    split; [|split].
    - rewrite IH1. by destruct call.
    - by rewrite IH2.
    - etrans; [exact IH3|]. rewrite Hids. apply sublist_filter. }
  destruct Hsub as (H1 & H2 & H3). split; [done|]. split; [done|]. split; [done|].
  rewrite !NbTracks_length. by apply sublist_length.
Qed.

(** ** [FilterPairWiseMinimumMatches] *)

Lemma crossImages_small min (m : list (ImageId * list nat)) vec :
  min ≤ 1 → crossImages min m vec = vec.
Proof.
  intros Hmin. revert vec. induction m as [|p m IH]; intros vec; [done|].
  rewrite crossImages_cons, IH. generalize (p :: m). intros l. revert vec.
  induction l as [|q l IHl]; intros vec; simpl; [done|].
  rewrite IHl. destruct (Nat.ltb_spec (length (set_intersection Nat.ltb p.2 q.2)) min);
    [|done].
  destruct (set_intersection Nat.ltb p.2 q.2); [by rewrite app_nil_r|]. simpl in *. lia.
Qed.

(** X9. A bound of 0 or 1 makes [FilterPairWiseMinimumMatches] do
    nothing: an intersection with less than one element holds no track, so
    no class is erased and the builder is left as it is. *)
Theorem FilterPairWiseMinimumMatches_small min tb :
  min ≤ 1 → FilterPairWiseMinimumMatches min tb = (true, tb).
Proof.
  intros Hmin. unfold FilterPairWiseMinimumMatches.
  rewrite crossImages_small by done. simpl. by destruct tb.
Qed.

Lemma FilterPairWiseMinimumMatches_small_witness :
  1 ≤ 1 ∧
  FilterPairWiseMinimumMatches 1 (Build new_TracksBuilder scenario_support).2
    = (true, (Build new_TracksBuilder scenario_support).2).
Proof.
  assert (H : 1 ≤ 1) by lia.
  split; [exact H|].
  exact (FilterPairWiseMinimumMatches_small 1 (Build new_TracksBuilder scenario_support).2 H).
Defined.

(** The classes [FilterPairWiseMinimumMatches] leaves. *)
Lemma FilterPairWiseMinimumMatches_classes min tb c :
  NoDup (UnionFindEnum.classes (myTracksUF tb)).*1 →
  c ∈ UnionFindEnum.classes (myTracksUF (FilterPairWiseMinimumMatches min tb).2) ↔
    c ∈ UnionFindEnum.classes (myTracksUF tb) ∧ ¬ marked min tb c.1.
Proof.
  intros Hnd. unfold FilterPairWiseMinimumMatches. simpl.
  match goal with |- context [foldl UnionFindEnum.eraseClass ?uf ?ids] =>
    destruct (UnionFindFacts.eraseClass_fold ids uf) as [-> _] end.
  rewrite list_elem_of_filter, elem_of_vec_unique, (elem_of_vec_sort Nat.ltb).
  rewrite crossImages_marked by done. tauto.
Qed.

Lemma shared_diagonal tb I : shared tb I I = TracksByImage tb I.
Proof. unfold shared. by apply filter_all. Qed.

Lemma elem_of_shared tb I J t :
  t ∈ shared tb I J ↔ t ∈ TracksByImage tb I ∧ t ∈ TracksByImage tb J.
Proof. unfold shared. rewrite list_elem_of_filter. tauto. Qed.

Lemma shared_length_sym tb I J :
  NoDup (UnionFindEnum.classes (myTracksUF tb)).*1 →
  length (shared tb I J) = length (shared tb J I).
Proof.
  intros Hnd. apply Permutation_length, NoDup_Permutation.
  - by apply NoDup_filter, NoDup_TracksByImage.
  - by apply NoDup_filter, NoDup_TracksByImage.
  - intros t. rewrite !elem_of_shared. tauto.
Qed.

(** X10. The diagonal of the pair loop. A class with a member in an
    image that is seen by less than [min] classes is erased: every image
    is also compared with itself, so the bound applies to the number of
    tracks of each single image. *)
Theorem FilterPairWiseMinimumMatches_diagonal min tb c I :
  NoDup (UnionFindEnum.classes (myTracksUF tb)).*1 →
  c ∈ UnionFindEnum.classes (myTracksUF tb) →
  I ∈ class_images tb c →
  length (TracksByImage tb I) < min →
  c ∉ UnionFindEnum.classes (myTracksUF (FilterPairWiseMinimumMatches min tb).2).
Proof.
  intros Hnd Hc HI Hlen [_ Hn]%FilterPairWiseMinimumMatches_classes; [|done].
  apply Hn. exists I, I. rewrite shared_diagonal. split; [done|]. split; [|done].
  apply elem_of_TracksByImage. by exists c.
Qed.

Lemma FilterPairWiseMinimumMatches_diagonal_witness :
  NoDup (UnionFindEnum.classes (myTracksUF (Build new_TracksBuilder scenario_support).2)).*1 ∧
  (0, [11; 10]) ∈ UnionFindEnum.classes (myTracksUF (Build new_TracksBuilder scenario_support).2) ∧
  imgC ∈ class_images (Build new_TracksBuilder scenario_support).2 (0, [11; 10]) ∧
  length (TracksByImage (Build new_TracksBuilder scenario_support).2 imgC) < 3 ∧
  (0, [11; 10]) ∉ UnionFindEnum.classes
    (myTracksUF (FilterPairWiseMinimumMatches 3 (Build new_TracksBuilder scenario_support).2).2).
Proof.
  assert (H1 : NoDup (UnionFindEnum.classes
                 (myTracksUF (Build new_TracksBuilder scenario_support).2)).*1)
    by (vm_compute; apply (bool_decide_unpack _); vm_compute; exact I).
  assert (H2 : (0, [11; 10]) ∈ UnionFindEnum.classes
                 (myTracksUF (Build new_TracksBuilder scenario_support).2))
    by (vm_compute; repeat constructor).
  assert (H3 : imgC ∈ class_images (Build new_TracksBuilder scenario_support).2 (0, [11; 10]))
    by (vm_compute; repeat constructor).
  assert (H4 : length (TracksByImage (Build new_TracksBuilder scenario_support).2 imgC) < 3)
    by (vm_compute; lia).
  split; [exact H1|]. split; [exact H2|]. split; [exact H3|]. split; [exact H4|].
  exact (FilterPairWiseMinimumMatches_diagonal 3 (Build new_TracksBuilder scenario_support).2
           (0, [11; 10]) imgC H1 H2 H3 H4).
Defined.

(** X11. What a class that survives [FilterPairWiseMinimumMatches min] is
    sure of: any two images it has members in (the same image twice
    included) are seen together by at least [min] classes of the builder
    the filter was called on. The counts are not taken again after the
    erasure. The filter is monotone: a class that survives the bound
    [min'] survives every smaller bound. *)
Theorem FilterPairWiseMinimumMatches_survivor min tb c :
  NoDup (UnionFindEnum.classes (myTracksUF tb)).*1 →
  c ∈ UnionFindEnum.classes (myTracksUF (FilterPairWiseMinimumMatches min tb).2) →
  (∀ I J, I ∈ class_images tb c → J ∈ class_images tb c → min ≤ length (shared tb I J)) ∧
  (∀ min', min' ≤ min →
     c ∈ UnionFindEnum.classes (myTracksUF (FilterPairWiseMinimumMatches min' tb).2)).
Proof.
  intros Hnd [Hc Hn]%FilterPairWiseMinimumMatches_classes; [|done]. split.
  - intros I J HI HJ.
    destruct (decide (min ≤ length (shared tb I J))) as [|Hlt]; [done|].
    destruct Hn.
    assert (HtI : c.1 ∈ TracksByImage tb I) by (apply elem_of_TracksByImage; by exists c).
    assert (HtJ : c.1 ∈ TracksByImage tb J) by (apply elem_of_TracksByImage; by exists c).
    destruct (decide (I ≤ J)).
    + exists I, J. rewrite elem_of_shared. split; [done|]. split; [done|lia].
    + exists J, I. rewrite elem_of_shared, (shared_length_sym tb J I) by done.
      split; [lia|]. split; [done|lia].
  - intros min' Hle. apply FilterPairWiseMinimumMatches_classes; [done|].
    split; [done|]. intros (I & J & ? & ? & ?). apply Hn. exists I, J.
    split; [done|]. split; [done|lia].
Qed.

Lemma FilterPairWiseMinimumMatches_survivor_witness :
  NoDup (UnionFindEnum.classes (myTracksUF (Build new_TracksBuilder scenario_support).2)).*1 ∧
  (6, [5; 0]) ∈ UnionFindEnum.classes
    (myTracksUF (FilterPairWiseMinimumMatches 3 (Build new_TracksBuilder scenario_support).2).2) ∧
  (∀ I J, I ∈ class_images (Build new_TracksBuilder scenario_support).2 (6, [5; 0]) →
          J ∈ class_images (Build new_TracksBuilder scenario_support).2 (6, [5; 0]) →
          3 ≤ length (shared (Build new_TracksBuilder scenario_support).2 I J)) ∧
  (∀ min', min' ≤ 3 →
     (6, [5; 0]) ∈ UnionFindEnum.classes
       (myTracksUF (FilterPairWiseMinimumMatches min'
                      (Build new_TracksBuilder scenario_support).2).2)).
Proof.
  assert (H1 : NoDup (UnionFindEnum.classes
                 (myTracksUF (Build new_TracksBuilder scenario_support).2)).*1)
    by (vm_compute; apply (bool_decide_unpack _); vm_compute; exact I).
  assert (H2 : (6, [5; 0]) ∈ UnionFindEnum.classes
                 (myTracksUF (FilterPairWiseMinimumMatches 3
                                (Build new_TracksBuilder scenario_support).2).2))
    by (vm_compute; repeat constructor).
  split; [exact H1|]. split; [exact H2|].
  exact (FilterPairWiseMinimumMatches_survivor 3 (Build new_TracksBuilder scenario_support).2
           (6, [5; 0]) H1 H2).
Defined.

(** ** [ExportToSTL] *)

Lemma track_of_entry tb members img f :
  track_of tb members !! img = Some f →
  ∃ item, item ∈ members ∧ key_of tb item = Some (img, f).
Proof.
  unfold track_of. intros [?|Hin]%write_lookup_Some; [by rewrite lookup_empty in *|].
  apply list_elem_of_omap in Hin as (item & ? & ?). by exists item.
Qed.

Lemma track_of_conflict_free tb c :
  length (class_images tb c) = length c.2 → NoDup (class_images tb c) →
  size (track_of tb c.2) = length c.2 ∧
  ∀ item img f, item ∈ c.2 → key_of tb item = Some (img, f) →
    track_of tb c.2 !! img = Some f.
Proof.
  rewrite class_images_keys, length_fmap. intros Hlen Hnd. unfold track_of. split.
  - rewrite write_size; [|done|intros; apply lookup_empty].
    rewrite map_size_empty. exact Hlen.
  - intros item img f Hitem Hkey.
    assert (Hin : (img, f) ∈ omap (key_of tb) c.2)
      by (apply list_elem_of_omap; by exists item).
    apply list_elem_of_split in Hin as (l1 & l2 & Heq). rewrite Heq.
    apply write_last. rewrite Heq, fmap_app, fmap_cons in Hnd.
    apply NoDup_app in Hnd as (_ & _ & [Hn _]%NoDup_cons). done.
Qed.

(** X12. Without conflict the export loses nothing: when no class has two
    members in one image, the entries of track [t] are exactly the node
    keys of the members of the [t]-th class, and there are as many
    entries as members. *)
Theorem ExportToSTL_lossless tb out t c :
  conflict_free tb →
  UnionFindEnum.classes (myTracksUF tb) !! t = Some c →
  ∃ track, ExportToSTL tb out !! t = Some track ∧
    size track = length c.2 ∧
    ∀ img f, track !! img = Some f ↔ ∃ item, item ∈ c.2 ∧ key_of tb item = Some (img, f).
Proof.
  intros Hcf Hc. exists (track_of tb c.2). rewrite ExportToSTL_lookup, Hc.
  destruct (Hcf c) as [Hlen Hnd]; [by apply list_elem_of_lookup_2 with t|].
  destruct (track_of_conflict_free tb c Hlen Hnd) as [Hsize Hall].
  split; [done|]. split; [done|]. intros img f. split.
  - apply track_of_entry.
  - intros (item & ? & ?). by apply (Hall item).
Qed.

Lemma ExportToSTL_lossless_witness :
  conflict_free (Filter 2 (Build new_TracksBuilder scenario_chain).2).2 ∧
  UnionFindEnum.classes (myTracksUF (Filter 2 (Build new_TracksBuilder scenario_chain).2).2) !! 0
    = Some (1, [1; 0; 2]) ∧
  ∃ track,
    ExportToSTL (Filter 2 (Build new_TracksBuilder scenario_chain).2).2 ∅ !! 0 = Some track ∧
    size track = length (1, [1; 0; 2]).2 ∧
    ∀ img f, track !! img = Some f ↔
      ∃ item, item ∈ (1, [1; 0; 2]).2 ∧
        key_of (Filter 2 (Build new_TracksBuilder scenario_chain).2).2 item = Some (img, f).
Proof.
  assert (H1 : conflict_free (Filter 2 (Build new_TracksBuilder scenario_chain).2).2).
  { intros c Hc. apply list_elem_of_In in Hc. vm_compute in Hc.
    destruct Hc as [<-|[]]. split; [reflexivity|].
    apply (bool_decide_unpack _). vm_compute. exact I. }
  assert (H2 : UnionFindEnum.classes
                 (myTracksUF (Filter 2 (Build new_TracksBuilder scenario_chain).2).2) !! 0
               = Some (1, [1; 0; 2])) by (vm_compute; reflexivity).
  split; [exact H1|]. split; [exact H2|].
  exact (ExportToSTL_lossless (Filter 2 (Build new_TracksBuilder scenario_chain).2).2 ∅
           0 (1, [1; 0; 2]) H1 H2).
Defined.

(** The builder after [Build] and any filter calls. *)
Lemma run_filters_Build image_pairs calls :
  reverse_my_Map (run_filters (Build new_TracksBuilder image_pairs).2 calls)
    = reverse_my_Map (Build new_TracksBuilder image_pairs).2 ∧
  UnionFindEnum.wf (UnionFindEnum.classes
    (myTracksUF (run_filters (Build new_TracksBuilder image_pairs).2 calls))) ∧
  ∀ c, c ∈ UnionFindEnum.classes
             (myTracksUF (run_filters (Build new_TracksBuilder image_pairs).2 calls)) →
       c ∈ UnionFindEnum.classes (myTracksUF (Build new_TracksBuilder image_pairs).2).
Proof.
  generalize (Build_classes_spec image_pairs). intros [Hwf _].
  revert Hwf. generalize (Build new_TracksBuilder image_pairs).2. intros tb.
  revert tb. induction calls as [|call calls IH]; intros tb Hwf; simpl; [done|].
  destruct (run_filter_erases tb call) as [Hrev [ids Hids]].
  destruct (IH (run_filter tb call)) as (IH1 & IH2 & IH3).
  { rewrite Hids. destruct Hwf as [Hnd Hdis]. split.
    - by apply UnionFindFacts.NoDup_ids_filter.
    - intros c1 c2 x [_ ?]%list_elem_of_filter [_ ?]%list_elem_of_filter. by apply Hdis. }
  split; [by rewrite IH1|]. split; [done|].
  intros c Hc%IH3. rewrite Hids in Hc. by apply list_elem_of_filter in Hc as [_ ?].
Qed.

Lemma key_of_run_filters image_pairs calls i :
  key_of (run_filters (Build new_TracksBuilder image_pairs).2 calls) i
    = Build_collect image_pairs !! i.
Proof.
  destruct (run_filters_Build image_pairs calls) as (Hrev & _).
  rewrite <-key_of_Build. unfold key_of. by rewrite Hrev.
Qed.

(** X13. Exported tracks are disjoint: after [Build] and any filter
    calls, a feature (image, index) is an entry of one track at most. *)
Theorem ExportToSTL_tracks_disjoint image_pairs calls out t1 t2 track1 track2 img f :
  ExportToSTL (run_filters (Build new_TracksBuilder image_pairs).2 calls) out !! t1
    = Some track1 →
  ExportToSTL (run_filters (Build new_TracksBuilder image_pairs).2 calls) out !! t2
    = Some track2 →
  track1 !! img = Some f → track2 !! img = Some f →
  t1 = t2.
Proof.
  rewrite !ExportToSTL_lookup.
  intros (c1 & Hc1 & ->)%fmap_Some (c2 & Hc2 & ->)%fmap_Some
         (i1 & Hi1 & Hk1)%track_of_entry (i2 & Hi2 & Hk2)%track_of_entry.
  destruct (run_filters_Build image_pairs calls) as (_ & [Hnd Hdis] & _).
  rewrite key_of_run_filters in Hk1, Hk2.
  assert (i1 = i2) as ->.
  { eapply NoDup_lookup; [|done..].
    apply (ascending_NoDup pair_ltb), Build_collect_ascending. }
  assert (c1 = c2) as ->.
  { apply (Hdis c1 c2 i2); [by eapply list_elem_of_lookup_2..|done|done]. }
  eapply NoDup_lookup; [|done..]. by apply NoDup_fmap_1 in Hnd.
Qed.

Lemma ExportToSTL_tracks_disjoint_witness :
  ExportToSTL (run_filters (Build new_TracksBuilder scenario_chain).2 [CallFilter 2]) ∅ !! 0
    = Some {[ imgA := 1%Z; imgB := 10%Z; imgC := 100%Z ]} ∧
  ({[ imgA := 1%Z; imgB := 10%Z; imgC := 100%Z ]} : gmap nat Z) !! imgB = Some 10%Z ∧
  0 = 0.
Proof.
  assert (H1 : ExportToSTL (run_filters (Build new_TracksBuilder scenario_chain).2
                              [CallFilter 2]) ∅ !! 0
               = Some {[ imgA := 1%Z; imgB := 10%Z; imgC := 100%Z ]})
    by (vm_compute; reflexivity).
  assert (H2 : ({[ imgA := 1%Z; imgB := 10%Z; imgC := 100%Z ]} : gmap nat Z) !! imgB
               = Some 10%Z) by (vm_compute; reflexivity).
  split; [exact H1|]. split; [exact H2|].
  exact (ExportToSTL_tracks_disjoint scenario_chain [CallFilter 2] ∅ 0 0 _ _ imgB 10%Z
           H1 H1 H2 H2).
Defined.

(** X14. Exported tracks are sound for the input: after [Build] and any
    filter calls, every entry of a track is a node key of the input, and
    two entries of one track are linked by a chain of input matches. *)
Theorem ExportToSTL_sound image_pairs calls out t track img1 f1 img2 f2 :
  ExportToSTL (run_filters (Build new_TracksBuilder image_pairs).2 calls) out !! t
    = Some track →
  track !! img1 = Some f1 → track !! img2 = Some f2 →
  (img1, f1) ∈ endpoints image_pairs ∧
  connected (edges image_pairs) (img1, f1) (img2, f2).
Proof.
  rewrite ExportToSTL_lookup.
  intros (c & Hc & ->)%fmap_Some (i1 & Hi1 & Hk1)%track_of_entry
         (i2 & Hi2 & Hk2)%track_of_entry.
  destruct (run_filters_Build image_pairs calls) as (_ & _ & Hsub).
  rewrite key_of_run_filters in Hk1, Hk2.
  destruct (Build_classes_spec image_pairs) as [_ Hconn]. split.
  - apply elem_of_Build_collect. by apply list_elem_of_lookup_2 with i1.
  - apply (Hconn i1 i2 _ _ Hk1 Hk2). exists c. split; [|done].
    apply Hsub. by apply list_elem_of_lookup_2 with t.
Qed.

Lemma ExportToSTL_sound_witness :
  ExportToSTL (run_filters (Build new_TracksBuilder scenario_chain).2 [CallFilter 2]) ∅ !! 0
    = Some {[ imgA := 1%Z; imgB := 10%Z; imgC := 100%Z ]} ∧
  ({[ imgA := 1%Z; imgB := 10%Z; imgC := 100%Z ]} : gmap nat Z) !! imgA = Some 1%Z ∧
  ({[ imgA := 1%Z; imgB := 10%Z; imgC := 100%Z ]} : gmap nat Z) !! imgC = Some 100%Z ∧
  (imgA, 1%Z) ∈ endpoints scenario_chain ∧
  connected (edges scenario_chain) (imgA, 1%Z) (imgC, 100%Z).
Proof.
  assert (H1 : ExportToSTL (run_filters (Build new_TracksBuilder scenario_chain).2
                              [CallFilter 2]) ∅ !! 0
               = Some {[ imgA := 1%Z; imgB := 10%Z; imgC := 100%Z ]})
    by (vm_compute; reflexivity).
  assert (H2 : ({[ imgA := 1%Z; imgB := 10%Z; imgC := 100%Z ]} : gmap nat Z) !! imgA
               = Some 1%Z) by (vm_compute; reflexivity).
  assert (H3 : ({[ imgA := 1%Z; imgB := 10%Z; imgC := 100%Z ]} : gmap nat Z) !! imgC
               = Some 100%Z) by (vm_compute; reflexivity).
  split; [exact H1|]. split; [exact H2|]. split; [exact H3|].
  exact (ExportToSTL_sound scenario_chain [CallFilter 2] ∅ 0 _ imgA 1%Z imgC 100%Z H1 H2 H3).
Defined.

(** ** [ExportToStream] *)





Section ExportToStream_facts.
Variable get_name : ImageId → string.






End ExportToStream_facts.


(** ** More on [Build] and on the order of the filters *)

Lemma elem_of_concat {A} (x : A) (ls : list (list A)) :
  x ∈ concat ls ↔ ∃ l, x ∈ l ∧ l ∈ ls.
Proof.
  induction ls as [|l ls IH]; simpl.
  - split; [by intros ?%elem_of_nil|]. by intros (l & _ & ?%elem_of_nil).
  - rewrite elem_of_app, IH. setoid_rewrite elem_of_cons. naive_solver.
Qed.

(** X17. [Build] registers matched features only: every member of a class
    is an end of an input match whose other end is a member of the same
    class (the same member when a feature is matched with itself). *)
Theorem Build_member_matched image_pairs c n :
  c ∈ UnionFindEnum.classes (myTracksUF (Build new_TracksBuilder image_pairs).2) →
  n ∈ c.2 →
  ∃ k k' n',
    key_of (Build new_TracksBuilder image_pairs).2 n = Some k ∧
    key_of (Build new_TracksBuilder image_pairs).2 n' = Some k' ∧
    ((k, k') ∈ edges image_pairs ∨ (k', k) ∈ edges image_pairs) ∧
    n' ∈ c.2.
Proof.
  intros Hc Hn.
  destruct (Build_classes_spec image_pairs) as [Hwf Hconn].
  destruct (Build_items image_pairs) as [Hperm _].
  assert (Hlt : n < g (Build new_TracksBuilder image_pairs).2).
  { assert (n ∈ seq 0 (g (Build new_TracksBuilder image_pairs).2)) as ?%elem_of_seq; [|lia].
    rewrite <-Hperm. unfold UnionFindEnum.items. apply elem_of_concat.
    exists c.2. split; [done|]. apply list_elem_of_fmap. by exists c. }
  rewrite g_Build in Hlt. apply lookup_lt_is_Some in Hlt as [k Hk].
  assert (Hend : k ∈ endpoints image_pairs)
    by (apply elem_of_Build_collect; by apply list_elem_of_lookup_2 with n).
  apply elem_of_endpoints in Hend as ([k1 k2] & He & Hor). simpl in Hor.
  assert (Hother : ∀ k', ((k, k') ∈ edges image_pairs ∨ (k', k) ∈ edges image_pairs) →
            k' ∈ endpoints image_pairs →
            ∃ n', key_of (Build new_TracksBuilder image_pairs).2 n' = Some k' ∧ n' ∈ c.2).
  { intros k' Hedge Hk'. apply elem_of_Build_collect, list_elem_of_lookup in Hk' as [n' Hn'].
    exists n'. rewrite key_of_Build. split; [done|].
    assert (Hsame : UnionFindEnum.same (UnionFindEnum.classes
              (myTracksUF (Build new_TracksBuilder image_pairs).2)) n n').
    { apply (Hconn n n' k k' Hk Hn'). destruct Hedge; [by apply rtsc_lr|by apply rtsc_rl]. }
    by apply (UnionFindFacts.same_class_r _ c n n') in Hsame. }
  exists k. destruct Hor as [-> | ->].
  - destruct (Hother k2) as (n' & ? & ?); [by left| |].
    { apply elem_of_endpoints. exists (k1, k2). auto. }
    exists k2, n'. rewrite key_of_Build. auto.
  - destruct (Hother k1) as (n' & ? & ?); [by right| |].
    { apply elem_of_endpoints. exists (k1, k2). auto. }
    exists k1, n'. rewrite key_of_Build. auto.
Qed.

Lemma Build_member_matched_witness :
  (1, [1; 0; 2]) ∈ UnionFindEnum.classes (myTracksUF (Build new_TracksBuilder scenario_chain).2) ∧
  2 ∈ (1, [1; 0; 2]).2 ∧
  ∃ k k' n',
    key_of (Build new_TracksBuilder scenario_chain).2 2 = Some k ∧
    key_of (Build new_TracksBuilder scenario_chain).2 n' = Some k' ∧
    ((k, k') ∈ edges scenario_chain ∨ (k', k) ∈ edges scenario_chain) ∧
    n' ∈ (1, [1; 0; 2]).2.
Proof.
  assert (H1 : (1, [1; 0; 2]) ∈ UnionFindEnum.classes
                 (myTracksUF (Build new_TracksBuilder scenario_chain).2))
    by (vm_compute; repeat constructor).
  assert (H2 : 2 ∈ (1, [1; 0; 2]).2) by (simpl; repeat constructor).
  split; [exact H1|]. split; [exact H2|].
  exact (Build_member_matched scenario_chain (1, [1; 0; 2]) 2 H1 H2).
Defined.

(** X18. What [Filter k] establishes stays: after [Filter k] and any
    further filter calls, every class still has its members in pairwise
    distinct images and at least [k] members, and every exported track has
    one entry per member of its class, hence at least [k] entries. *)
Theorem Filter_postcondition_kept k tb calls out :
  NoDup (UnionFindEnum.classes (myTracksUF tb)).*1 →
  (∀ c, c ∈ UnionFindEnum.classes (myTracksUF (run_filters (Filter k tb).2 calls)) →
     length (class_images tb c) = length c.2 ∧ NoDup (class_images tb c) ∧ k ≤ length c.2) ∧
  (∀ t track, ExportToSTL (run_filters (Filter k tb).2 calls) out !! t = Some track →
     k ≤ size track ∧
     ∃ c, UnionFindEnum.classes (myTracksUF (run_filters (Filter k tb).2 calls)) !! t = Some c ∧
          size track = length c.2).
Proof.
  intros Hnd.
  destruct (run_filters_only_erase_frame (Filter k tb).2 calls) as (Hrev & Hsub).
  assert (Hclass : ∀ c,
    c ∈ UnionFindEnum.classes (myTracksUF (run_filters (Filter k tb).2 calls)) →
    length (class_images tb c) = length c.2 ∧ NoDup (class_images tb c) ∧ k ≤ length c.2).
  { intros c Hc%Hsub. by destruct (Filter_survivor k tb c Hnd Hc) as (_ & ? & ? & ?). }
  split; [done|]. intros t track. rewrite ExportToSTL_lookup.
  intros (c & Hc & ->)%fmap_Some.
  destruct (Hclass c) as (Hlen & Hnodup & Hk); [by apply list_elem_of_lookup_2 with t|].
  destruct (track_of_conflict_free (run_filters (Filter k tb).2 calls) c) as [Hsize _].
  - by rewrite (class_images_frame tb).
  - by rewrite (class_images_frame tb).
  - split; [lia|]. by exists c.
Qed.

Lemma Filter_postcondition_kept_witness :
  NoDup (UnionFindEnum.classes (myTracksUF (Build new_TracksBuilder scenario_support).2)).*1 ∧
  (∀ c, c ∈ UnionFindEnum.classes
              (myTracksUF (run_filters (Filter 2 (Build new_TracksBuilder scenario_support).2).2
                             [CallFilterPairWiseMinimumMatches 3])) →
     length (class_images (Build new_TracksBuilder scenario_support).2 c) = length c.2 ∧
     NoDup (class_images (Build new_TracksBuilder scenario_support).2 c) ∧ 2 ≤ length c.2) ∧
  (∀ t track,
     ExportToSTL (run_filters (Filter 2 (Build new_TracksBuilder scenario_support).2).2
                    [CallFilterPairWiseMinimumMatches 3]) ∅ !! t = Some track →
     2 ≤ size track ∧
     ∃ c, UnionFindEnum.classes
            (myTracksUF (run_filters (Filter 2 (Build new_TracksBuilder scenario_support).2).2
                           [CallFilterPairWiseMinimumMatches 3])) !! t = Some c ∧
          size track = length c.2).
Proof.
  assert (H : NoDup (UnionFindEnum.classes
                (myTracksUF (Build new_TracksBuilder scenario_support).2)).*1)
    by (vm_compute; apply (bool_decide_unpack _); vm_compute; exact I).
  split; [exact H|].
  exact (Filter_postcondition_kept 2 (Build new_TracksBuilder scenario_support).2
           [CallFilterPairWiseMinimumMatches 3] ∅ H).
Defined.

(** ** Inputs with the same matches *)

Lemma same_classes_length cs1 cs2 : same_classes cs1 cs2 → length cs1 = length cs2.
Proof. intros (cs & Hp & HF). rewrite Hp. by eapply Forall2_length. Qed.

Lemma Forall2_elem_of {A B} (R : A → B → Prop) (l : list A) (k : list B) :
  Forall2 R l k → Forall2 (λ x y, x ∈ l ∧ y ∈ k ∧ R x y) l k.
Proof.
  induction 1 as [|x y l k HR HF IH]; constructor.
  - split; [left|]. split; [left|done].
  - eapply Forall2_impl; [exact IH|]. intros x' y' (? & ? & ?).
    split; [by right|]. split; [by right|done].
Qed.

Lemma same_classes_filter (P Q : nat * list Node → Prop)
    `{!∀ c, Decision (P c), !∀ c, Decision (Q c)} cs1 cs2 :
  same_classes cs1 cs2 →
  (∀ c1 c2, c1 ∈ cs1 → c2 ∈ cs2 → c1.2 ≡ₚ c2.2 → P c1 ↔ Q c2) →
  same_classes (filter P cs1) (filter Q cs2).
Proof.
  intros (cs & Hp & HF) HPQ. exists (filter Q cs). split; [by rewrite Hp|].
  apply Forall2_elem_of in HF.
  eapply Forall2_impl.
  - apply (Forall2_filter _ P Q); [|exact HF].
    intros c1 c2 (H1 & H2 & HR). apply HPQ; [done| by rewrite Hp |done].
  - by intros c1 c2 (_ & _ & ?).
Qed.

Lemma wf_Permutation cs cs' :
  cs ≡ₚ cs' → UnionFindEnum.wf cs → UnionFindEnum.wf cs'.
Proof.
  intros Hp [Hnd Hdis]. split; [by rewrite <-Hp|].
  intros c1 c2 x H1 H2. apply Hdis; by rewrite Hp.
Qed.

Lemma same_Permutation cs cs' x y :
  cs ≡ₚ cs' → UnionFindEnum.same cs x y ↔ UnionFindEnum.same cs' x y.
Proof. intros Hp. unfold UnionFindEnum.same. by setoid_rewrite Hp. Qed.

Lemma wf_cons c cs :
  UnionFindEnum.wf (c :: cs) →
  UnionFindEnum.wf cs ∧ ∀ d x, d ∈ cs → x ∈ c.2 → x ∉ d.2.
Proof.
  intros [Hnd Hdis]. csimpl in Hnd. apply NoDup_cons in Hnd as [Hc Hnd].
  split; [split; [done|]|].
  - intros c1 c2 x H1 H2. apply Hdis; by right.
  - intros d x Hd Hx Hx'. apply Hc.
    assert (c = d) as -> by (apply (Hdis c d x); [left|by right|done..]).
    apply list_elem_of_fmap. by exists d.
Qed.

Lemma same_tail c cs u v :
  UnionFindEnum.wf (c :: cs) →
  UnionFindEnum.same cs u v ↔ UnionFindEnum.same (c :: cs) u v ∧ u ∉ c.2.
Proof.
  intros [_ Hdis]%wf_cons. split.
  - intros (d & Hd & Hu & Hv). split; [exists d; split; [by right|done]|].
    intros Hc. by apply (Hdis d u).
  - intros [(d & [->|Hd]%elem_of_cons & Hu & Hv) Hn]; [done|]. by exists d.
Qed.

(** Two partitions with the same equivalence have the same classes. *)
Lemma same_partition cs1 : ∀ cs2,
  UnionFindEnum.wf cs1 → UnionFindEnum.wf cs2 →
  (∀ c, c ∈ cs1 → c.2 ≠ [] ∧ NoDup c.2) →
  (∀ c, c ∈ cs2 → c.2 ≠ [] ∧ NoDup c.2) →
  (∀ x y, UnionFindEnum.same cs1 x y ↔ UnionFindEnum.same cs2 x y) →
  same_classes cs1 cs2.
Proof.
  induction cs1 as [|c cs1 IH]; intros cs2 Hwf1 Hwf2 Hne1 Hne2 Hsame.
  - destruct cs2 as [|c' cs2]; [exists []; split; [done|constructor]|].
    destruct (Hne2 c') as [Hne _]; [left|].
    destruct c' as [i' [|x l]]; [done|].
    assert (UnionFindEnum.same [] x x) as (? & []%elem_of_nil & _).
    apply Hsame. exists (i', x :: l). split; [left|]. split; left.
  - destruct (Hne1 c) as [Hne Hnd]; [left|].
    assert (∃ x, x ∈ c.2) as [x Hx].
    { destruct c as [i [|x l]]; [done|]. exists x. left. }
    assert (UnionFindEnum.same cs2 x x) as (c' & Hc' & Hxc' & _).
    { apply Hsame. exists c. split; [left|done]. }
    assert (Hperm : c.2 ≡ₚ c'.2).
    { apply NoDup_Permutation; [done|by apply Hne2|]. intros y.
      rewrite <-(UnionFindFacts.same_class_r (c :: cs1) c x y) by (done || left).
      rewrite <-(UnionFindFacts.same_class_r cs2 c' x y) by done.
      apply Hsame. }
    pose proof Hc' as [cs2r Hp]%elem_of_Permutation.
    pose proof (wf_Permutation _ _ Hp Hwf2) as Hwf2'.
    destruct (IH cs2r) as (cs & Hpr & HF).
    + by apply wf_cons in Hwf1 as [? _].
    + by apply wf_cons in Hwf2' as [? _].
    + intros d Hd. apply Hne1. by right.
    + intros d Hd. apply Hne2. rewrite Hp. by right.
    + intros u v. rewrite (same_tail c cs1), (same_tail c' cs2r) by done.
      rewrite <-(same_Permutation _ _ u v Hp), Hsame, Hperm. done.
    + exists (c' :: cs). split; [by rewrite Hp, Hpr|by constructor].
Qed.

Section ascending_ext.
Context {T : Type} (ltb : T → T → bool) `{!StrictOrderB ltb}.

(** A [std::set] is determined by its elements. *)
Lemma ascending_ext (s1 s2 : list T) :
  ascending ltb s1 → ascending ltb s2 → (∀ x, x ∈ s1 ↔ x ∈ s2) → s1 = s2.
Proof.
  intros H1 H2 Heq.
  apply (StronglySorted_unique_strong (λ x y, ltb x y = true)); [|done..|].
  - intros x y _ _ Hxy Hyx. pose proof (ltb_trans x y x Hxy Hyx) as Hxx.
    by rewrite ltb_irrefl in Hxx.
  - apply NoDup_Permutation; [by apply (ascending_NoDup ltb)..|done].
Qed.
End ascending_ext.

Lemma Build_collect_same_edges image_pairs image_pairs' :
  (∀ e, e ∈ edges image_pairs' ↔ e ∈ edges image_pairs) →
  Build_collect image_pairs' = Build_collect image_pairs.
Proof.
  intros He. apply (ascending_ext pair_ltb); [apply Build_collect_ascending..|].
  intros k. rewrite !elem_of_Build_collect, !elem_of_endpoints.
  by setoid_rewrite He.
Qed.

Lemma NoDup_concat_elem {A} (ls : list (list A)) l :
  NoDup (concat ls) → l ∈ ls → NoDup l.
Proof.
  induction ls as [|l' ls IH]; simpl; [by intros _ ?%elem_of_nil|].
  intros (H1 & _ & H2)%NoDup_app [->|Hl]%elem_of_cons; auto.
Qed.

Lemma Build_members image_pairs c :
  c ∈ UnionFindEnum.classes (myTracksUF (Build new_TracksBuilder image_pairs).2) →
  c.2 ≠ [] ∧ NoDup c.2.
Proof.
  intros Hc. destruct (Build_items image_pairs) as [Hitems Hne].
  split; [by apply Hne|].
  apply (NoDup_concat_elem
    (UnionFindEnum.classes (myTracksUF (Build new_TracksBuilder image_pairs).2)).*2).
  - change (NoDup (UnionFindEnum.items (myTracksUF (Build new_TracksBuilder image_pairs).2))).
    rewrite Hitems. apply NoDup_seq.
  - apply list_elem_of_fmap. by exists c.
Qed.

Lemma Build_same_lt image_pairs x y :
  UnionFindEnum.same
    (UnionFindEnum.classes (myTracksUF (Build new_TracksBuilder image_pairs).2)) x y →
  x < length (Build_collect image_pairs) ∧ y < length (Build_collect image_pairs).
Proof.
  intros (c & Hc & Hx & Hy). destruct (Build_items image_pairs) as [Hitems _].
  rewrite g_Build in Hitems.
  assert (Hin : ∀ z, z ∈ c.2 → z < length (Build_collect image_pairs)).
  { intros z Hz.
    assert (z ∈ UnionFindEnum.items (myTracksUF (Build new_TracksBuilder image_pairs).2)) as H.
    { apply elem_of_concat. exists c.2. split; [done|].
      apply list_elem_of_fmap. by exists c. }
    rewrite Hitems in H. apply elem_of_seq in H. lia. }
  auto.
Qed.

(** [Build] on two inputs with the same matches: the same registry and
    the same classes, up to their order. *)
Lemma Build_same_edges image_pairs image_pairs' :
  (∀ e, e ∈ edges image_pairs' ↔ e ∈ edges image_pairs) →
  g (Build new_TracksBuilder image_pairs').2 = g (Build new_TracksBuilder image_pairs).2 ∧
  reverse_my_Map (Build new_TracksBuilder image_pairs').2
    = reverse_my_Map (Build new_TracksBuilder image_pairs).2 ∧
  same_classes
    (UnionFindEnum.classes (myTracksUF (Build new_TracksBuilder image_pairs').2))
    (UnionFindEnum.classes (myTracksUF (Build new_TracksBuilder image_pairs).2)).
Proof.
  intros He. pose proof (Build_collect_same_edges _ _ He) as HK.
  split; [by rewrite !g_Build, HK|].
  split; [by rewrite !Build_new, HK|].
  destruct (Build_classes_spec image_pairs) as [Hwf Hs].
  destruct (Build_classes_spec image_pairs') as [Hwf' Hs'].
  apply same_partition; [done|done|apply Build_members..|].
  assert (Hconn : ∀ k1 k2,
    connected (edges image_pairs') k1 k2 ↔ connected (edges image_pairs) k1 k2).
  { intros k1 k2. split; apply connected_mono; intros e; apply He. }
  intros x y. split.
  - intros Hsame. destruct (Build_same_lt _ _ _ Hsame) as [Hx Hy].
    apply lookup_lt_is_Some_2 in Hx as [k1 H1], Hy as [k2 H2].
    apply (Hs' x y k1 k2 H1 H2), Hconn in Hsame.
    rewrite HK in H1, H2. by apply (Hs x y k1 k2 H1 H2).
  - intros Hsame. destruct (Build_same_lt _ _ _ Hsame) as [Hx Hy].
    apply lookup_lt_is_Some_2 in Hx as [k1 H1], Hy as [k2 H2].
    apply (Hs x y k1 k2 H1 H2), Hconn in Hsame.
    rewrite <-HK in H1, H2. by apply (Hs' x y k1 k2 H1 H2).
Qed.

Lemma class_images_Permutation tb tb' c c' :
  reverse_my_Map tb' = reverse_my_Map tb → c'.2 ≡ₚ c.2 →
  class_images tb' c' ≡ₚ class_images tb c.
Proof.
  intros Hrev Hp. rewrite (class_images_frame tb tb' c') by done.
  unfold class_images. by rewrite Hp.
Qed.

Lemma remove_dups_length_Permutation (l1 l2 : list ImageId) :
  l1 ≡ₚ l2 → length (remove_dups l1) = length (remove_dups l2).
Proof.
  intros Hp. apply Permutation_length, NoDup_Permutation; [apply NoDup_remove_dups..|].
  intros x. by rewrite !elem_of_remove_dups, Hp.
Qed.

Lemma Filter_erases_Permutation k tb tb' c c' :
  reverse_my_Map tb' = reverse_my_Map tb → c'.2 ≡ₚ c.2 →
  Filter_erases k tb' c' ↔ Filter_erases k tb c.
Proof.
  intros Hrev Hp. unfold Filter_erases. simpl.
  rewrite (remove_dups_length_Permutation _ _ (class_images_Permutation _ _ _ _ Hrev Hp)).
  by rewrite (Permutation_length Hp).
Qed.

(** The number of classes two images share, counted on the classes. *)
Lemma shared_length tb I J :
  NoDup (UnionFindEnum.classes (myTracksUF tb)).*1 →
  length (shared tb I J) =
  length (filter (λ c, I ∈ class_images tb c ∧ J ∈ class_images tb c)
            (UnionFindEnum.classes (myTracksUF tb))).
Proof.
  intros Hnd.
  rewrite <-(length_fmap fst (filter _ (UnionFindEnum.classes (myTracksUF tb)))).
  apply Permutation_length, NoDup_Permutation.
  - by apply NoDup_filter, NoDup_TracksByImage.
  - by apply UnionFindFacts.NoDup_ids_filter.
  - intros t. rewrite elem_of_shared, !elem_of_TracksByImage, list_elem_of_fmap.
    setoid_rewrite list_elem_of_filter. split.
    + intros [(c & Hc & <- & HI) (c' & Hc' & Heq & HJ)].
      assert (c' = c) as -> by by apply (UnionFindFacts.NoDup_ids_eq _ _ _ Hnd).
      by exists c.
    + intros (c & -> & [HI HJ] & Hc). split; by exists c.
Qed.

Lemma marked_class min tb c :
  NoDup (UnionFindEnum.classes (myTracksUF tb)).*1 →
  c ∈ UnionFindEnum.classes (myTracksUF tb) →
  marked min tb c.1 ↔
    ∃ I J, I ≤ J ∧ I ∈ class_images tb c ∧ J ∈ class_images tb c ∧
           length (shared tb I J) < min.
Proof.
  intros Hnd Hc. unfold marked. f_equiv; intros I. f_equiv; intros J.
  rewrite elem_of_shared, !elem_of_TracksByImage. split.
  - intros (HIJ & [(c1 & Hc1 & Heq1 & HI) (c2 & Hc2 & Heq2 & HJ)] & Hlen).
    assert (c1 = c) as -> by by apply (UnionFindFacts.NoDup_ids_eq _ _ _ Hnd).
    assert (c2 = c) as -> by by apply (UnionFindFacts.NoDup_ids_eq _ _ _ Hnd).
    done.
  - intros (HIJ & HI & HJ & Hlen). split; [done|]. split; [|done]. split; by exists c.
Qed.

Section same_classes_filters.
Context (tb tb' : TracksBuilder).
Hypothesis Hrev : reverse_my_Map tb' = reverse_my_Map tb.
Hypothesis Hnd : NoDup (UnionFindEnum.classes (myTracksUF tb)).*1.
Hypothesis Hnd' : NoDup (UnionFindEnum.classes (myTracksUF tb')).*1.
Hypothesis Hsame :
  same_classes (UnionFindEnum.classes (myTracksUF tb'))
               (UnionFindEnum.classes (myTracksUF tb)).

Lemma shared_length_same_classes I J :
  length (shared tb' I J) = length (shared tb I J).
Proof.
  rewrite !shared_length by done. apply same_classes_length, same_classes_filter; [done|].
  intros c1 c2 _ _ Hp.
  pose proof (class_images_Permutation tb tb' c2 c1 Hrev Hp) as Hci.
  by rewrite Hci.
Qed.

Lemma marked_same_classes min c' c :
  c' ∈ UnionFindEnum.classes (myTracksUF tb') →
  c ∈ UnionFindEnum.classes (myTracksUF tb) →
  c'.2 ≡ₚ c.2 →
  marked min tb' c'.1 ↔ marked min tb c.1.
Proof.
  intros Hc' Hc Hp. rewrite !marked_class by done.
  f_equiv; intros I. f_equiv; intros J.
  rewrite shared_length_same_classes.
  pose proof (class_images_Permutation tb tb' c c' Hrev Hp) as Hci.
  by rewrite Hci.
Qed.

Lemma run_filter_same_classes call :
  same_classes (UnionFindEnum.classes (myTracksUF (run_filter tb' call)))
               (UnionFindEnum.classes (myTracksUF (run_filter tb call))).
Proof.
  destruct call as [k|min]; cbn [run_filter].
  - rewrite !Filter_classes_eq by done. apply same_classes_filter; [done|].
    intros c1 c2 _ _ Hp. by rewrite (Filter_erases_Permutation k tb tb' c2 c1).
  - unfold FilterPairWiseMinimumMatches. simpl.
    destruct (UnionFindFacts.eraseClass_fold
      (vec_unique (vec_sort Nat.ltb (crossImages min (tracksIdPerImages tb) [])))
      (myTracksUF tb)) as [-> _].
    destruct (UnionFindFacts.eraseClass_fold
      (vec_unique (vec_sort Nat.ltb (crossImages min (tracksIdPerImages tb') [])))
      (myTracksUF tb')) as [-> _].
    apply same_classes_filter; [done|].
    intros c1 c2 H1 H2 Hp.
    rewrite !elem_of_vec_unique, !(elem_of_vec_sort Nat.ltb), !crossImages_marked by done.
    by rewrite (marked_same_classes min c1 c2).
Qed.

End same_classes_filters.

Lemma run_filters_same_classes calls : ∀ tb tb',
  reverse_my_Map tb' = reverse_my_Map tb →
  NoDup (UnionFindEnum.classes (myTracksUF tb)).*1 →
  NoDup (UnionFindEnum.classes (myTracksUF tb')).*1 →
  same_classes (UnionFindEnum.classes (myTracksUF tb'))
               (UnionFindEnum.classes (myTracksUF tb)) →
  same_classes (UnionFindEnum.classes (myTracksUF (run_filters tb' calls)))
               (UnionFindEnum.classes (myTracksUF (run_filters tb calls))).
Proof.
  induction calls as [|call calls IH]; intros tb tb' Hrev Hnd Hnd' Hsame; simpl; [done|].
  apply IH.
  - destruct (run_filter_erases tb call) as [-> _].
    by destruct (run_filter_erases tb' call) as [-> _].
  - by apply run_filter_NoDup_ids.
  - by apply run_filter_NoDup_ids.
  - by apply run_filter_same_classes.
Qed.

(** The tracks of the exported map are the tracks of the classes. *)
Lemma ExportToSTL_tracks tb out track :
  (∃ t, ExportToSTL tb out !! t = Some track) ↔
  ∃ c, c ∈ UnionFindEnum.classes (myTracksUF tb) ∧ track = track_of tb c.2.
Proof.
  setoid_rewrite ExportToSTL_lookup. setoid_rewrite list_elem_of_lookup. split.
  - intros (t & Ht). destruct (UnionFindEnum.classes (myTracksUF tb) !! t) as [c|] eqn:Hc;
      [|done]. exists c. split; [by exists t|]. simpl in Ht. congruence.
  - intros (c & [t Ht] & ->). exists t. by rewrite Ht.
Qed.

(** Without conflict the track of a class does not depend on the order
    of its members. *)
Lemma track_of_Permutation tb tb' (c c' : nat * list Node) :
  reverse_my_Map tb' = reverse_my_Map tb → c'.2 ≡ₚ c.2 →
  length (class_images tb c) = length c.2 → NoDup (class_images tb c) →
  track_of tb' c'.2 = track_of tb c.2.
Proof.
  intros Hrev Hp Hlen Hnd.
  assert (Hkey : ∀ item, key_of tb' item = key_of tb item).
  { intros item. unfold key_of. by rewrite Hrev. }
  pose proof (class_images_Permutation tb tb' c c' Hrev Hp) as Hci.
  assert (Hlen' : length (class_images tb' c') = length c'.2).
  { by rewrite Hci, Hp. }
  assert (Hnd' : NoDup (class_images tb' c')) by by rewrite Hci.
  destruct (track_of_conflict_free tb c Hlen Hnd) as [_ Hw].
  destruct (track_of_conflict_free tb' c' Hlen' Hnd') as [_ Hw'].
  apply map_eq. intros img. apply option_eq. intros f. split.
  - intros (item & Hitem & Hk)%track_of_entry. apply (Hw item); [by rewrite <-Hp|].
    by rewrite <-Hkey.
  - intros (item & Hitem & Hk)%track_of_entry. apply (Hw' item); [by rewrite Hp|].
    by rewrite Hkey.
Qed.

Lemma same_classes_elem_of cs' cs c' :
  same_classes cs' cs → c' ∈ cs' → ∃ c, c ∈ cs ∧ c'.2 ≡ₚ c.2.
Proof.
  intros (l & Hp & HF) [i Hi]%list_elem_of_lookup.
  destruct (Forall2_lookup_l _ _ _ _ _ HF Hi) as (c & Hc & HR).
  exists c. split; [|done]. rewrite Hp. apply list_elem_of_lookup. by exists i.
Qed.

(** One direction of the comparison of the two exports. *)
Lemma same_classes_tracks tb tb' out track :
  reverse_my_Map tb' = reverse_my_Map tb →
  conflict_free tb →
  same_classes (UnionFindEnum.classes (myTracksUF tb'))
               (UnionFindEnum.classes (myTracksUF tb)) →
  (∃ t, ExportToSTL tb' out !! t = Some track) →
  ∃ t, ExportToSTL tb out !! t = Some track.
Proof.
  intros Hrev Hcf Hsame. rewrite !ExportToSTL_tracks.
  intros (c' & Hc' & ->).
  destruct (same_classes_elem_of _ _ _ Hsame Hc') as (c & Hc & Hp).
  exists c. split; [done|]. destruct (Hcf c Hc) as [Hlen Hnd].
  by apply track_of_Permutation.
Qed.

Lemma g_run_filters tb calls : g (run_filters tb calls) = g tb.
Proof.
  revert tb. induction calls as [|call calls IH]; intros tb; simpl; [done|].
  rewrite IH. by destruct call.
Qed.

Lemma same_edges_run_filters image_pairs image_pairs' calls :
  (∀ e, e ∈ edges image_pairs' ↔ e ∈ edges image_pairs) →
  g (run_filters (Build new_TracksBuilder image_pairs').2 calls)
    = g (run_filters (Build new_TracksBuilder image_pairs).2 calls) ∧
  reverse_my_Map (run_filters (Build new_TracksBuilder image_pairs').2 calls)
    = reverse_my_Map (run_filters (Build new_TracksBuilder image_pairs).2 calls) ∧
  same_classes
    (UnionFindEnum.classes
       (myTracksUF (run_filters (Build new_TracksBuilder image_pairs').2 calls)))
    (UnionFindEnum.classes
       (myTracksUF (run_filters (Build new_TracksBuilder image_pairs).2 calls))).
Proof.
  intros He. destruct (Build_same_edges _ _ He) as (Hg & Hrev & Hsame).
  split; [|split].
  - by rewrite !g_run_filters.
  - destruct (run_filters_only_erase_frame (Build new_TracksBuilder image_pairs).2 calls)
      as [-> _].
    by destruct (run_filters_only_erase_frame (Build new_TracksBuilder image_pairs').2 calls)
      as [-> _].
  - apply run_filters_same_classes; [done| | |done]; apply Build_classes_spec.
Qed.

(** X19. The tracks depend on the set of the matches only. Two inputs
    that assert the same matches, in whatever order and however many times
    each (an input and the same input with one match asserted once more
    at any place, before its first occurrence included), get the same node
    registry from [Build], and after the same filter calls they hold the
    same classes up to the order of the classes, their ids and the order
    of their members; [NbTracks] is the same. When [Filter] is among the
    calls, [ExportToSTL] gives the same tracks for both inputs, up to the
    numbers of the tracks. *)
Theorem same_matches_same_tracks image_pairs image_pairs' calls out :
  (∀ e, e ∈ edges image_pairs' ↔ e ∈ edges image_pairs) →
  g (run_filters (Build new_TracksBuilder image_pairs').2 calls)
    = g (run_filters (Build new_TracksBuilder image_pairs).2 calls) ∧
  reverse_my_Map (run_filters (Build new_TracksBuilder image_pairs').2 calls)
    = reverse_my_Map (run_filters (Build new_TracksBuilder image_pairs).2 calls) ∧
  same_classes
    (UnionFindEnum.classes
       (myTracksUF (run_filters (Build new_TracksBuilder image_pairs').2 calls)))
    (UnionFindEnum.classes
       (myTracksUF (run_filters (Build new_TracksBuilder image_pairs).2 calls))) ∧
  NbTracks (run_filters (Build new_TracksBuilder image_pairs').2 calls)
    = NbTracks (run_filters (Build new_TracksBuilder image_pairs).2 calls) ∧
  ((∃ k, CallFilter k ∈ calls) →
   ∀ track,
     (∃ t, ExportToSTL (run_filters (Build new_TracksBuilder image_pairs').2 calls) out !! t
             = Some track) ↔
     (∃ t, ExportToSTL (run_filters (Build new_TracksBuilder image_pairs).2 calls) out !! t
             = Some track)).
Proof.
  intros He.
  assert (He' : ∀ e, e ∈ edges image_pairs ↔ e ∈ edges image_pairs') by (intros e; by rewrite He).
  destruct (same_edges_run_filters _ _ calls He) as (Hg & Hrev & Hsame).
  destruct (same_edges_run_filters _ _ calls He') as (_ & _ & Hsame').
  split; [done|]. split; [done|]. split; [done|].
  split; [rewrite !NbTracks_length; by apply same_classes_length|].
  intros [k (calls1 & calls2 & ->)%list_elem_of_split] track.
  assert (Hcf : ∀ P, conflict_free
            (run_filters (Build new_TracksBuilder P).2 (calls1 ++ CallFilter k :: calls2))).
  { intros P. unfold run_filters. rewrite foldl_app. simpl.
    apply run_filters_conflict_free, Filter_conflict_free, run_filters_NoDup_ids.
    apply Build_classes_spec. }
  split; apply same_classes_tracks; auto.
Qed.

Lemma same_matches_same_tracks_witness :
  (∀ e, e ∈ edges scenario_two_tracks_repeated_first ↔ e ∈ edges scenario_two_tracks) ∧
  g (run_filters (Build new_TracksBuilder scenario_two_tracks_repeated_first).2 [CallFilter 2])
    = g (run_filters (Build new_TracksBuilder scenario_two_tracks).2 [CallFilter 2]) ∧
  reverse_my_Map
    (run_filters (Build new_TracksBuilder scenario_two_tracks_repeated_first).2 [CallFilter 2])
    = reverse_my_Map (run_filters (Build new_TracksBuilder scenario_two_tracks).2 [CallFilter 2]) ∧
  same_classes
    (UnionFindEnum.classes (myTracksUF
       (run_filters (Build new_TracksBuilder scenario_two_tracks_repeated_first).2
          [CallFilter 2])))
    (UnionFindEnum.classes (myTracksUF
       (run_filters (Build new_TracksBuilder scenario_two_tracks).2 [CallFilter 2]))) ∧
  NbTracks
    (run_filters (Build new_TracksBuilder scenario_two_tracks_repeated_first).2 [CallFilter 2])
    = NbTracks (run_filters (Build new_TracksBuilder scenario_two_tracks).2 [CallFilter 2]) ∧
  ((∃ k, CallFilter k ∈ [CallFilter 2]) →
   ∀ track,
     (∃ t, ExportToSTL
             (run_filters (Build new_TracksBuilder scenario_two_tracks_repeated_first).2
                [CallFilter 2]) ∅ !! t = Some track) ↔
     (∃ t, ExportToSTL
             (run_filters (Build new_TracksBuilder scenario_two_tracks).2 [CallFilter 2]) ∅ !! t
             = Some track)).
Proof.
  assert (H : ∀ e, e ∈ edges scenario_two_tracks_repeated_first
                   ↔ e ∈ edges scenario_two_tracks).
  { intros e.
    change (edges scenario_two_tracks_repeated_first)
      with (((imgB, 10%Z), (imgC, 100%Z)) :: edges scenario_two_tracks).
    rewrite elem_of_cons. split; [|by right].
    intros [->|He]; [|done]. vm_compute. repeat constructor. }
  split; [exact H|].
  exact (same_matches_same_tracks scenario_two_tracks scenario_two_tracks_repeated_first
           [CallFilter 2] ∅ H).
Defined.
